(** * The skill installer of add-skill (src/installer.ts)

    A shallow embedding of the installation and linking subsystem:
    the name sanitizer, the path-safety validator, the symlink manager,
    the tree copier, the installer and the installed check, with the
    removal of a skill from one agent (remove.ts), over a model of the
    POSIX flavour of Node's [path] module and of the [fs/promises] calls
    they make. *)

From Stdlib Require Import NArith Ascii Lia.
From stdpp Require Import base decidable option list strings gmap fin_maps countable.

Set Default Proof Using "Type".
Local Open Scope N_scope.
Local Open Scope list_scope.

(** ** JavaScript strings

    A JavaScript string is a sequence of UTF-16 code units; [length],
    [substring] and the regular expressions of the source all work on code
    units. *)

Module Js.

Abbreviation char := N (only parsing).
Abbreviation jsstring := (list N) (only parsing).

(** A string literal of the source, given as a Rocq string. *)
Fixpoint lit (s : string) : jsstring :=
  match s with
  | EmptyString => []
  | String a s' => N_of_ascii a :: lit s'
  end.

Definition CHAR_NUL : char := 0.
Definition CHAR_DOT : char := 46.
Definition CHAR_SLASH : char := 47.
Definition CHAR_COLON : char := 58.
Definition CHAR_BACKSLASH : char := 92.

(** The class [\s] of an ECMAScript regular expression: WhiteSpace and
    LineTerminator code points. *)
Definition isSpace (c : char) : bool :=
  ((9 <=? c) && (c <=? 13))
  || (c =? 32) || (c =? 160) || (c =? 5760)
  || ((8192 <=? c) && (c <=? 8202))
  || (c =? 8232) || (c =? 8233) || (c =? 8239) || (c =? 8287)
  || (c =? 12288) || (c =? 65279).

Fixpoint dropWhile (p : char -> bool) (s : jsstring) : jsstring :=
  match s with
  | [] => []
  | c :: s' => if p c then dropWhile p s' else s
  end.

Definition dropWhileEnd (p : char -> bool) (s : jsstring) : jsstring :=
  rev (dropWhile p (rev s)).

(** [s.startsWith(p)] *)
Fixpoint startsWith (s p : jsstring) {struct p} : bool :=
  match p, s with
  | [], _ => true
  | _ :: _, [] => false
  | a :: p', b :: s' => (a =? b) && startsWith s' p'
  end.

(** [a === b] on strings *)
Definition streq (a b : jsstring) : bool := bool_decide (a = b).

(** [s.substring(0, n)] *)
Definition substring0 (n : nat) (s : jsstring) : jsstring := take n s.

End Js.
Import Js.

(** ** installer.ts: the name sanitizer *)

(** The character class [[\/\\:\0]]. *)
Definition isUnsafeChar (c : char) : bool :=
  (c =? CHAR_SLASH) || (c =? CHAR_BACKSLASH) || (c =? CHAR_COLON) || (c =? CHAR_NUL).

(** The character class [[.\s]]. *)
Definition isDotOrSpace (c : char) : bool := (c =? CHAR_DOT) || isSpace c.

Definition isDot (c : char) : bool := c =? CHAR_DOT.

Definition sanitizeName (name : jsstring) : jsstring :=
  (* name.replace(/[\/\\:\0]/g, '') *)
  let sanitized := List.filter (fun c => negb (isUnsafeChar c)) name in
  (* sanitized.replace(/^[.\s]+|[.\s]+$/g, '') *)
  let sanitized := dropWhileEnd isDotOrSpace (dropWhile isDotOrSpace sanitized) in
  (* sanitized.replace(/^\.+/, '') *)
  let sanitized := dropWhile isDot sanitized in
  let sanitized :=
    match sanitized with
    | [] => lit "unnamed-skill"
    | _ => sanitized
    end in
  if (255 <? length sanitized)%nat then substring0 255 sanitized else sanitized.

(** ** Node's [path] module, POSIX flavour

    The functions of [path.posix] that the installer calls.  Node scans
    the characters of the path; the model works on the segments between
    the separators, which is what that scan computes. *)

Module Path.

Definition sep : jsstring := lit "/".

Definition isSlash (c : char) : bool := c =? CHAR_SLASH.

(** [path.split('/')] *)
Fixpoint split (s : jsstring) : list jsstring :=
  match s with
  | [] => [[]]
  | c :: s' =>
      if isSlash c then [] :: split s'
      else match split s' with
           | [] => [[c]]
           | seg :: rest => (c :: seg) :: rest
           end
  end.

(** [segs.join('/')] *)
Fixpoint joinSegs (segs : list jsstring) : jsstring :=
  match segs with
  | [] => []
  | [seg] => seg
  | seg :: rest => seg ++ CHAR_SLASH :: joinSegs rest
  end.

Definition DOT : jsstring := lit ".".
Definition DOTDOT : jsstring := lit "..".

(** One step of [normalizeString]: [res] is the list of segments kept so
    far, last segment first. *)
Definition pushSegment (allowAboveRoot : bool) (res : list jsstring) (seg : jsstring)
  : list jsstring :=
  if decide (seg = []) then res
  else if decide (seg = DOT) then res
  else if decide (seg = DOTDOT) then
    match res with
    | [] => if allowAboveRoot then [DOTDOT] else []
    | top :: rest =>
        if decide (top = DOTDOT)
        then (if allowAboveRoot then DOTDOT :: res else res)
        else rest
    end
  else seg :: res.

(** [normalizeString(path, allowAboveRoot, '/', isPosixPathSeparator)], on
    the segments of [path]. *)
Definition normalizeString (allowAboveRoot : bool) (segs : list jsstring) : list jsstring :=
  rev (fold_left (pushSegment allowAboveRoot) segs []).

Definition isAbsolute (path : jsstring) : bool :=
  match path with
  | c :: _ => isSlash c
  | [] => false
  end.

Definition endsWithSlash (path : jsstring) : bool :=
  match rev path with
  | c :: _ => isSlash c
  | [] => false
  end.

Definition normalize (path : jsstring) : jsstring :=
  match path with
  | [] => DOT
  | _ =>
      let absolute := isAbsolute path in
      let trailingSeparator := endsWithSlash path in
      match joinSegs (normalizeString (negb absolute) (split path)) with
      | [] => if absolute then sep else if trailingSeparator then lit "./" else DOT
      | p =>
          let p := if trailingSeparator then p ++ sep else p in
          if absolute then sep ++ p else p
      end
  end.

(** [path.join(...args)] *)
Definition join (args : list jsstring) : jsstring :=
  match List.filter (fun arg => negb (bool_decide (arg = []))) args with
  | [] => DOT
  | parts => normalize (joinSegs parts)
  end.

(** The loop of [path.resolve]: arguments from the last to the first, then
    the working directory, until the path is absolute. *)
Fixpoint resolveLoop (rargs : list jsstring) (resolvedPath : jsstring) : bool * jsstring :=
  match rargs with
  | [] => (false, resolvedPath)
  | path :: rest =>
      match path with
      | [] => resolveLoop rest resolvedPath
      | _ =>
          let resolvedPath := path ++ sep ++ resolvedPath in
          if isAbsolute path then (true, resolvedPath) else resolveLoop rest resolvedPath
      end
  end.

(** The segments of [path.resolve(...args)] and whether it is absolute. *)
Definition resolveSegs (cwd : jsstring) (args : list jsstring) : bool * list jsstring :=
  let '(resolvedAbsolute, resolvedPath) := resolveLoop (rev args ++ [cwd]) [] in
  (resolvedAbsolute, normalizeString (negb resolvedAbsolute) (split resolvedPath)).

(** [path.resolve(...args)] in a process whose working directory is [cwd]. *)
Definition resolve (cwd : jsstring) (args : list jsstring) : jsstring :=
  let '(resolvedAbsolute, segs) := resolveSegs cwd args in
  if resolvedAbsolute then sep ++ joinSegs segs
  else match joinSegs segs with
       | [] => DOT
       | p => p
       end.

Fixpoint stripCommon (from to : list jsstring) : list jsstring * list jsstring :=
  match from, to with
  | f :: from', t :: to' => if decide (f = t) then stripCommon from' to' else (from, to)
  | _, _ => (from, to)
  end.

(** [path.relative(from, to)] *)
Definition relative (cwd : jsstring) (from to : jsstring) : jsstring :=
  if streq from to then []
  else
    let from := resolve cwd [from] in
    let to := resolve cwd [to] in
    if streq from to then []
    else
      let '(up, down) := stripCommon (snd (resolveSegs cwd [from])) (snd (resolveSegs cwd [to])) in
      joinSegs (List.map (fun _ => DOTDOT) up ++ down).

(** [path.basename(path)] *)
Definition basename (path : jsstring) : jsstring :=
  last (List.filter (fun seg => negb (bool_decide (seg = []))) (split path)) [].

(** [path.dirname(path)] *)
Definition dirname (path : jsstring) : jsstring :=
  match path with
  | [] => DOT
  | c0 :: rest =>
      let hasRoot := isSlash c0 in
      match dropWhile (fun c => negb (isSlash c)) (dropWhile isSlash (rev rest)) with
      | [] => if hasRoot then sep else DOT
      | _ :: before =>
          if hasRoot && bool_decide (before = []) then lit "//" else c0 :: rev before
      end
  end.

End Path.

(** ** The file system and the [fs/promises] calls

    The file system is a finite map from absolute paths, as lists of
    segments below the root, to nodes.  Paths are taken literally: a path
    is walked by its segments, a [..] cancels the segment before it, and no
    call passes through a symbolic link on its way, so a path that has a
    link as a proper prefix is a path whose parent is not a directory.
    This is what the system does where the directories above the paths of
    a call are real directories and the paths are in normal form.  The
    properties that speak of the contents of the file system are therefore
    stated for file systems without symbolic links ([noLinks]), on which an
    install makes at most one link, at the path of the agent, as its last
    step; the scenarios with links are evaluated on links that are the last
    component of the paths that reach them.

    Every call can also fail for a reason outside the model (permissions,
    a full disk, a name that is too long, a host without symbolic links):
    the world carries a schedule of such faults, consumed one entry per
    call.  A call that fails leaves the file system of the model as it
    was; on the system a recursive removal or a copy that fails may have
    done a part of its work, within what the call may change.  The world
    also logs every mutation it performs. *)

Abbreviation fskey := (list (list N)) (only parsing).

Inductive Node : Type :=
  | File (content : jsstring)
  | Dir
  | Link (payload : jsstring).

#[global] Instance Node_eq_dec : EqDecision Node.
Proof. solve_decision. Defined.

Inductive Errno : Type :=
  | ENOENT | ENOTDIR | EEXIST | EISDIR | EINVAL | EPERM | EACCES | ENOSPC
  | ENAMETOOLONG | ELOOP | EIO
  | ERR_FS_EISDIR | ERR_FS_CP_EINVAL | ERR_FS_CP_DIR_TO_NON_DIR
  | ERR_FS_CP_NON_DIR_TO_DIR | ERR_FS_CP_SYMLINK_TO_SUBDIRECTORY.

#[global] Instance Errno_eq_dec : EqDecision Errno.
Proof. solve_decision. Defined.

(** What a [throw] carries: a failed call or [new Error(message)], both
    instances of [Error] with a [message]. *)
Inductive Exn : Type :=
  | IOError (code : Errno)
  | JsError (msg : jsstring).

Definition errnoName (e : Errno) : jsstring :=
  match e with
  | ENOENT => lit "ENOENT: no such file or directory"
  | ENOTDIR => lit "ENOTDIR: not a directory"
  | EEXIST => lit "EEXIST: file already exists"
  | EISDIR => lit "EISDIR: illegal operation on a directory"
  | EINVAL => lit "EINVAL: invalid argument"
  | EPERM => lit "EPERM: operation not permitted"
  | EACCES => lit "EACCES: permission denied"
  | ENOSPC => lit "ENOSPC: no space left on device"
  | ENAMETOOLONG => lit "ENAMETOOLONG: name too long"
  | ELOOP => lit "ELOOP: too many symbolic links encountered"
  | EIO => lit "EIO: i/o error"
  | ERR_FS_EISDIR => lit "Path is a directory"
  | ERR_FS_CP_EINVAL => lit "Invalid src or dest"
  | ERR_FS_CP_DIR_TO_NON_DIR => lit "Cannot overwrite non-directory with directory"
  | ERR_FS_CP_NON_DIR_TO_DIR => lit "Cannot overwrite directory with non-directory"
  | ERR_FS_CP_SYMLINK_TO_SUBDIRECTORY => lit "Cannot copy a symlink to a subdirectory of itself"
  end.

(** [error.message].  For a failed call this is the code and its
    description; Node appends the name of the call and the path, and no
    property depends on the text. *)
Definition message (e : Exn) : jsstring :=
  match e with
  | IOError code => errnoName code
  | JsError msg => msg
  end.

Inductive Syscall : Type :=
  | SysMkdir (k : fskey)
  | SysRm (k : fskey)
  | SysUnlink (k : fskey)
  | SysSymlink (payload : jsstring) (k : fskey)
  | SysCopyFile (ksrc kdest : fskey).

Record World : Type := mkWorld {
  fs : gmap (list (list N)) Node;
  faults : list (option Errno);
  log : list Syscall
}.

(** The host: [process.cwd()], [os.homedir()], [os.platform()]. *)
Record Host : Type := mkHost {
  processCwd : jsstring;
  homedir : jsstring;
  platform : jsstring
}.

(** The limit of the operating system on the length of a path. *)
Definition PATH_MAX : nat := 4096.

Module Fs.

Definition pathLen (k : fskey) : nat :=
  fold_right (fun seg n => S (length seg) + n)%nat 0%nat k.

(** The node at a path; the root is always a directory. *)
Definition nodeAt (k : fskey) (m : gmap (list (list N)) Node) : option Node :=
  match k with
  | [] => Some Dir
  | _ => m !! k
  end.

Definition parent (k : fskey) : fskey := removelast k.

(** The key of a path string in a process whose working directory is
    [cwd]: the system makes a relative path absolute and walks its
    segments from the root. *)
Definition absolutise (cwd : jsstring) (path : jsstring) : jsstring :=
  if Path.isAbsolute path then path else cwd ++ Path.sep ++ path.

Definition key (cwd : jsstring) (path : jsstring) : fskey :=
  Path.normalizeString false (Path.split (absolutise cwd path)).

Definition Result (A : Type) : Type := Errno + (A * gmap (list (list N)) Node * list Syscall).

(** [mkdir -p]: the directories [pre/s1], [pre/s1/s2], ... in turn. *)
Fixpoint mkdirFrom (pre : fskey) (rest : list jsstring) (m : gmap (list (list N)) Node)
  (l : list Syscall) : Result unit :=
  match rest with
  | [] => inr (tt, m, l)
  | seg :: rest' =>
      let p := pre ++ [seg] in
      match m !! p with
      | None => mkdirFrom p rest' (<[p := Dir]> m) (l ++ [SysMkdir p])
      | Some Dir => mkdirFrom p rest' m l
      | Some _ => inl (match rest' with [] => EEXIST | _ => ENOTDIR end)
      end
  end.

(** [mkdir(path, { recursive: true })] *)
Definition mkdirp (k : fskey) (m : gmap (list (list N)) Node) : Result unit :=
  mkdirFrom [] k m [].

Inductive Stats : Type := StFile | StDirectory | StSymbolicLink.

Definition statsOf (n : Node) : Stats :=
  match n with
  | File _ => StFile
  | Dir => StDirectory
  | Link _ => StSymbolicLink
  end.

Definition isSymbolicLink (st : Stats) : bool :=
  match st with StSymbolicLink => true | _ => false end.

Definition isDirectoryStats (st : Stats) : bool :=
  match st with StDirectory => true | _ => false end.

(** [lstat(path)] *)
Definition lstatAt (k : fskey) (m : gmap (list (list N)) Node) : Result Stats :=
  match nodeAt k m with
  | Some n => inr (statsOf n, m, [])
  | None => inl ENOENT
  end.

(** [readlink(path)] *)
Definition readlinkAt (k : fskey) (m : gmap (list (list N)) Node) : Result jsstring :=
  match nodeAt k m with
  | Some (Link payload) => inr (payload, m, [])
  | Some _ => inl EINVAL
  | None => inl ENOENT
  end.

Definition removeTree (k : fskey) (m : gmap (list (list N)) Node) : gmap (list (list N)) Node :=
  filter (fun kv => ~ k `prefix_of` kv.1) m.

(** [rm(path, { recursive })] *)
Definition rmAt (recursive : bool) (k : fskey) (m : gmap (list (list N)) Node) : Result unit :=
  match nodeAt k m with
  | None => inl ENOENT
  | Some Dir =>
      if recursive then inr (tt, removeTree k m, [SysRm k]) else inl ERR_FS_EISDIR
  | Some _ => inr (tt, delete k m, [SysUnlink k])
  end.

(** [symlink(target, path)]; the system refuses an empty target. *)
Definition symlinkAt (payload : jsstring) (k : fskey) (m : gmap (list (list N)) Node)
  : Result unit :=
  match payload with
  | [] => inl ENOENT
  | _ =>
      match nodeAt k m with
      | Some _ => inl EEXIST
      | None =>
          match nodeAt (parent k) m with
          | Some Dir => inr (tt, <[k := Link payload]> m, [SysSymlink payload k])
          | Some _ => inl ENOTDIR
          | None => inl ENOENT
          end
      end
  end.

Record Dirent : Type := mkDirent { name : jsstring; isDirectory : bool }.

Definition childName (k k' : fskey) : option jsstring :=
  match rev k' with
  | n :: rp => if decide (rev rp = k) then Some n else None
  | [] => None
  end.

Definition direntOf (k : fskey) (kv : fskey * Node) : option Dirent :=
  match childName k kv.1 with
  | Some n => Some (mkDirent n (bool_decide (kv.2 = Dir)))
  | None => None
  end.

(** [readdir(path, { withFileTypes: true })] *)
Definition readdirAt (k : fskey) (m : gmap (list (list N)) Node) : Result (list Dirent) :=
  match nodeAt k m with
  | Some Dir => inr (omap (direntOf k) (map_to_list m), m, [])
  | Some _ => inl ENOTDIR
  | None => inl ENOENT
  end.

(** [stat(path)], which follows links, up to the limit of the system. *)
Fixpoint statFollow (n : nat) (k : fskey) (m : gmap (list (list N)) Node) : Errno + Stats :=
  match nodeAt k m with
  | None => inl ENOENT
  | Some (Link payload) =>
      match n with
      | O => inl ELOOP
      | S n' =>
          statFollow n'
            (if Path.isAbsolute payload
             then Path.normalizeString false (Path.split payload)
             else Path.normalizeString false (parent k ++ Path.split payload)) m
      end
  | Some node => inr (statsOf node)
  end.

Definition copyFileAt (content : jsstring) (ksrc kdest : fskey)
  (m : gmap (list (list N)) Node) (l : list Syscall) : Result unit :=
  match nodeAt (parent kdest) m with
  | Some Dir => inr (tt, <[kdest := File content]> m, l ++ [SysCopyFile ksrc kdest])
  | Some _ => inl ENOTDIR
  | None => inl ENOENT
  end.

(** [cp(src, dest)] with the default options ([dereference], [recursive]
    and [verbatimSymlinks] false, [force] true): [srcPath] is the string
    handed to [cp], used to resolve the payload of a link. *)
Definition cpAt (cwd srcPath : jsstring) (ksrc kdest : fskey)
  (m : gmap (list (list N)) Node) : Result unit :=
  match nodeAt ksrc m with
  | None => inl ENOENT
  | Some srcNode =>
      let destNode := nodeAt kdest m in
      (* checkPaths *)
      if bool_decide (is_Some destNode) && bool_decide (ksrc = kdest) then inl ERR_FS_CP_EINVAL
      else if bool_decide (srcNode = Dir) && bool_decide (is_Some destNode)
              && negb (bool_decide (destNode = Some Dir))
      then inl ERR_FS_CP_DIR_TO_NON_DIR
      else if negb (bool_decide (srcNode = Dir)) && bool_decide (destNode = Some Dir)
      then inl ERR_FS_CP_NON_DIR_TO_DIR
      else if bool_decide (srcNode = Dir) && bool_decide (ksrc `prefix_of` kdest)
      then inl ERR_FS_CP_EINVAL
      (* checkParentPaths *)
      else if bool_decide (ksrc `prefix_of` parent kdest) && negb (bool_decide (ksrc = []))
      then inl ERR_FS_CP_EINVAL
      else
        (* checkParentDir *)
        match (match nodeAt (parent kdest) m with
               | Some _ => inr (tt, m, [])
               | None => mkdirp (parent kdest) m
               end) with
        | inl e => inl e
        | inr (_, m1, l1) =>
            (* getStatsForCopy *)
            match srcNode with
            | Dir => inl ERR_FS_EISDIR
            | File content =>
                match destNode with
                | None => copyFileAt content ksrc kdest m1 l1
                | Some _ => copyFileAt content ksrc kdest (delete kdest m1) (l1 ++ [SysUnlink kdest])
                end
            | Link payload =>
                let resolvedSrc :=
                  if Path.isAbsolute payload then payload
                  else Path.resolve cwd [Path.dirname srcPath; payload] in
                match destNode with
                | None =>
                    match symlinkAt resolvedSrc kdest m1 with
                    | inl e => inl e
                    | inr (_, m2, l2) => inr (tt, m2, l1 ++ l2)
                    end
                | Some (Link destPayload) =>
                    let kResolvedSrc := key cwd resolvedSrc in
                    let kResolvedDest :=
                      if Path.isAbsolute destPayload then key cwd destPayload
                      else Path.normalizeString false (parent kdest ++ Path.split destPayload) in
                    if bool_decide (kResolvedSrc `prefix_of` kResolvedDest)
                    then inl ERR_FS_CP_EINVAL
                    else
                      match statFollow 40 ksrc m1 with
                      | inl e => inl e
                      | inr st =>
                          if isDirectoryStats st
                             && bool_decide (kResolvedDest `prefix_of` kResolvedSrc)
                          then inl ERR_FS_CP_SYMLINK_TO_SUBDIRECTORY
                          else
                            match symlinkAt resolvedSrc kdest (delete kdest m1) with
                            | inl e => inl e
                            | inr (_, m2, l2) => inr (tt, m2, l1 ++ [SysUnlink kdest] ++ l2)
                            end
                      end
                | Some _ => inl EEXIST
                end
            end
        end
  end.

(** [access(path)]: the path leads, through links, to a node. *)
Definition accessAt (k : fskey) (m : gmap (list (list N)) Node) : Result unit :=
  match statFollow 40 k m with
  | inl e => inl e
  | inr _ => inr (tt, m, [])
  end.

(** [rm(path, { recursive: true, force: true })]: a missing path is no
    error. *)
Definition rmForceAt (k : fskey) (m : gmap (list (list N)) Node) : Result unit :=
  match nodeAt k m with
  | None => inr (tt, m, [])
  | Some _ => rmAt true k m
  end.

End Fs.

(** ** The monad of the asynchronous code

    A computation runs in a world and ends with a value or a thrown
    exception, the rejection of its promise.  [OutOfFuel] is the bound of
    the model on the depth of recursion, not an outcome of the program. *)

Inductive Outcome (A : Type) : Type :=
  | Ok (a : A)
  | Throw (e : Exn)
  | OutOfFuel.
Arguments Ok {A} a.
Arguments Throw {A} e.
Arguments OutOfFuel {A}.

Definition M (A : Type) : Type := World -> Outcome A * World.

Definition ret {A} (a : A) : M A := fun w => (Ok a, w).

Definition bind {A B} (m : M A) (f : A -> M B) : M B :=
  fun w =>
    match m w with
    | (Ok a, w') => f a w'
    | (Throw e, w') => (Throw e, w')
    | (OutOfFuel, w') => (OutOfFuel, w')
    end.

Definition outOfFuel {A} : M A := fun w => (OutOfFuel, w).

Definition throw {A} (e : Exn) : M A := fun w => (Throw e, w).

(** [try { body } catch (error) { handler }] *)
Definition tryCatch {A} (body : M A) (handler : Exn -> M A) : M A :=
  fun w =>
    match body w with
    | (Throw e, w') => handler e w'
    | r => r
    end.

Notation "x <- m ;; k" := (bind m (fun x => k))
  (at level 100, m at next level, right associativity).
Notation "m ;;; k" := (bind m (fun _ => k))
  (at level 100, right associativity).

(** [for (const x of xs) { body }] *)
Fixpoint forOf {A} (xs : list A) (body : A -> M unit) : M unit :=
  match xs with
  | [] => ret tt
  | x :: xs' => body x ;;; forOf xs' body
  end.

Section Calls.

Variable host : Host.

(** One call on [path]: the next fault of the schedule if there is one,
    else what the file system answers. *)
Definition syscall {A} (path : jsstring)
  (call : fskey -> gmap (list (list N)) Node -> Fs.Result A) : M A :=
  fun w =>
    let w1 := mkWorld (fs w) (tail (faults w)) (log w) in
    match faults w with
    | Some e :: _ => (Throw (IOError e), w1)
    | _ =>
        match path with
        | [] => (Throw (IOError ENOENT), w1)
        | _ =>
            let k := Fs.key (processCwd host) path in
            if (PATH_MAX <=? Fs.pathLen k)%nat then (Throw (IOError ENAMETOOLONG), w1)
            else match call k (fs w) with
                 | inl e => (Throw (IOError e), w1)
                 | inr (a, m, l) => (Ok a, mkWorld m (tail (faults w)) (log w ++ l))
                 end
        end
    end.

Definition mkdir (path : jsstring) : M unit := syscall path Fs.mkdirp.
Definition lstat (path : jsstring) : M Fs.Stats := syscall path Fs.lstatAt.
Definition readlink (path : jsstring) : M jsstring := syscall path Fs.readlinkAt.
Definition rm (path : jsstring) (recursive : bool) : M unit := syscall path (Fs.rmAt recursive).
Definition readdir (path : jsstring) : M (list Fs.Dirent) := syscall path Fs.readdirAt.

(** [symlink(target, path, type)]; [type] matters on Windows only. *)
Definition symlink (target path : jsstring) (type : option jsstring) : M unit :=
  syscall path (Fs.symlinkAt target).

Definition cp (src dest : jsstring) : M unit :=
  syscall dest (fun kdest m =>
    match src with
    | [] => inl ENOENT
    | _ => Fs.cpAt (processCwd host) src (Fs.key (processCwd host) src) kdest m
    end).

Definition access (path : jsstring) : M unit := syscall path Fs.accessAt.

(** [rm(path, { recursive: true, force: true })] *)
Definition rmForce (path : jsstring) : M unit := syscall path Fs.rmForceAt.

End Calls.

(** ** types.ts *)

Inductive AgentType : Type :=
  | amp | antigravity | claude_code | moltbot | cline | codebuddy | codex
  | command_code | continue | crush | cursor | droid | gemini_cli
  | github_copilot | goose | junie | kilo | kimi_cli | kiro_cli | kode
  | mcpjam | mux | neovate | opencode | openhands | pi | qoder | qwen_code
  | roo | trae | windsurf | zencoder | pochi.

Module Skill.
Record t : Type := mk {
  name : jsstring;
  description : jsstring;
  path : jsstring
}.
End Skill.

Record AgentConfig : Type := mkAgentConfig {
  displayName : jsstring;
  skillsDir : jsstring;
  globalSkillsDir : jsstring
}.

(** ** installer.ts *)

Definition AGENTS_DIR : jsstring := lit ".agents".
Definition SKILLS_SUBDIR : jsstring := lit "skills".

Record InstallResult : Type := mkInstallResult {
  success : bool;
  path : jsstring;
  canonicalPath : option jsstring;
  symlinkFailed : option bool;
  error : option jsstring
}.

(** The [options] argument of the exported functions; [None] is a field
    left out. *)
Record Options : Type := mkOptions {
  opt_global : option bool;
  opt_cwd : option jsstring;
  opt_noSymlink : option bool
}.

(** [s || d] on strings: the empty string is falsy. *)
Definition orString (s : option jsstring) (d : jsstring) : jsstring :=
  match s with
  | Some (c :: s') => c :: s'
  | _ => d
  end.

(** Truthiness of an optional boolean. *)
Definition truthy (b : option bool) : bool :=
  match b with
  | Some true => true
  | _ => false
  end.

Definition TRAVERSAL_MESSAGE : jsstring :=
  lit "Invalid skill name: potential path traversal detected".

Definition EXCLUDE_FILES : list jsstring := [lit "README.md"; lit "metadata.json"].

Definition isExcluded (name : jsstring) : bool :=
  if bool_decide (name ∈ EXCLUDE_FILES) then true
  else if startsWith name (lit "_") then true
  else false.

Section Installer.

Variable host : Host.

(** agents.ts, the registry of the agents, is a table of configuration. *)
Variable agents : AgentType -> AgentConfig.

Definition isPathSafe (basePath targetPath : jsstring) : bool :=
  let normalizedBase := Path.normalize (Path.resolve (processCwd host) [basePath]) in
  let normalizedTarget := Path.normalize (Path.resolve (processCwd host) [targetPath]) in
  startsWith normalizedTarget (normalizedBase ++ Path.sep)
  || streq normalizedTarget normalizedBase.

Definition getCanonicalSkillsDir (global : bool) (cwd : option jsstring) : jsstring :=
  let baseDir := if global then homedir host else orString cwd (processCwd host) in
  Path.join [baseDir; AGENTS_DIR; SKILLS_SUBDIR].

(** The inner [try] of [createSymlink]: [Some b] is [return b], [None]
    falls out of the block. *)
Definition inspectLink (target linkPath : jsstring) : M (option bool) :=
  stats <- lstat host linkPath ;;
  if Fs.isSymbolicLink stats then
    existingTarget <- readlink host linkPath ;;
    if streq (Path.resolve (processCwd host) [existingTarget])
             (Path.resolve (processCwd host) [target])
    then ret (Some true)
    else rm host linkPath false ;;; ret None
  else rm host linkPath true ;;; ret None.

Definition createSymlink (target linkPath : jsstring) : M bool :=
  tryCatch
    (returned <- tryCatch (inspectLink target linkPath) (fun _ => ret None) ;;
     match returned with
     | Some b => ret b
     | None =>
         let linkDir := Path.join [linkPath; lit ".."] in
         mkdir host linkDir ;;;
         let relativePath := Path.relative (processCwd host) linkDir target in
         let symlinkType :=
           if streq (platform host) (lit "win32") then Some (lit "junction") else None in
         symlink host relativePath linkPath symlinkType ;;;
         ret true
     end)
    (fun _ => ret false).

Fixpoint copyDirectoryFuel (fuel : nat) (src dest : jsstring) : M unit :=
  match fuel with
  | O => outOfFuel
  | S fuel' =>
      mkdir host dest ;;;
      entries <- readdir host src ;;
      forOf entries (fun entry =>
        if isExcluded (Fs.name entry) then ret tt
        else
          let srcPath := Path.join [src; Fs.name entry] in
          let destPath := Path.join [dest; Fs.name entry] in
          if Fs.isDirectory entry then copyDirectoryFuel fuel' srcPath destPath
          else cp host srcPath destPath)
  end.

(** No path is longer than [PATH_MAX], so the recursion is no deeper. *)
Definition copyDirectory (src dest : jsstring) : M unit :=
  copyDirectoryFuel (S PATH_MAX) src dest.

(** The [try] block of [installSkillForAgent]. *)
Definition installSteps (skill : Skill.t) (noSymlink : option bool)
  (canonicalDir agentDir : jsstring) : M InstallResult :=
  mkdir host canonicalDir ;;;
  copyDirectory (Skill.path skill) canonicalDir ;;;
  if truthy noSymlink then
    mkdir host agentDir ;;;
    copyDirectory (Skill.path skill) agentDir ;;;
    ret (mkInstallResult true agentDir (Some canonicalDir) None None)
  else
    symlinkCreated <- createSymlink canonicalDir agentDir ;;
    if negb symlinkCreated then
      mkdir host agentDir ;;;
      copyDirectory (Skill.path skill) agentDir ;;;
      ret (mkInstallResult true agentDir (Some canonicalDir) (Some true) None)
    else
      ret (mkInstallResult true agentDir (Some canonicalDir) None None).

Definition rawSkillName (skill : Skill.t) : jsstring :=
  match Skill.name skill with
  | [] => Path.basename (Skill.path skill)
  | n => n
  end.

Definition agentBaseOf (agentType : AgentType) (isGlobal : bool) (cwd : jsstring) : jsstring :=
  if isGlobal then globalSkillsDir (agents agentType)
  else Path.join [cwd; skillsDir (agents agentType)].

Definition installSkillForAgent (skill : Skill.t) (agentType : AgentType) (options : Options)
  : M InstallResult :=
  let isGlobal := default false (opt_global options) in
  let cwd := orString (opt_cwd options) (processCwd host) in
  let skillName := sanitizeName (rawSkillName skill) in
  let canonicalBase := getCanonicalSkillsDir isGlobal (Some cwd) in
  let canonicalDir := Path.join [canonicalBase; skillName] in
  let agentBase := agentBaseOf agentType isGlobal cwd in
  let agentDir := Path.join [agentBase; skillName] in
  if negb (isPathSafe canonicalBase canonicalDir) then
    ret (mkInstallResult false agentDir None None (Some TRAVERSAL_MESSAGE))
  else if negb (isPathSafe agentBase agentDir) then
    ret (mkInstallResult false agentDir None None (Some TRAVERSAL_MESSAGE))
  else
    tryCatch
      (installSteps skill (opt_noSymlink options) canonicalDir agentDir)
      (fun error => ret (mkInstallResult false agentDir None None (Some (message error)))).

(** The directories [installSkillForAgent] computes: its [canonicalBase],
    [canonicalDir], [agentBase] and [agentDir]. *)
Definition canonicalBaseFor (options : Options) : jsstring :=
  getCanonicalSkillsDir (default false (opt_global options))
    (Some (orString (opt_cwd options) (processCwd host))).

Definition canonicalDirFor (skill : Skill.t) (options : Options) : jsstring :=
  Path.join [canonicalBaseFor options; sanitizeName (rawSkillName skill)].

Definition agentBaseFor (agentType : AgentType) (options : Options) : jsstring :=
  agentBaseOf agentType (default false (opt_global options))
    (orString (opt_cwd options) (processCwd host)).

Definition agentDirFor (skill : Skill.t) (agentType : AgentType) (options : Options) : jsstring :=
  Path.join [agentBaseFor agentType options; sanitizeName (rawSkillName skill)].

(** A synchronous function that can [throw]. *)
Definition getInstallPath (skillName : jsstring) (agentType : AgentType) (options : Options)
  : Exn + jsstring :=
  let cwd := orString (opt_cwd options) (processCwd host) in
  let sanitized := sanitizeName skillName in
  let targetBase := agentBaseOf agentType (truthy (opt_global options)) cwd in
  let installPath := Path.join [targetBase; sanitized] in
  if negb (isPathSafe targetBase installPath) then inl (JsError TRAVERSAL_MESSAGE)
  else inr installPath.

Definition getCanonicalPath (skillName : jsstring) (options : Options) : Exn + jsstring :=
  let sanitized := sanitizeName skillName in
  let canonicalBase := getCanonicalSkillsDir (default false (opt_global options)) (opt_cwd options) in
  let canonicalPath := Path.join [canonicalBase; sanitized] in
  if negb (isPathSafe canonicalBase canonicalPath) then inl (JsError TRAVERSAL_MESSAGE)
  else inr canonicalPath.

Definition isSkillInstalled (skillName : jsstring) (agentType : AgentType) (options : Options)
  : M bool :=
  let sanitized := sanitizeName skillName in
  let targetBase :=
    agentBaseOf agentType (truthy (opt_global options))
      (orString (opt_cwd options) (processCwd host)) in
  let skillDir := Path.join [targetBase; sanitized] in
  if negb (isPathSafe targetBase skillDir) then ret false
  else tryCatch (access host skillDir ;;; ret true) (fun _ => ret false).

End Installer.

(** ** remove.ts: the removal of a skill from one agent *)

Module Remove.

Record Result : Type := mkResult {
  success : bool;
  path : jsstring;
  error : option jsstring
}.

End Remove.

(** [getInstallPath] is called before the [try]: what it throws rejects
    the promise. *)
Definition removeSkillFromAgent (host : Host) (agents : AgentType -> AgentConfig)
  (skillName : jsstring) (agentType : AgentType) (options : Options) : M Remove.Result :=
  match getInstallPath host agents skillName agentType options with
  | inl e => throw e
  | inr installPath =>
      tryCatch
        (access host installPath ;;;
         rmForce host installPath ;;;
         ret (Remove.mkResult true installPath None))
        (fun error => ret (Remove.mkResult false installPath (Some (message error))))
  end.

(** * The vocabulary of the properties *)

(** ** Path segments *)

Definition noSlash (seg : jsstring) : Prop := CHAR_SLASH ∉ seg.

(** A segment that names an entry: not empty, not [.] or [..], without
    separator. *)
Definition plain (seg : jsstring) : Prop :=
  seg <> [] /\ seg <> Path.DOT /\ seg <> Path.DOTDOT /\ noSlash seg.

#[global] Instance plain_dec (seg : list N) : Decision (plain seg).
Proof. unfold plain, noSlash. apply _. Defined.

(** What the stack of [normalizeString] holds with [allowAboveRoot]:
    pushed segments and [..]. *)
Definition pushable (seg : jsstring) : Prop := seg <> [] /\ seg <> Path.DOT.

(** The segments [normalize] keeps. *)
Definition normalSegs (path : jsstring) : list jsstring :=
  Path.normalizeString (negb (Path.isAbsolute path)) (Path.split path).

(** The string of an absolute path from its segments. *)
Definition render (ks : list jsstring) : jsstring := Path.sep ++ Path.joinSegs ks.

(** ** The steps of [sanitizeName] *)

(** The name before the fallback and the truncation. *)
Definition stripped (name : jsstring) : jsstring :=
  dropWhile isDot
    (dropWhileEnd isDotOrSpace
       (dropWhile isDotOrSpace (List.filter (fun c => negb (isUnsafeChar c)) name))).

Definition orFallback (sanitized : jsstring) : jsstring :=
  match sanitized with [] => lit "unnamed-skill" | _ => sanitized end.

(** ** File systems and what a call may change

    The names of a file system are plain segments.  A footprint names the
    keys that may be created as directories ([created]), written with
    anything ([written]) and removed ([deleted]); a key outside all three
    is left as it was. *)

Definition wfFs (m : gmap (list (list N)) Node) : Prop :=
  map_Forall (fun k _ => Forall plain k) m.

#[global] Instance wfFs_dec (m : gmap (list (list N)) Node) : Decision (wfFs m).
Proof. unfold wfFs. apply _. Defined.

(** A file system without symbolic links.  On such a file system a path
    leads where its segments say, whichever call walks it, so the keys of
    the model are the places of the system. *)
Definition noLinks (m : gmap (list (list N)) Node) : Prop :=
  map_Forall (fun _ node => Fs.isSymbolicLink (Fs.statsOf node) = false) m.

#[global] Instance noLinks_dec (m : gmap (list (list N)) Node) : Decision (noLinks m).
Proof. unfold noLinks. apply _. Defined.

(** A file system whose only symbolic link, if it has one, is at [kl]. *)
Definition noLinksBut (kl : list (list N)) (m : gmap (list (list N)) Node) : Prop :=
  map_Forall (fun k node => Fs.isSymbolicLink (Fs.statsOf node) = true -> k = kl) m.

#[global] Instance noLinksBut_dec (kl : list (list N)) (m : gmap (list (list N)) Node)
  : Decision (noLinksBut kl m).
Proof. unfold noLinksBut. apply _. Defined.

Record Footprint : Type := mkFootprint {
  created : list (list N) -> Prop;
  written : list (list N) -> Prop;
  deleted : list (list N) -> Prop
}.

Definition keyStep (F : Footprint) (k : list (list N)) (o o' : option Node) : Prop :=
  o' = o
  \/ written F k
  \/ (created F k /\ o' = Some Dir /\ (o = None \/ deleted F k))
  \/ (deleted F k /\ o' = None).

Definition effect (F : Footprint) (m m' : gmap (list (list N)) Node) : Prop :=
  forall k, keyStep F k (m !! k) (m' !! k).

Definition subFootprint (F F' : Footprint) : Prop :=
  forall k,
    (written F k -> written F' k)
    /\ (created F k -> created F' k \/ written F' k)
    /\ (deleted F k -> deleted F' k \/ written F' k).

(** [holds F P m Q]: from a well-formed file system that satisfies [P],
    [m] ends within the fuel, leaves a well-formed file system, changes it
    within the footprint [F] whether it returns or throws, and establishes
    [Q] when it returns. *)
Definition holds (F : Footprint) {A : Type} (P : gmap (list (list N)) Node -> Prop) (m : M A)
  (Q : A -> gmap (list (list N)) Node -> Prop) : Prop :=
  forall w, wfFs (fs w) -> P (fs w) ->
    match m w with
    | (Ok a, w') => wfFs (fs w') /\ effect F (fs w) (fs w') /\ Q a (fs w')
    | (Throw _, w') => wfFs (fs w') /\ effect F (fs w) (fs w')
    | (OutOfFuel, _) => False
    end.

Abbreviation anyFs := (fun _ : gmap (list (list N)) Node => True).

(** [m] keeps the property [I] of the file system, whether it returns or
    throws. *)
Definition preserves {A : Type} (I : gmap (list (list N)) Node -> Prop) (m : M A) : Prop :=
  forall w o w', I (fs w) -> m w = (o, w') -> I (fs w').

Definition nonExcluded (names : list (list N)) : Prop :=
  Forall (fun n => isExcluded n = false) names.

(** [copyDirectory] into [kd]: directories down to [kd], and entries
    below [kd] along names that are not excluded. *)
Definition copyFootprint (kd : list (list N)) : Footprint :=
  mkFootprint
    (fun k => k `prefix_of` kd)
    (fun k => exists names, names <> [] /\ k = kd ++ names /\ nonExcluded names)
    (fun _ => False).

(** [createSymlink] at [kl]: what is at [kl] and below is removed, the
    directories above are made, [kl] is written. *)
Definition linkFootprint (kl : list (list N)) : Footprint :=
  mkFootprint
    (fun k => k `prefix_of` Fs.parent kl)
    (fun k => k = kl)
    (fun k => kl `prefix_of` k).

Definition installFootprint (kc ka : list (list N)) : Footprint :=
  mkFootprint
    (fun k => k `prefix_of` kc \/ k `prefix_of` ka)
    (fun k => written (copyFootprint kc) k \/ written (copyFootprint ka) k \/ k = ka)
    (fun k => ka `prefix_of` k).

(** The body of the loop of [copyDirectory], for one entry of [src]. *)
Definition copyEntry (host : Host) (fuel : nat) (src dest : jsstring) (entry : Fs.Dirent)
  : M unit :=
  if isExcluded (Fs.name entry) then ret tt
  else
    let srcPath := Path.join [src; Fs.name entry] in
    let destPath := Path.join [dest; Fs.name entry] in
    if Fs.isDirectory entry then copyDirectoryFuel host fuel srcPath destPath
    else cp host srcPath destPath.

(** The copy of the entry [a] into [kd]: directories down to [kd], and
    [kd/a] and what is below it along names that are not excluded. *)
Definition entryFootprint (kd : list (list N)) (a : list N) : Footprint :=
  mkFootprint
    (fun k => k `prefix_of` kd)
    (fun k => exists names, k = kd ++ a :: names /\ nonExcluded (a :: names))
    (fun _ => False).

(** * Scenarios *)

Definition sampleHost : Host := mkHost (lit "/root/project") (lit "/home/u") (lit "linux").

(** A registry in which Amp reads the canonical store itself. *)
Definition sampleAgents (a : AgentType) : AgentConfig :=
  match a with
  | amp => mkAgentConfig (lit "Amp") (lit ".agents/skills") (lit "/home/u/.config/agents/skills")
  | _ => mkAgentConfig (lit "Claude Code") (lit ".claude/skills") (lit "/home/u/.claude/skills")
  end.

Definition at_ (s : string) : list (list N) := Fs.key (lit "/") (lit s).

Definition sampleOptions : Options := mkOptions (Some false) (Some (lit "/root/project")) None.

Definition skillNamed (n : list N) : Skill.t := Skill.mk n (lit "test") (lit "/root/source-skill").

Definition plainSourceFs : gmap (list (list N)) Node :=
  list_to_map
    [ (at_ "/root", Dir); (at_ "/root/project", Dir); (at_ "/root/source-skill", Dir);
      (at_ "/root/source-skill/SKILL.md", File (lit "name: demo")) ].

Definition linkedSourceFs : gmap (list (list N)) Node :=
  <[at_ "/root/source-skill/data" := Link (lit "../external-data")]>
  (<[at_ "/root/external-data/config.json" := File (lit "{}")]>
   (<[at_ "/root/external-data" := Dir]> plainSourceFs)).

Definition brokenSourceFs : gmap (list (list N)) Node :=
  <[at_ "/root/source-skill/broken" := Link (lit "../non-existent-dir")]> plainSourceFs.


Definition quiet (m : gmap (list (list N)) Node) : World := mkWorld m [] [].

(** A host on which the seventh call, [symlink], is refused. *)
Definition noSymlinkWorld : World :=
  mkWorld plainSourceFs [None; None; None; None; None; None; Some EPERM] [].

Definition longName : list N := repeat 97 254 ++ lit ".b".

Definition demoSkill : Skill.t := skillNamed (lit "demo").

Definition demoResult : InstallResult :=
  mkInstallResult true (lit "/root/project/.claude/skills/demo")
    (Some (lit "/root/project/.agents/skills/demo")) None None.

Definition demoRun : Outcome InstallResult * World :=
  installSkillForAgent sampleHost sampleAgents demoSkill claude_code sampleOptions
    (quiet plainSourceFs).

Definition selfLoopRun : Outcome InstallResult * World :=
  installSkillForAgent sampleHost sampleAgents (skillNamed (lit "self-loop-skill")) amp
    sampleOptions (quiet plainSourceFs).



Definition fallbackRun : Outcome InstallResult * World :=
  installSkillForAgent sampleHost sampleAgents demoSkill claude_code sampleOptions
    noSymlinkWorld.

Definition fallbackResult : InstallResult :=
  mkInstallResult true (lit "/root/project/.claude/skills/demo")
    (Some (lit "/root/project/.agents/skills/demo")) (Some true) None.

(** The world after a first install, with an empty log. *)
Definition installedWorld : World := mkWorld (fs (snd demoRun)) [] [].

Definition relinkRun : Outcome bool * World :=
  createSymlink sampleHost (lit "/root/project/.agents/skills/demo")
    (lit "/root/project/.claude/skills/demo") installedWorld.

Definition secondInstallRun : Outcome InstallResult * World :=
  installSkillForAgent sampleHost sampleAgents demoSkill claude_code sampleOptions
    installedWorld.

Definition linkedCopyRun : Outcome unit * World :=
  copyDirectory sampleHost (lit "/root/source-skill") (lit "/root/dest") (quiet linkedSourceFs).

Definition brokenCopyRun : Outcome unit * World :=
  copyDirectory sampleHost (lit "/root/source-skill") (lit "/root/dest") (quiet brokenSourceFs).







(** The world after an install by copy, with an empty log. *)
Definition copiedWorld : World := mkWorld (fs (snd fallbackRun)) [] [].



(** * Properties *)

(** ** Strings and paths *)

Section PathFacts.

Import Path.

Lemma isSlash_true c : isSlash c = true <-> c = CHAR_SLASH.
Proof. unfold isSlash. apply N.eqb_eq. Qed.

Lemma isSlash_false c : isSlash c = false <-> c <> CHAR_SLASH.
Proof. unfold isSlash. apply N.eqb_neq. Qed.

Lemma split_nonnil s : split s <> [].
Proof.
  destruct s as [|c s]; simpl; [discriminate|].
  destruct (isSlash c); [discriminate|].
  destruct (split s); discriminate.
Qed.

Lemma split_app_slash a b : split (a ++ CHAR_SLASH :: b) = split a ++ split b.
Proof.
  induction a as [|c a IH]; simpl; [reflexivity|].
  destruct (isSlash c).
  - now rewrite IH.
  - rewrite IH. pose proof (split_nonnil a) as Hne.
    destruct (split a); [congruence | reflexivity].
Qed.

Lemma split_noSlash s : noSlash s -> split s = [s].
Proof.
  unfold noSlash. induction s as [|c s IH]; intros H; simpl; [reflexivity|].
  rewrite not_elem_of_cons in H. destruct H as [Hc Hs].
  destruct (isSlash c) eqn:E.
  - apply isSlash_true in E. congruence.
  - now rewrite (IH Hs).
Qed.

Lemma split_segments s : Forall noSlash (split s).
Proof.
  induction s as [|c s IH]; simpl.
  - repeat constructor. unfold noSlash. apply not_elem_of_nil.
  - destruct (isSlash c) eqn:E.
    + constructor; [apply not_elem_of_nil | exact IH].
    + apply isSlash_false in E.
      destruct (split s) as [|seg rest]; [repeat constructor|].
      * unfold noSlash. rewrite not_elem_of_cons. split; [congruence | apply not_elem_of_nil].
      * inversion IH; subst. constructor; [|assumption].
        unfold noSlash in *. rewrite not_elem_of_cons. split; [congruence | assumption].
Qed.

Lemma split_joinSegs l : l <> [] -> Forall noSlash l -> split (joinSegs l) = l.
Proof.
  induction l as [|x l IH]; intros Hne Hall; [congruence|].
  inversion Hall; subst.
  destruct l as [|y l].
  - simpl. now apply split_noSlash.
  - change (joinSegs (x :: y :: l)) with (x ++ CHAR_SLASH :: joinSegs (y :: l)).
    rewrite split_app_slash, split_noSlash by assumption.
    rewrite IH by (assumption || discriminate). reflexivity.
Qed.

Lemma joinSegs_snoc l seg :
  l <> [] -> joinSegs (l ++ [seg]) = joinSegs l ++ CHAR_SLASH :: seg.
Proof.
  induction l as [|x l IH]; intros Hne; [congruence|].
  destruct l as [|y l]; [reflexivity|].
  change (joinSegs ((x :: y :: l) ++ [seg])) with (x ++ CHAR_SLASH :: joinSegs ((y :: l) ++ [seg])).
  rewrite IH by discriminate.
  change (joinSegs (x :: y :: l)) with (x ++ CHAR_SLASH :: joinSegs (y :: l)).
  now rewrite <- app_assoc.
Qed.

Lemma pushSegment_nil a res : pushSegment a res [] = res.
Proof. unfold pushSegment. now rewrite decide_True. Qed.

Lemma pushSegment_dot a res : pushSegment a res DOT = res.
Proof. reflexivity. Qed.

Lemma pushSegment_plain a res seg : plain seg -> pushSegment a res seg = seg :: res.
Proof.
  intros (H1 & H2 & H3 & _). unfold pushSegment.
  now rewrite !decide_False.
Qed.

Lemma fold_pushSegment_plain a l st :
  Forall plain l -> fold_left (pushSegment a) l st = rev l ++ st.
Proof.
  revert st. induction l as [|x l IH]; intros st H; [reflexivity|].
  inversion H; subst. simpl. rewrite pushSegment_plain by assumption.
  rewrite IH by assumption. now rewrite <- app_assoc.
Qed.

Lemma normalizeString_app a l1 l2 :
  normalizeString a (l1 ++ l2) =
  rev (fold_left (pushSegment a) l2 (fold_left (pushSegment a) l1 [])).
Proof. unfold normalizeString. now rewrite fold_left_app. Qed.

Lemma normalizeString_app_plain a l1 l2 :
  Forall plain l2 -> normalizeString a (l1 ++ l2) = normalizeString a l1 ++ l2.
Proof.
  intros H. rewrite normalizeString_app, fold_pushSegment_plain by assumption.
  unfold normalizeString. now rewrite rev_app_distr, rev_involutive.
Qed.

Lemma normalizeString_plain a l : Forall plain l -> normalizeString a l = l.
Proof. intros H. now rewrite <- (app_nil_l l) at 1; rewrite normalizeString_app_plain. Qed.

Lemma normalizeString_snoc a l seg :
  normalizeString a (l ++ [seg]) = rev (pushSegment a (rev (normalizeString a l)) seg).
Proof. rewrite normalizeString_app. unfold normalizeString. now rewrite rev_involutive. Qed.

Lemma normalizeString_snoc_nil a l : normalizeString a (l ++ [[]]) = normalizeString a l.
Proof. rewrite normalizeString_snoc, pushSegment_nil. now rewrite rev_involutive. Qed.

Lemma normalizeString_cons_nil a l : normalizeString a ([] :: l) = normalizeString a l.
Proof. unfold normalizeString. simpl. now rewrite pushSegment_nil. Qed.

(** Without [allowAboveRoot] the stack holds plain segments only. *)
Lemma fold_pushSegment_false_plain l st :
  Forall noSlash l -> Forall plain st ->
  Forall plain (fold_left (pushSegment false) l st).
Proof.
  revert st. induction l as [|x l IH]; intros st Hl Hst; [assumption|].
  inversion Hl; subst. simpl. apply IH; [assumption|].
  unfold pushSegment.
  destruct (decide (x = [])); [assumption|].
  destruct (decide (x = DOT)); [assumption|].
  destruct (decide (x = DOTDOT)).
  - destruct st as [|top rest]; [constructor|].
    destruct (decide (top = DOTDOT)); [assumption|]. now inversion Hst.
  - constructor; [|assumption]. repeat split; assumption.
Qed.

Lemma normalizeString_false_plain l :
  Forall noSlash l -> Forall plain (normalizeString false l).
Proof.
  intros H. unfold normalizeString. apply Forall_rev.
  apply fold_pushSegment_false_plain; [assumption | constructor].
Qed.

Lemma fold_pushSegment_true_pushable l st :
  Forall pushable st -> Forall pushable (fold_left (pushSegment true) l st).
Proof.
  revert st. induction l as [|x l IH]; intros st Hst; [assumption|].
  simpl. apply IH. unfold pushSegment.
  destruct (decide (x = [])); [assumption|].
  destruct (decide (x = DOT)); [assumption|].
  destruct (decide (x = DOTDOT)).
  - destruct st as [|top rest]; [repeat constructor; discriminate|].
    destruct (decide (top = DOTDOT)).
    + constructor; [split; discriminate | assumption].
    + now inversion Hst.
  - constructor; [split; assumption | assumption].
Qed.

Lemma fold_pushSegment_true_noSlash l st :
  Forall noSlash l -> Forall noSlash st -> Forall noSlash (fold_left (pushSegment true) l st).
Proof.
  revert st. induction l as [|x l IH]; intros st Hl Hst; [assumption|].
  inversion Hl; subst. simpl. apply IH; [assumption|]. unfold pushSegment.
  assert (noSlash DOTDOT) as Hdd.
  { unfold noSlash, DOTDOT. simpl. rewrite !not_elem_of_cons.
    repeat split; try discriminate. apply not_elem_of_nil. }
  destruct (decide (x = [])); [assumption|].
  destruct (decide (x = DOT)); [assumption|].
  destruct (decide (x = DOTDOT)).
  - destruct st as [|top rest]; [repeat constructor; assumption|].
    destruct (decide (top = DOTDOT)).
    + constructor; assumption.
    + now inversion Hst.
  - constructor; assumption.
Qed.

Lemma pushSegment_dotdot a res :
  pushSegment a res DOTDOT =
  match res with
  | [] => if a then [DOTDOT] else []
  | top :: rest =>
      if decide (top = DOTDOT) then (if a then DOTDOT :: res else res) else rest
  end.
Proof. reflexivity. Qed.

Lemma pushSegment_other a res seg :
  seg <> [] -> seg <> DOT -> seg <> DOTDOT -> pushSegment a res seg = seg :: res.
Proof. intros H1 H2 H3. unfold pushSegment. now rewrite !decide_False. Qed.

Lemma fold_left_snoc {A B} (f : A -> B -> A) l x st :
  fold_left f (l ++ [x]) st = f (fold_left f l st) x.
Proof. now rewrite fold_left_app. Qed.

Lemma pushSegment_false_after_true T x st :
  Forall pushable T ->
  fold_left (pushSegment false) (rev (pushSegment true T x)) st =
  pushSegment false (fold_left (pushSegment false) (rev T) st) x.
Proof.
  intros Hp.
  destruct (decide (x = [])) as [->|Hx1]; [now rewrite !pushSegment_nil|].
  destruct (decide (x = DOT)) as [->|Hx2]; [now rewrite !pushSegment_dot|].
  destruct (decide (x = DOTDOT)) as [->|Hx3].
  - rewrite (pushSegment_dotdot true).
    destruct T as [|top rest].
    + change (rev [DOTDOT]) with ([] ++ [DOTDOT]). now rewrite fold_left_snoc.
    + destruct (decide (top = DOTDOT)) as [->|Htop].
      * change (rev (DOTDOT :: DOTDOT :: rest)) with (rev (DOTDOT :: rest) ++ [DOTDOT]).
        now rewrite fold_left_snoc.
      * change (rev (top :: rest)) with (rev rest ++ [top]).
        rewrite fold_left_snoc.
        inversion Hp as [|? ? [Ht1 Ht2] _]; subst.
        rewrite (pushSegment_other false _ top) by assumption.
        rewrite pushSegment_dotdot. now rewrite decide_False by assumption.
  - rewrite (pushSegment_other true) by assumption.
    change (rev (x :: T)) with (rev T ++ [x]). now rewrite fold_left_snoc.
Qed.

(** Normalising a relative part first does not change where the whole
    path leads. *)
Lemma fold_pushSegment_false_normalized B st :
  fold_left (pushSegment false) (normalizeString true B) st =
  fold_left (pushSegment false) B st.
Proof.
  unfold normalizeString. induction B as [|x B IH] using rev_ind; [reflexivity|].
  rewrite !fold_left_snoc, <- IH.
  apply pushSegment_false_after_true.
  apply fold_pushSegment_true_pushable. constructor.
Qed.

Lemma normalizeString_false_normalized A B :
  normalizeString false (A ++ normalizeString true B) = normalizeString false (A ++ B).
Proof.
  rewrite !normalizeString_app. now rewrite fold_pushSegment_false_normalized.
Qed.

Lemma Forall_weaken {A} (P Q : A -> Prop) (l : list A) :
  Forall P l -> (forall x, P x -> Q x) -> Forall Q l.
Proof. induction 1; constructor; auto. Qed.

Lemma Forall_plain1 seg : plain seg -> Forall plain [seg].
Proof. intros H. constructor; [exact H | constructor]. Qed.

Lemma plain_noSlash seg : plain seg -> noSlash seg.
Proof. now intros (_ & _ & _ & H). Qed.

Lemma plain_nonempty seg : plain seg -> seg <> [].
Proof. now intros (H & _). Qed.

Lemma joinSegs_nil r : Forall (fun seg => seg <> []) r -> joinSegs r = [] -> r = [].
Proof.
  destruct r as [|x [|y r]]; intros H E; [reflexivity| |].
  - inversion H; subst. simpl in E. congruence.
  - change (x ++ CHAR_SLASH :: joinSegs (y :: r) = []) in E.
    destruct x; discriminate.
Qed.

Lemma isAbsolute_app a b : a <> [] -> isAbsolute (a ++ b) = isAbsolute a.
Proof. destruct a; [congruence | reflexivity]. Qed.

Lemma isAbsolute_joinSegs r :
  Forall (fun seg => seg <> []) r -> Forall noSlash r -> isAbsolute (joinSegs r) = false.
Proof.
  destruct r as [|x r]; intros Hne Hns; [reflexivity|].
  inversion Hne; subst. inversion Hns as [|? ? Hx _]; subst.
  assert (isAbsolute x = false) as Hx'.
  { destruct x as [|c x]; [congruence|]. simpl. apply isSlash_false.
    intros ->. apply Hx. constructor. }
  destruct r as [|y r]; [exact Hx'|].
  change (joinSegs (x :: y :: r)) with (x ++ CHAR_SLASH :: joinSegs (y :: r)).
  now rewrite isAbsolute_app.
Qed.

Lemma normalSegs_nonempty path : Forall (fun seg => seg <> []) (normalSegs path).
Proof.
  unfold normalSegs. destruct (isAbsolute path); simpl.
  - eapply Forall_weaken; [apply normalizeString_false_plain; apply split_segments|].
    intros seg Hp. now apply plain_nonempty.
  - unfold normalizeString. apply Forall_rev.
    eapply Forall_weaken; [apply fold_pushSegment_true_pushable; constructor|].
    now intros seg [H _].
Qed.

Lemma normalSegs_noSlash path : Forall noSlash (normalSegs path).
Proof.
  unfold normalSegs. destruct (isAbsolute path); simpl.
  - eapply Forall_weaken; [apply normalizeString_false_plain; apply split_segments|].
    intros seg Hp. now apply plain_noSlash.
  - unfold normalizeString. apply Forall_rev.
    apply fold_pushSegment_true_noSlash; [apply split_segments | constructor].
Qed.

Lemma normalize_eq path :
  path <> [] ->
  normalize path =
  match normalSegs path with
  | [] => if isAbsolute path then sep else if endsWithSlash path then lit "./" else DOT
  | r =>
      (if isAbsolute path then sep else [])
      ++ joinSegs r ++ (if endsWithSlash path then sep else [])
  end.
Proof.
  intros Hne. unfold normalize. destruct path as [|c path]; [congruence|].
  fold (normalSegs (c :: path)).
  pose proof (normalSegs_nonempty (c :: path)) as Hn.
  destruct (normalSegs (c :: path)) as [|x r] eqn:E; [reflexivity|].
  destruct (joinSegs (x :: r)) as [|d p] eqn:Ej.
  - apply joinSegs_nil in Ej; [discriminate | assumption].
  - destruct (endsWithSlash (c :: path)), (isAbsolute (c :: path));
      simpl; rewrite ?app_nil_r; reflexivity.
Qed.

Lemma split_sep_app x : split (sep ++ x) = [] :: split x.
Proof. reflexivity. Qed.

Lemma split_app_sep x : split (x ++ sep) = split x ++ [[]].
Proof. apply (split_app_slash x []). Qed.

Lemma key_absolute cwd path :
  isAbsolute path = true -> Fs.key cwd path = normalizeString false (split path).
Proof. intros H. unfold Fs.key, Fs.absolutise. now rewrite H. Qed.

Lemma key_relative cwd path :
  isAbsolute path = false ->
  Fs.key cwd path = normalizeString false (split cwd ++ split path).
Proof.
  intros H. unfold Fs.key, Fs.absolutise. rewrite H.
  change (cwd ++ sep ++ path) with (cwd ++ CHAR_SLASH :: path).
  now rewrite split_app_slash.
Qed.

Lemma key_plain cwd path : Forall plain (Fs.key cwd path).
Proof. apply normalizeString_false_plain; apply split_segments. Qed.

(** [normalize] does not change where a path leads. *)
Lemma key_normalize cwd path : path <> [] -> Fs.key cwd (normalize path) = Fs.key cwd path.
Proof.
  intros Hne. rewrite normalize_eq by assumption.
  pose proof (normalSegs_nonempty path) as Hn.
  pose proof (normalSegs_noSlash path) as Hs.
  unfold normalSegs in *.
  destruct (isAbsolute path) eqn:Ea; simpl negb in *.
  - rewrite (key_absolute cwd path Ea).
    pose proof (normalizeString_false_plain (split path) (split_segments path)) as Hp.
    destruct (normalizeString false (split path)) as [|x r] eqn:E; [reflexivity|].
    rewrite key_absolute by reflexivity.
    rewrite split_sep_app, normalizeString_cons_nil.
    destruct (endsWithSlash path).
    + rewrite split_app_sep, normalizeString_snoc_nil.
      rewrite split_joinSegs by (assumption || discriminate).
      now apply normalizeString_plain.
    + rewrite app_nil_r, split_joinSegs by (assumption || discriminate).
      now apply normalizeString_plain.
  - rewrite (key_relative cwd path Ea).
    rewrite <- (normalizeString_false_normalized (split cwd) (split path)).
    destruct (normalizeString true (split path)) as [|x r] eqn:E.
    + destruct (endsWithSlash path); rewrite key_relative by reflexivity.
      * change (split (lit "./")) with ([DOT] ++ [[]]).
        rewrite app_assoc, normalizeString_snoc_nil, normalizeString_snoc, pushSegment_dot.
        now rewrite rev_involutive, app_nil_r.
      * change (split DOT) with [DOT].
        rewrite normalizeString_snoc, pushSegment_dot.
        now rewrite rev_involutive, app_nil_r.
    + cbn [app].
      assert (isAbsolute (joinSegs (x :: r) ++ (if endsWithSlash path then sep else [])) = false)
        as Hrel.
      { rewrite isAbsolute_app; [now apply isAbsolute_joinSegs|].
        intros Ej. apply joinSegs_nil in Ej; [discriminate | assumption]. }
      rewrite key_relative by exact Hrel.
      destruct (endsWithSlash path).
      * rewrite split_app_sep, app_assoc, normalizeString_snoc_nil.
        now rewrite split_joinSegs by (assumption || discriminate).
      * now rewrite app_nil_r, split_joinSegs by (assumption || discriminate).
Qed.

Lemma plain_not_absolute seg : plain seg -> isAbsolute seg = false.
Proof.
  intros (Hne & _ & _ & Hs). destruct seg as [|c seg]; [congruence|].
  simpl. apply isSlash_false. intros ->. apply Hs. constructor.
Qed.

Lemma key_empty cwd : Fs.key cwd [] = normalizeString false (split cwd).
Proof.
  rewrite key_relative by reflexivity. change (split []) with [[] : list N].
  apply normalizeString_snoc_nil.
Qed.

(** The key of [dir/seg...] for plain segments. *)
Lemma key_slash_plain cwd dir segs :
  Forall plain segs -> segs <> [] ->
  Fs.key cwd (match dir with [] => joinSegs segs | _ => dir ++ CHAR_SLASH :: joinSegs segs end)
  = Fs.key cwd dir ++ segs.
Proof.
  intros Hp Hne.
  assert (Forall noSlash segs) as Hns
    by (eapply Forall_weaken; [exact Hp | apply plain_noSlash]).
  assert (Forall (fun seg => seg <> []) segs) as Hn
    by (eapply Forall_weaken; [exact Hp | apply plain_nonempty]).
  destruct dir as [|c dir].
  - rewrite key_empty, key_relative by now apply isAbsolute_joinSegs.
    rewrite split_joinSegs by assumption. now apply normalizeString_app_plain.
  - destruct (isAbsolute (c :: dir)) eqn:Ea.
    + rewrite (key_absolute cwd (c :: dir) Ea).
      rewrite key_absolute by exact Ea.
      rewrite (split_app_slash (c :: dir)), split_joinSegs by assumption.
      now apply normalizeString_app_plain.
    + rewrite (key_relative cwd (c :: dir) Ea).
      rewrite key_relative by exact Ea.
      rewrite (split_app_slash (c :: dir)), split_joinSegs by assumption.
      rewrite app_assoc. now apply normalizeString_app_plain.
Qed.

Lemma filter_nonempty_plain (segs : list jsstring) :
  Forall plain segs ->
  List.filter (fun arg => negb (bool_decide (arg = []))) segs = segs.
Proof.
  induction 1 as [|x l Hx _ IH]; [reflexivity|]. simpl.
  rewrite bool_decide_eq_false_2 by now apply plain_nonempty.
  simpl. now rewrite IH.
Qed.

Lemma joinSegs_cons x l :
  l <> [] -> joinSegs (x :: l) = x ++ CHAR_SLASH :: joinSegs l.
Proof. destruct l; [congruence | reflexivity]. Qed.

Lemma join_cons_nil args : join ([] :: args) = join args.
Proof. reflexivity. Qed.

Lemma filter_nonempty (args : list jsstring) :
  Forall (fun arg => arg <> []) args ->
  List.filter (fun arg => negb (bool_decide (arg = []))) args = args.
Proof.
  induction 1 as [|x l Hx _ IH]; [reflexivity|]. cbn [List.filter].
  rewrite bool_decide_eq_false_2 by assumption. cbn [negb]. now rewrite IH.
Qed.

Lemma join_nonempty args :
  Forall (fun arg => arg <> []) args -> args <> [] -> join args = normalize (joinSegs args).
Proof.
  intros H Hne. unfold join. rewrite filter_nonempty by assumption.
  destruct args; [congruence | reflexivity].
Qed.

(** [join(dir, seg, ...)] leads below [dir]. *)
Lemma key_join cwd dir segs :
  Forall plain segs -> segs <> [] ->
  Fs.key cwd (join (dir :: segs)) = Fs.key cwd dir ++ segs.
Proof.
  intros Hp Hne.
  assert (Forall (fun seg => seg <> []) segs) as Hn
    by (eapply Forall_weaken; [exact Hp | apply plain_nonempty]).
  rewrite <- (key_slash_plain cwd dir segs Hp Hne).
  destruct dir as [|c dir].
  - rewrite join_cons_nil, join_nonempty by assumption.
    apply key_normalize. intros Ej. apply joinSegs_nil in Ej; congruence.
  - rewrite join_nonempty by (try constructor; assumption || discriminate).
    rewrite joinSegs_cons by assumption.
    now apply key_normalize.
Qed.

(** [join(path, '..')] leads to the parent. *)
Lemma key_join_dotdot cwd path :
  Fs.key cwd (join [path; DOTDOT]) = Fs.parent (Fs.key cwd path).
Proof.
  assert (forall l, Forall plain l ->
            rev (pushSegment false (rev l) DOTDOT) = Fs.parent l) as Hpop.
  { intros l Hl. rewrite pushSegment_dotdot. unfold Fs.parent.
    destruct l as [|x l _] using rev_ind; [reflexivity|].
    rewrite rev_app_distr. cbn [rev app].
    apply Forall_app in Hl as [_ Hx]. inversion Hx as [|? ? (_ & _ & Hdd & _) _]; subst.
    rewrite decide_False by assumption.
    now rewrite rev_involutive, removelast_last. }
  destruct path as [|c path].
  - rewrite join_cons_nil, join_nonempty by (repeat constructor; discriminate).
    change (joinSegs [DOTDOT]) with DOTDOT.
    rewrite key_normalize by discriminate.
    rewrite key_empty, key_relative by reflexivity.
    change (split DOTDOT) with [DOTDOT].
    rewrite normalizeString_snoc. apply Hpop.
    apply normalizeString_false_plain; apply split_segments.
  - rewrite join_nonempty by (repeat constructor; discriminate).
    change (joinSegs [c :: path; DOTDOT]) with ((c :: path) ++ CHAR_SLASH :: DOTDOT).
    rewrite key_normalize by discriminate.
    destruct (isAbsolute (c :: path)) eqn:Ea.
    + rewrite (key_absolute cwd (c :: path) Ea), key_absolute by exact Ea.
      rewrite (split_app_slash (c :: path)). change (split DOTDOT) with [DOTDOT].
      rewrite normalizeString_snoc. apply Hpop.
      apply normalizeString_false_plain; apply split_segments.
    + rewrite (key_relative cwd (c :: path) Ea), key_relative by exact Ea.
      rewrite (split_app_slash (c :: path)). change (split DOTDOT) with [DOTDOT].
      rewrite app_assoc, normalizeString_snoc. apply Hpop.
      apply normalizeString_false_plain.
      apply Forall_app. split; apply split_segments.
Qed.

Lemma resolve_render cwd x :
  isAbsolute cwd = true \/ isAbsolute x = true -> resolve cwd [x] = render (Fs.key cwd x).
Proof.
  intros H. unfold resolve, resolveSegs. cbn [rev app resolveLoop].
  destruct x as [|c x].
  - destruct H as [H|H]; [|discriminate H].
    destruct cwd as [|d cwd]; [discriminate H|]. rewrite H.
    rewrite key_empty. cbn [negb]. rewrite app_nil_r.
    now rewrite split_app_sep, normalizeString_snoc_nil.
  - destruct (isAbsolute (c :: x)) eqn:Ea.
    + rewrite (key_absolute _ _ Ea). cbn [negb]. rewrite app_nil_r.
      now rewrite split_app_sep, normalizeString_snoc_nil.
    + destruct H as [H|H]; [|discriminate H].
      destruct cwd as [|d cwd]; [discriminate H|]. rewrite H.
      rewrite (key_relative _ _ Ea). cbn [negb]. rewrite app_nil_r.
      change ((d :: cwd) ++ sep ++ (c :: x) ++ sep)
        with ((d :: cwd) ++ CHAR_SLASH :: ((c :: x) ++ sep)).
      rewrite split_app_slash, split_app_sep, app_assoc.
      now rewrite normalizeString_snoc_nil.
Qed.

Lemma endsWithSlash_app a x : x <> [] -> endsWithSlash (a ++ x) = endsWithSlash x.
Proof.
  intros Hx. unfold endsWithSlash. rewrite rev_app_distr.
  destruct (rev x) as [|c r] eqn:E; [|reflexivity].
  apply (f_equal (@rev N)) in E. rewrite rev_involutive in E. now subst.
Qed.

Lemma endsWithSlash_noSlash x : noSlash x -> endsWithSlash x = false.
Proof.
  intros Hx. unfold endsWithSlash. destruct (rev x) as [|c r] eqn:E; [reflexivity|].
  apply isSlash_false. intros ->. apply Hx.
  apply list_elem_of_In, in_rev. rewrite E. now left.
Qed.

Lemma endsWithSlash_render ks : Forall plain ks -> ks <> [] -> endsWithSlash (render ks) = false.
Proof.
  intros Hp Hne. unfold render.
  destruct ks as [|x l _] using rev_ind; [congruence|].
  apply Forall_app in Hp as [_ Hx]. inversion Hx as [|? ? Hpx _]; subst.
  assert (endsWithSlash x = false) as Hxs by (apply endsWithSlash_noSlash, plain_noSlash, Hpx).
  destruct l as [|y l].
  - cbn [app joinSegs]. rewrite endsWithSlash_app; [exact Hxs | now apply plain_nonempty].
  - rewrite joinSegs_snoc by discriminate.
    change (sep ++ joinSegs (y :: l) ++ CHAR_SLASH :: x)
      with (sep ++ joinSegs (y :: l) ++ [CHAR_SLASH] ++ x).
    rewrite !app_assoc. rewrite endsWithSlash_app; [exact Hxs | now apply plain_nonempty].
Qed.

Lemma normalize_render ks : Forall plain ks -> normalize (render ks) = render ks.
Proof.
  intros Hp. rewrite normalize_eq by discriminate.
  assert (Forall noSlash ks) as Hns by (eapply Forall_weaken; [exact Hp | apply plain_noSlash]).
  unfold normalSegs. change (isAbsolute (render ks)) with true. cbn [negb].
  unfold render at 1. rewrite split_sep_app, normalizeString_cons_nil.
  destruct ks as [|x l] eqn:E.
  - reflexivity.
  - rewrite <- E in *. assert (ks <> []) as Hne by (subst; discriminate).
    rewrite split_joinSegs by assumption.
    rewrite normalizeString_plain by assumption.
    rewrite endsWithSlash_render by assumption.
    subst ks. now rewrite app_nil_r.
Qed.

Lemma isAbsolute_normalize path : path <> [] -> isAbsolute (normalize path) = isAbsolute path.
Proof.
  intros Hne. rewrite normalize_eq by assumption.
  pose proof (normalSegs_nonempty path) as Hn.
  pose proof (normalSegs_noSlash path) as Hs.
  destruct (normalSegs path) as [|x r] eqn:E.
  - destruct (isAbsolute path); [reflexivity|]. now destruct (endsWithSlash path).
  - destruct (isAbsolute path); [reflexivity|]. cbn [app].
    rewrite isAbsolute_app; [now apply isAbsolute_joinSegs|].
    intros Ej. apply joinSegs_nil in Ej; [discriminate | assumption].
Qed.

Lemma isAbsolute_join dir segs :
  dir <> [] -> Forall plain segs -> isAbsolute (join (dir :: segs)) = isAbsolute dir.
Proof.
  intros Hd Hp.
  assert (Forall (fun seg => seg <> []) segs) as Hn
    by (eapply Forall_weaken; [exact Hp | apply plain_nonempty]).
  rewrite join_nonempty by (try constructor; assumption || discriminate).
  destruct segs as [|x l].
  - cbn [joinSegs]. now apply isAbsolute_normalize.
  - rewrite joinSegs_cons by discriminate.
    rewrite isAbsolute_normalize by (destruct dir; [congruence | discriminate]).
    now apply isAbsolute_app.
Qed.

Lemma startsWith_app (p q : jsstring) : startsWith (p ++ q) p = true.
Proof.
  induction p as [|c p IH]; simpl; [reflexivity|].
  now rewrite N.eqb_refl.
Qed.

Lemma startsWith_prefix (s p : jsstring) : startsWith s p = true -> p `prefix_of` s.
Proof.
  revert s. induction p as [|c p IH]; intros s H; [apply prefix_nil|].
  destruct s as [|d s]; [discriminate H|]. simpl in H.
  apply andb_true_iff in H as [Hc Hs]. apply N.eqb_eq in Hc. subst.
  apply prefix_cons, IH, Hs.
Qed.

End PathFacts.

(** ** The name sanitizer *)

Section SanitizeFacts.

Lemma dropWhile_suffix p s : dropWhile p s `suffix_of` s.
Proof.
  induction s as [|c s IH]; simpl; [reflexivity|].
  destruct (p c); [now apply suffix_cons_r | reflexivity].
Qed.

Lemma dropWhile_head p s :
  match dropWhile p s with
  | c :: _ => p c = false
  | [] => True
  end.
Proof.
  induction s as [|c s IH]; simpl; [exact I|].
  destruct (p c) eqn:E; [exact IH | exact E].
Qed.

Lemma dropWhile_id p s :
  match s with c :: _ => p c = false | [] => True end -> dropWhile p s = s.
Proof. destruct s as [|c s]; simpl; [reflexivity|]. now intros ->. Qed.

Lemma dropWhileEnd_prefix p s : dropWhileEnd p s `prefix_of` s.
Proof.
  unfold dropWhileEnd. destruct (dropWhile_suffix p (rev s)) as [pre E].
  exists (rev pre). now rewrite <- rev_app_distr, <- E, rev_involutive.
Qed.

Lemma dropWhileEnd_last p s :
  match rev (dropWhileEnd p s) with
  | c :: _ => p c = false
  | [] => True
  end.
Proof. unfold dropWhileEnd. rewrite rev_involutive. apply dropWhile_head. Qed.

Lemma prefix_head (s t : jsstring) (P : N -> Prop) :
  s `prefix_of` t ->
  match t with c :: _ => P c | [] => True end ->
  match s with c :: _ => P c | [] => True end.
Proof.
  intros [k ->] H. destruct s; [exact I | exact H].
Qed.

Lemma sanitizeName_eq name :
  sanitizeName name =
  let sanitized := orFallback (stripped name) in
  if (255 <? length sanitized)%nat then take 255 sanitized else sanitized.
Proof. reflexivity. Qed.

Lemma isDot_isDotOrSpace c : isDotOrSpace c = false -> isDot c = false.
Proof. unfold isDotOrSpace, isDot. now intros [H _]%orb_false_iff. Qed.

Lemma stripped_eq name :
  stripped name =
  dropWhileEnd isDotOrSpace
    (dropWhile isDotOrSpace (List.filter (fun c => negb (isUnsafeChar c)) name)).
Proof.
  unfold stripped. apply dropWhile_id.
  eapply (prefix_head _ _ (fun c => isDot c = false)); [apply dropWhileEnd_prefix|].
  pose proof (dropWhile_head isDotOrSpace
                (List.filter (fun c => negb (isUnsafeChar c)) name)) as H.
  destruct (dropWhile isDotOrSpace _); [exact I | now apply isDot_isDotOrSpace].
Qed.

Lemma stripped_head name :
  match stripped name with c :: _ => isDotOrSpace c = false | [] => True end.
Proof.
  rewrite stripped_eq.
  eapply (prefix_head _ _ (fun c => isDotOrSpace c = false)); [apply dropWhileEnd_prefix|].
  apply dropWhile_head.
Qed.

Lemma stripped_last name :
  match rev (stripped name) with c :: _ => isDotOrSpace c = false | [] => True end.
Proof. rewrite stripped_eq. apply dropWhileEnd_last. Qed.

Lemma stripped_safe name c : c ∈ stripped name -> isUnsafeChar c = false.
Proof.
  rewrite stripped_eq. intros Hc.
  assert (c ∈ List.filter (fun c => negb (isUnsafeChar c)) name) as Hin.
  { destruct (dropWhileEnd_prefix isDotOrSpace
                (dropWhile isDotOrSpace (List.filter (fun c => negb (isUnsafeChar c)) name)))
      as [k1 E1].
    destruct (dropWhile_suffix isDotOrSpace
                (List.filter (fun c => negb (isUnsafeChar c)) name)) as [k2 E2].
    rewrite E2, E1. rewrite !elem_of_app. auto. }
  apply list_elem_of_In, filter_In in Hin. destruct Hin as [_ Hs].
  now apply negb_true_iff in Hs.
Qed.

(** What [sanitizeName] guarantees on every input. *)
Lemma sanitizeName_nonempty name : sanitizeName name <> [].
Proof.
  rewrite sanitizeName_eq. cbv zeta.
  destruct (stripped name) as [|c s] eqn:E.
  - vm_compute. discriminate.
  - cbn [orFallback]. destruct (255 <? length (c :: s))%nat; [|discriminate].
    simpl. discriminate.
Qed.

Lemma sanitizeName_prefix name :
  sanitizeName name `prefix_of` orFallback (stripped name).
Proof.
  rewrite sanitizeName_eq. cbv zeta.
  destruct (255 <? length _)%nat; [apply prefix_take | reflexivity].
Qed.

Lemma sanitizeName_length name : (length (sanitizeName name) <= 255)%nat.
Proof.
  rewrite sanitizeName_eq. cbv zeta.
  destruct (255 <? length _)%nat eqn:E.
  - rewrite length_take. lia.
  - apply Nat.ltb_ge in E. exact E.
Qed.

Lemma sanitizeName_safe name c : c ∈ sanitizeName name -> isUnsafeChar c = false.
Proof.
  intros Hc. destruct (sanitizeName_prefix name) as [k E].
  assert (c ∈ orFallback (stripped name)) as Hin
    by (rewrite E, elem_of_app; auto).
  destruct (stripped name) as [|d s] eqn:Es.
  - revert Hin. unfold orFallback. vm_compute lit. rewrite !elem_of_cons, elem_of_nil.
    intros H. repeat (destruct H as [->|H]; [reflexivity|]). destruct H.
  - apply (stripped_safe name). now rewrite Es.
Qed.

Lemma sanitizeName_head name :
  match sanitizeName name with c :: _ => isDotOrSpace c = false | [] => True end.
Proof.
  eapply (prefix_head _ _ (fun c => isDotOrSpace c = false)); [apply sanitizeName_prefix|].
  pose proof (stripped_head name) as H.
  destruct (stripped name); [vm_compute; reflexivity | exact H].
Qed.

(** When nothing is cut the name does not end with a dot or a space. *)
Lemma sanitizeName_last name :
  (length (stripped name) <= 255)%nat ->
  match rev (sanitizeName name) with c :: _ => isDotOrSpace c = false | [] => True end.
Proof.
  intros Hlen. rewrite sanitizeName_eq. cbv zeta.
  pose proof (stripped_last name) as H.
  destruct (stripped name) as [|d s] eqn:Es.
  - vm_compute. reflexivity.
  - cbn [orFallback]. rewrite (proj2 (Nat.ltb_ge _ _) Hlen). exact H.
Qed.

(** A sanitized name is one plain path segment. *)
Lemma sanitizeName_plain name : plain (sanitizeName name).
Proof.
  pose proof (sanitizeName_nonempty name) as Hne.
  pose proof (sanitizeName_head name) as Hh.
  pose proof (sanitizeName_safe name) as Hs.
  destruct (sanitizeName name) as [|c s]; [congruence|].
  repeat split; try discriminate.
  - intros E. injection E as -> _. discriminate Hh.
  - intros E. injection E as -> _. discriminate Hh.
  - intros Hin. specialize (Hs _ Hin). discriminate Hs.
Qed.

End SanitizeFacts.

(** ** The path-safety validator *)

Section PathSafetyFacts.

Variable host : Host.

Lemma isPathSafe_render base target :
  Path.isAbsolute (processCwd host) = true
  \/ (Path.isAbsolute base = true /\ Path.isAbsolute target = true) ->
  isPathSafe host base target =
  startsWith (render (Fs.key (processCwd host) target))
             (render (Fs.key (processCwd host) base) ++ Path.sep)
  || streq (render (Fs.key (processCwd host) target)) (render (Fs.key (processCwd host) base)).
Proof.
  intros H. unfold isPathSafe.
  rewrite !resolve_render by tauto.
  now rewrite !normalize_render by apply key_plain.
Qed.

(** A plain segment joined to a base other than the root passes. *)
Lemma isPathSafe_join_plain base seg :
  Path.isAbsolute (processCwd host) = true \/ Path.isAbsolute base = true ->
  Fs.key (processCwd host) base <> [] ->
  plain seg ->
  isPathSafe host base (Path.join [base; seg]) = true.
Proof.
  intros Habs Hroot Hp.
  rewrite isPathSafe_render.
  - rewrite key_join by (try apply Forall_plain1; assumption || discriminate).
    unfold render. rewrite joinSegs_snoc by assumption.
    apply orb_true_iff. left.
    change (Path.sep ++ Path.joinSegs (Fs.key (processCwd host) base) ++ CHAR_SLASH :: seg)
      with (Path.sep ++ Path.joinSegs (Fs.key (processCwd host) base) ++ Path.sep ++ seg).
    rewrite !app_assoc. apply startsWith_app.
  - destruct Habs as [H|H]; [now left | right]. split; [exact H|].
    rewrite isAbsolute_join; [exact H | | now apply Forall_plain1].
    intros ->. discriminate H.
Qed.

(** Sanitized names pass for every base other than the root. *)
Lemma isPathSafe_sanitizeName base name :
  Path.isAbsolute base = true ->
  Fs.key (processCwd host) base <> [] ->
  isPathSafe host base (Path.join [base; sanitizeName name]) = true.
Proof.
  intros Habs Hroot. apply isPathSafe_join_plain; [now right | exact Hroot|].
  apply sanitizeName_plain.
Qed.

End PathSafetyFacts.

(** ** The file system calls *)

Section FsFacts.

Implicit Types (m : gmap (list (list N)) Node) (k : list (list N)) (F : Footprint).

Lemma effect_refl F m : effect F m m.
Proof. intros k. now left. Qed.

Lemma effect_trans F m1 m2 m3 : effect F m1 m2 -> effect F m2 m3 -> effect F m1 m3.
Proof.
  intros H12 H23 k. specialize (H12 k). specialize (H23 k). unfold keyStep in *.
  destruct H12 as [E1|[W|[(C & E1 & D1)|(D1 & E1)]]]; [rewrite <- E1; exact H23|tauto| |].
  - destruct H23 as [E2|[W|[(C2 & E2 & D2)|(D2 & E2)]]]; [|tauto| |tauto].
    + right. right. left. rewrite E2. tauto.
    + right. right. left. tauto.
  - destruct H23 as [E2|[W|[(C2 & E2 & D2)|(D2 & E2)]]]; [|tauto| |tauto].
    + right. right. right. rewrite E2. tauto.
    + right. right. left. tauto.
Qed.

Lemma effect_sub F F' m m' : subFootprint F F' -> effect F m m' -> effect F' m m'.
Proof.
  intros Hsub H k. specialize (H k). destruct (Hsub k) as (HW & HC & HD).
  unfold keyStep in *.
  destruct H as [E|[W|[(C & E & D)|(D & E)]]]; [tauto|tauto| |].
  - destruct (HC C) as [C'|W']; [|tauto].
    destruct D as [D|D]; [tauto|]. destruct (HD D); tauto.
  - destruct (HD D); tauto.
Qed.

Lemma subFootprint_refl F : subFootprint F F.
Proof. intros k. tauto. Qed.

Lemma wfFs_insert m k n : Forall plain k -> wfFs m -> wfFs (<[k := n]> m).
Proof. intros Hk Hm. now apply map_Forall_insert_2. Qed.

Lemma wfFs_delete m k : wfFs m -> wfFs (delete k m).
Proof. apply map_Forall_delete. Qed.

Lemma wfFs_removeTree m k : wfFs m -> wfFs (Fs.removeTree k m).
Proof.
  intros Hm k' n Hl. unfold Fs.removeTree in Hl.
  apply map_lookup_filter_Some in Hl as [Hl _]. exact (Hm k' n Hl).
Qed.

Lemma removeTree_lookup m k k' :
  Fs.removeTree k m !! k' = if decide (k `prefix_of` k') then None else m !! k'.
Proof.
  unfold Fs.removeTree. destruct (decide (k `prefix_of` k')) as [Hp|Hp].
  - apply map_lookup_filter_None. right. intros x _ Hn. now apply Hn.
  - destruct (m !! k') as [n|] eqn:E.
    + now apply map_lookup_filter_Some.
    + apply map_lookup_filter_None. now left.
Qed.

Lemma nodeAt_cons seg k m : Fs.nodeAt (seg :: k) m = m !! (seg :: k).
Proof. reflexivity. Qed.

Lemma nodeAt_snoc k seg m : Fs.nodeAt (k ++ [seg]) m = m !! (k ++ [seg]).
Proof. destruct k; reflexivity. Qed.

(** [mkdir -p] *)
Lemma mkdirFrom_spec F rest : forall pre m l m' l',
  (forall k, k `prefix_of` (pre ++ rest) -> created F k) ->
  Forall plain (pre ++ rest) ->
  wfFs m ->
  Fs.nodeAt pre m = Some Dir ->
  Fs.mkdirFrom pre rest m l = inr (tt, m', l') ->
  wfFs m' /\ effect F m m' /\ Fs.nodeAt (pre ++ rest) m' = Some Dir.
Proof.
  induction rest as [|seg rest IH]; intros pre m l m' l' HF Hp Hwf Hpre H.
  - simpl in H. injection H as <- <-. rewrite app_nil_r.
    split; [assumption|]. split; [apply effect_refl | assumption].
  - cbn [Fs.mkdirFrom] in H.
    replace (pre ++ seg :: rest) with ((pre ++ [seg]) ++ rest) in *
      by now rewrite <- app_assoc.
    assert (Forall plain (pre ++ [seg])) as Hps by (apply Forall_app in Hp; tauto).
    destruct (m !! (pre ++ [seg])) as [[c| |pl]|] eqn:E; try discriminate H.
    + apply (IH _ _ _ _ _ HF Hp Hwf) in H; [exact H|].
      now rewrite nodeAt_snoc.
    + apply (IH _ _ _ _ _ HF Hp) in H.
      * destruct H as (Hwf' & He & Hn). split; [assumption|]. split; [|assumption].
        eapply effect_trans; [|exact He].
        intros k. unfold keyStep. destruct (decide (k = pre ++ [seg])) as [->|Hne].
        -- right. right. left. rewrite lookup_insert_eq, E.
           split; [|tauto]. apply HF. now apply prefix_app_r.
        -- left. now rewrite lookup_insert_ne.
      * now apply wfFs_insert.
      * now rewrite nodeAt_snoc, lookup_insert_eq.
Qed.

Lemma mkdirp_spec F k m m' l' :
  (forall k', k' `prefix_of` k -> created F k') ->
  Forall plain k -> wfFs m ->
  Fs.mkdirp k m = inr (tt, m', l') ->
  wfFs m' /\ effect F m m' /\ Fs.nodeAt k m' = Some Dir.
Proof.
  intros HF Hp Hwf H. unfold Fs.mkdirp in H.
  now apply (mkdirFrom_spec F k [] m [] m' l').
Qed.

(** [rm] *)
Lemma rmAt_spec F recursive k m m' l' :
  (forall k', k `prefix_of` k' -> deleted F k') ->
  wfFs m ->
  Fs.rmAt recursive k m = inr (tt, m', l') ->
  wfFs m' /\ effect F m m'.
Proof.
  intros HF Hwf H. unfold Fs.rmAt in H.
  destruct (Fs.nodeAt k m) as [[c| |pl]|]; try discriminate H.
  - injection H as <- <-. split; [now apply wfFs_delete|].
    intros k'. unfold keyStep. destruct (decide (k = k')) as [->|Hne].
    + right. right. right. rewrite lookup_delete_eq. split; [now apply HF|reflexivity].
    + left. now rewrite lookup_delete_ne.
  - destruct recursive; [|discriminate H]. injection H as <- <-.
    split; [now apply wfFs_removeTree|].
    intros k'. unfold keyStep. rewrite removeTree_lookup.
    destruct (decide (k `prefix_of` k')); [|now left].
    right. right. right. split; [now apply HF | reflexivity].
  - injection H as <- <-. split; [now apply wfFs_delete|].
    intros k'. unfold keyStep. destruct (decide (k = k')) as [->|Hne].
    + right. right. right. rewrite lookup_delete_eq. split; [now apply HF|reflexivity].
    + left. now rewrite lookup_delete_ne.
Qed.

Lemma effect_insert F k n m : written F k -> effect F m (<[k := n]> m).
Proof.
  intros HF k'. unfold keyStep. destruct (decide (k = k')) as [->|Hne].
  - tauto.
  - left. now rewrite lookup_insert_ne.
Qed.

Lemma effect_delete_written F k m : written F k -> effect F m (delete k m).
Proof.
  intros HF k'. unfold keyStep. destruct (decide (k = k')) as [->|Hne].
  - tauto.
  - left. now rewrite lookup_delete_ne.
Qed.

(** [symlink] *)
Lemma symlinkAt_spec F payload k m m' l' :
  written F k -> Forall plain k -> wfFs m ->
  Fs.symlinkAt payload k m = inr (tt, m', l') ->
  wfFs m' /\ effect F m m' /\ m' !! k = Some (Link payload).
Proof.
  intros HF Hp Hwf H. unfold Fs.symlinkAt in H.
  destruct payload as [|c0 payload]; [discriminate H|].
  destruct (Fs.nodeAt k m); [discriminate H|].
  destruct (Fs.nodeAt (Fs.parent k) m) as [[c| |pl]|]; try discriminate H.
  injection H as <- <-. split; [now apply wfFs_insert|].
  split; [now apply effect_insert | apply lookup_insert_eq].
Qed.

Lemma copyFileAt_spec F content ksrc k m l m' l' :
  written F k -> Forall plain k -> wfFs m ->
  Fs.copyFileAt content ksrc k m l = inr (tt, m', l') ->
  wfFs m' /\ effect F m m' /\ m' !! k = Some (File content).
Proof.
  intros HF Hp Hwf H. unfold Fs.copyFileAt in H.
  destruct (Fs.nodeAt (Fs.parent k) m) as [[c| |pl]|]; try discriminate H.
  injection H as <- <-. split; [now apply wfFs_insert|].
  split; [now apply effect_insert | apply lookup_insert_eq].
Qed.

Lemma parent_prefix k : Fs.parent k `prefix_of` k.
Proof.
  unfold Fs.parent. destruct k as [|x k _] using rev_ind; [reflexivity|].
  rewrite removelast_last. now apply prefix_app_r.
Qed.

Lemma Forall_prefix {A} (P : A -> Prop) (l1 l2 : list A) :
  l1 `prefix_of` l2 -> Forall P l2 -> Forall P l1.
Proof. intros [k' ->] H. apply Forall_app in H. tauto. Qed.

(** [cp] *)
Lemma cpAt_spec F cwd srcPath ksrc k m m' l' :
  (forall k', k' `prefix_of` Fs.parent k -> created F k') ->
  written F k -> Forall plain k -> wfFs m ->
  Fs.cpAt cwd srcPath ksrc k m = inr (tt, m', l') ->
  wfFs m' /\ effect F m m'.
Proof.
  intros HC HW Hp Hwf H. unfold Fs.cpAt in H.
  destruct (Fs.nodeAt ksrc m) as [srcNode|]; [|discriminate H].
  repeat (match type of H with (if ?c then _ else _) = _ =>
            destruct c; [discriminate H|] end).
  assert (Forall plain (Fs.parent k)) as Hpp
    by (eapply Forall_prefix; [apply parent_prefix | exact Hp]).
  assert (exists m1 l1,
    (match Fs.nodeAt (Fs.parent k) m with
     | Some _ => inr (tt, m, [])
     | None => Fs.mkdirp (Fs.parent k) m
     end) = inr (tt, m1, l1) /\ wfFs m1 /\ effect F m m1) as (m1 & l1 & E1 & Hwf1 & He1).
  { destruct (Fs.nodeAt (Fs.parent k) m).
    - exists m, []. split; [reflexivity|]. split; [assumption | apply effect_refl].
    - destruct (Fs.mkdirp (Fs.parent k) m) as [e|[[[] m1] l1]] eqn:E; [discriminate H|].
      exists m1, l1. split; [reflexivity|].
      apply (mkdirp_spec F) in E; tauto. }
  rewrite E1 in H. clear E1.
  assert (forall m2, effect F m1 m2 -> effect F m m2) as Htr
    by (intros m2; now apply effect_trans).
  assert (wfFs (delete k m1) /\ effect F m1 (delete k m1)) as [Hwfd Hed]
    by (split; [now apply wfFs_delete | now apply effect_delete_written]).
  destruct srcNode as [content| |payload]; [|discriminate H|].
  - destruct (Fs.nodeAt k m).
    + apply (copyFileAt_spec F) in H; try assumption.
      split; [tauto|]. apply Htr. eapply effect_trans; [exact Hed | tauto].
    + apply (copyFileAt_spec F) in H; try assumption. split; [tauto|]. apply Htr. tauto.
  - destruct (Fs.nodeAt k m) as [[c| |destPayload]|]; try discriminate H.
    + repeat (match type of H with (if ?c then _ else _) = _ =>
                destruct c; [discriminate H|] end).
      destruct (Fs.statFollow 40 ksrc m1) as [e|st]; [discriminate H|].
      repeat (match type of H with (if ?c then _ else _) = _ =>
                destruct c; [discriminate H|] end).
      match type of H with context [Fs.symlinkAt ?p k (delete k m1)] =>
        destruct (Fs.symlinkAt p k (delete k m1)) as [e|[[[] m2] l2]] eqn:E2 end;
        [discriminate H|].
      injection H as <- <-. apply (symlinkAt_spec F) in E2; try assumption.
      split; [tauto|]. apply Htr. eapply effect_trans; [exact Hed | tauto].
    + match type of H with context [Fs.symlinkAt ?p k m1] =>
        destruct (Fs.symlinkAt p k m1) as [e|[[[] m2] l2]] eqn:E2 end;
        [discriminate H|].
      injection H as <- <-. apply (symlinkAt_spec F) in E2; try assumption.
      split; [tauto|]. apply Htr. tauto.
Qed.

(** The names [readdir] returns are names of entries. *)
Lemma readdirAt_spec k m entries m' l' :
  wfFs m ->
  Fs.readdirAt k m = inr (entries, m', l') ->
  m' = m /\ Forall (fun entry => plain (Fs.name entry)) entries.
Proof.
  intros Hwf H. unfold Fs.readdirAt in H.
  destruct (Fs.nodeAt k m) as [[c| |pl]|]; try discriminate H.
  injection H as <- <- _. split; [reflexivity|].
  apply Forall_forall. intros entry Hin. apply list_elem_of_In in Hin.
  apply list_elem_of_omap in Hin as [[k' n] [Hin Hd]].
  apply elem_of_map_to_list in Hin.
  unfold Fs.direntOf, Fs.childName in Hd. cbn [fst snd] in Hd.
  destruct (rev k') as [|x rp] eqn:Er; [discriminate Hd|].
  destruct (decide (rev rp = k)); [|discriminate Hd].
  injection Hd as <-. cbn [Fs.name].
  specialize (Hwf k' n Hin). cbn beta in Hwf.
  apply Forall_rev in Hwf. rewrite Er in Hwf. now inversion Hwf.
Qed.

End FsFacts.

(** ** Computations *)

Section Hoare.

Variable host : Host.
Variable F : Footprint.

Lemma holds_ret {A : Type} (a : A) (P : gmap (list (list N)) Node -> Prop) Q :
  (forall m, P m -> Q a m) -> holds F P (ret a) Q.
Proof.
  intros H w Hwf HP. unfold ret. split; [assumption|].
  split; [apply effect_refl | now apply H].
Qed.

Lemma holds_bind {A B : Type} (m : M A) (f : A -> M B) P Q1 Q2 :
  holds F P m Q1 -> (forall a, holds F (Q1 a) (f a) Q2) -> holds F P (bind m f) Q2.
Proof.
  intros Hm Hf w Hwf HP. unfold bind. specialize (Hm w Hwf HP).
  destruct (m w) as [[a|e|] w1]; [|exact Hm|exact Hm].
  destruct Hm as (Hwf1 & He1 & HQ1). specialize (Hf a w1 Hwf1 HQ1).
  destruct (f a w1) as [[b|e|] w2]; [| |exact Hf].
  - destruct Hf as (Hwf2 & He2 & HQ2). split; [assumption|].
    split; [eapply effect_trans; eassumption | assumption].
  - destruct Hf as (Hwf2 & He2). split; [assumption|].
    eapply effect_trans; eassumption.
Qed.

Lemma holds_tryCatch {A : Type} (m : M A) (h : Exn -> M A) P Q :
  holds F P m Q -> (forall e, holds F anyFs (h e) Q) -> holds F P (tryCatch m h) Q.
Proof.
  intros Hm Hh w Hwf HP. unfold tryCatch. specialize (Hm w Hwf HP).
  destruct (m w) as [[a|e|] w1]; [exact Hm| |exact Hm].
  destruct Hm as (Hwf1 & He1). specialize (Hh e w1 Hwf1 I).
  destruct (h e w1) as [[b|e'|] w2]; [| |exact Hh].
  - destruct Hh as (Hwf2 & He2 & HQ2). split; [assumption|].
    split; [eapply effect_trans; eassumption | assumption].
  - destruct Hh as (Hwf2 & He2). split; [assumption|].
    eapply effect_trans; eassumption.
Qed.

Lemma holds_weaken {A : Type} (m : M A) (P P' : gmap (list (list N)) Node -> Prop)
  (Q Q' : A -> gmap (list (list N)) Node -> Prop) :
  holds F P m Q -> (forall fs0, P' fs0 -> P fs0) -> (forall a fs0, Q a fs0 -> Q' a fs0) ->
  holds F P' m Q'.
Proof.
  intros Hm HP HQ w Hwf HP'. specialize (Hm w Hwf (HP _ HP')).
  destruct (m w) as [[a|e|] w1]; [|exact Hm|exact Hm].
  destruct Hm as (? & ? & ?). auto.
Qed.

Lemma holds_assume {A : Type} (m : M A) (fact : Prop) Q :
  (fact -> holds F anyFs m Q) -> holds F (fun _ => fact) m Q.
Proof. intros H w Hwf Hf. now apply H. Qed.

Lemma holds_forOf {A : Type} (xs : list A) (body : A -> M unit) :
  Forall (fun x => holds F anyFs (body x) (fun _ _ => True)) xs ->
  holds F anyFs (forOf xs body) (fun _ _ => True).
Proof.
  intros H. induction xs as [|x xs IH]; cbn [forOf].
  - now apply holds_ret.
  - inversion H as [|? ? Hx Hxs]; subst. specialize (IH Hxs).
    eapply holds_bind; [exact Hx|]. intros u.
    eapply holds_weaken; [exact IH | auto | auto].
Qed.

Lemma holds_syscall {A : Type} (path : list N) (call : list (list N) -> gmap (list (list N)) Node -> Fs.Result A)
  (Q : A -> gmap (list (list N)) Node -> Prop) :
  (forall m a m' l,
      wfFs m -> path <> [] ->
      (Fs.pathLen (Fs.key (processCwd host) path) < PATH_MAX)%nat ->
      call (Fs.key (processCwd host) path) m = inr (a, m', l) ->
      wfFs m' /\ effect F m m' /\ Q a m') ->
  holds F anyFs (syscall host path call) Q.
Proof.
  intros H w Hwf _. unfold syscall.
  assert (wfFs (fs w) /\ effect F (fs w) (fs w)) as Hsame
    by (split; [assumption | apply effect_refl]).
  destruct (faults w) as [|[e|] rest]; cbn [tail].
  - destruct path as [|c path]; [exact Hsame|].
    destruct (PATH_MAX <=? _)%nat eqn:El; [exact Hsame|].
    apply Nat.leb_gt in El.
    destruct (call _ (fs w)) as [e|[[a m'] l]] eqn:Ec; [exact Hsame|].
    cbn [fs]. now apply (H _ _ _ _ Hwf) in Ec.
  - exact Hsame.
  - destruct path as [|c path]; [exact Hsame|].
    destruct (PATH_MAX <=? _)%nat eqn:El; [exact Hsame|].
    apply Nat.leb_gt in El.
    destruct (call _ (fs w)) as [e|[[a m'] l]] eqn:Ec; [exact Hsame|].
    cbn [fs]. now apply (H _ _ _ _ Hwf) in Ec.
Qed.

Lemma holds_mkdir (path : list N) :
  (forall k, k `prefix_of` Fs.key (processCwd host) path -> created F k) ->
  holds F anyFs (mkdir host path)
    (fun _ m' => (Fs.pathLen (Fs.key (processCwd host) path) < PATH_MAX)%nat
                 /\ Fs.nodeAt (Fs.key (processCwd host) path) m' = Some Dir).
Proof.
  intros HF. apply holds_syscall. intros m [] m' l Hwf Hne Hlen Hc.
  apply (mkdirp_spec F) in Hc; [tauto | assumption | apply key_plain | assumption].
Qed.

Lemma holds_lstat (path : list N) : holds F anyFs (lstat host path) (fun _ _ => True).
Proof.
  apply holds_syscall. intros m st m' l Hwf _ _ Hc. unfold Fs.lstatAt in Hc.
  destruct (Fs.nodeAt _ m); [|discriminate Hc]. injection Hc as _ <- _.
  split; [assumption|]. split; [apply effect_refl | exact I].
Qed.

Lemma holds_readlink (path : list N) : holds F anyFs (readlink host path) (fun _ _ => True).
Proof.
  apply holds_syscall. intros m st m' l Hwf _ _ Hc. unfold Fs.readlinkAt in Hc.
  destruct (Fs.nodeAt _ m) as [[c| |pl]|]; try discriminate Hc. injection Hc as _ <- _.
  split; [assumption|]. split; [apply effect_refl | exact I].
Qed.

Lemma holds_readdir (path : list N) :
  holds F anyFs (readdir host path)
    (fun entries _ => Forall (fun entry => plain (Fs.name entry)) entries).
Proof.
  apply holds_syscall. intros m entries m' l Hwf _ _ Hc.
  apply readdirAt_spec in Hc as [-> Hn]; [|assumption].
  split; [assumption|]. split; [apply effect_refl | assumption].
Qed.

Lemma holds_rm (path : list N) (recursive : bool) :
  (forall k, Fs.key (processCwd host) path `prefix_of` k -> deleted F k) ->
  holds F anyFs (rm host path recursive) (fun _ _ => True).
Proof.
  intros HF. apply holds_syscall. intros m [] m' l Hwf _ _ Hc.
  apply (rmAt_spec F) in Hc; tauto.
Qed.

Lemma holds_symlink (target path : list N) (type : option (list N)) :
  written F (Fs.key (processCwd host) path) ->
  holds F anyFs (symlink host target path type) (fun _ _ => True).
Proof.
  intros HF. apply holds_syscall. intros m [] m' l Hwf _ _ Hc.
  apply (symlinkAt_spec F) in Hc; [tauto | assumption | apply key_plain | assumption].
Qed.

Lemma holds_cp (src dest : list N) :
  (forall k, k `prefix_of` Fs.parent (Fs.key (processCwd host) dest) -> created F k) ->
  written F (Fs.key (processCwd host) dest) ->
  holds F anyFs (cp host src dest) (fun _ _ => True).
Proof.
  intros HC HW. apply holds_syscall. intros m [] m' l Hwf _ _ Hc.
  destruct src as [|c src]; [discriminate Hc|].
  apply (cpAt_spec F) in Hc; [tauto | assumption | assumption | apply key_plain | assumption].
Qed.

End Hoare.

Lemma holds_sub (F F' : Footprint) {A : Type} P (m : M A) Q : subFootprint F F' -> holds F P m Q -> holds F' P m Q.
Proof.
  intros Hsub Hm w Hwf HP. specialize (Hm w Hwf HP).
  destruct (m w) as [[a|e|] w1]; [| |exact Hm].
  - destruct Hm as (? & ? & ?). split; [assumption|].
    split; [eapply effect_sub; eassumption | assumption].
  - destruct Hm as (? & ?). split; [assumption|]. eapply effect_sub; eassumption.
Qed.

(** ** The tree copier, the symlink manager and the installer *)

Section InstallerFacts.

Variable host : Host.
Variable agents : AgentType -> AgentConfig.

Abbreviation keyOf := (Fs.key (processCwd host)).

Lemma pathLen_snoc (k : list (list N)) (n : list N) :
  Fs.pathLen (k ++ [n]) = (Fs.pathLen k + S (length n))%nat.
Proof.
  induction k as [|x k IH]; [unfold Fs.pathLen; simpl; lia|].
  change (Fs.pathLen ((x :: k) ++ [n])) with (S (length x) + Fs.pathLen (k ++ [n]))%nat.
  change (Fs.pathLen (x :: k)) with (S (length x) + Fs.pathLen k)%nat.
  rewrite IH. lia.
Qed.

Lemma copyFootprint_child (kd : list (list N)) (n : list N) :
  isExcluded n = false -> subFootprint (copyFootprint (kd ++ [n])) (copyFootprint kd).
Proof.
  intros Hn k. cbn [copyFootprint written created deleted]. split; [|split].
  - intros (names & Hne & -> & Hall). exists (n :: names).
    split; [discriminate|]. split; [now rewrite <- app_assoc|]. now constructor.
  - intros Hp. destruct (decide (k = kd ++ [n])) as [->|Hneq].
    + right. exists [n]. split; [discriminate|]. split; [reflexivity|].
      constructor; [assumption | constructor].
    + left. destruct Hp as [k' E]. destruct k' as [|x k' _] using rev_ind.
      * rewrite app_nil_r in E. congruence.
      * rewrite app_assoc in E. apply app_inj_tail in E as [-> _].
        now apply prefix_app_r.
  - tauto.
Qed.

Lemma parent_snoc (k : list (list N)) (n : list N) : Fs.parent (k ++ [n]) = k.
Proof. apply removelast_last. Qed.

(** The copy ends, and writes along names that are not excluded only. *)
Lemma holds_copyDirectoryFuel (fuel : nat) : forall (src dest : list N),
  (1 <= fuel)%nat ->
  (PATH_MAX + 1 <= fuel + Fs.pathLen (keyOf dest))%nat ->
  holds (copyFootprint (keyOf dest)) anyFs (copyDirectoryFuel host fuel src dest)
    (fun _ _ => True).
Proof.
  induction fuel as [|fuel IH]; intros src dest Hf Hlen; [lia|].
  cbn [copyDirectoryFuel].
  eapply holds_bind; [apply holds_mkdir; intros k Hk; exact Hk|].
  intros []. apply holds_weaken with
    (P := fun _ => (Fs.pathLen (keyOf dest) < PATH_MAX)%nat) (Q := fun _ _ => True);
    [|tauto|auto].
  apply holds_assume. intros Hmk.
  eapply holds_bind; [apply holds_readdir|].
  intros entries. cbn beta.
  apply holds_weaken with
    (P := fun _ => Forall (fun entry => plain (Fs.name entry)) entries)
    (Q := fun _ _ => True); [|auto|auto].
  apply holds_assume. intros Hnames.
  apply holds_forOf. eapply Forall_weaken; [exact Hnames|].
  intros entry Hplain. cbn beta.
  destruct (isExcluded (Fs.name entry)) eqn:Hex; [now apply holds_ret|].
  assert (keyOf (Path.join [dest; Fs.name entry]) = keyOf dest ++ [Fs.name entry]) as Hkey
    by (apply key_join; [now apply Forall_plain1 | discriminate]).
  destruct (Fs.isDirectory entry).
  - eapply holds_sub; [|apply IH].
    + rewrite Hkey. now apply copyFootprint_child.
    + lia.
    + rewrite Hkey, pathLen_snoc. lia.
  - apply holds_cp.
    + rewrite Hkey, parent_snoc. intros k Hk. exact Hk.
    + rewrite Hkey. exists [Fs.name entry].
      split; [discriminate|]. split; [reflexivity|].
      constructor; [assumption | constructor].
Qed.

Lemma holds_copyDirectory (src dest : list N) :
  holds (copyFootprint (keyOf dest)) anyFs (copyDirectory host src dest) (fun _ _ => True).
Proof. apply holds_copyDirectoryFuel; unfold PATH_MAX; lia. Qed.

Lemma holds_inspectLink (target linkPath : list N) :
  holds (linkFootprint (keyOf linkPath)) anyFs (inspectLink host target linkPath)
    (fun _ _ => True).
Proof.
  unfold inspectLink.
  assert (holds (linkFootprint (keyOf linkPath)) anyFs
            (rm host linkPath false ;;; ret None) (fun (_ : option bool) _ => True)) as Hrm1.
  { eapply holds_bind; [apply holds_rm; intros k Hk; exact Hk|].
    intros u. now apply holds_ret. }
  assert (holds (linkFootprint (keyOf linkPath)) anyFs
            (rm host linkPath true ;;; ret None) (fun (_ : option bool) _ => True)) as Hrm2.
  { eapply holds_bind; [apply holds_rm; intros k Hk; exact Hk|].
    intros u. now apply holds_ret. }
  eapply holds_bind; [apply holds_lstat|]. intros stats. cbn beta.
  destruct (Fs.isSymbolicLink stats); [|exact Hrm2].
  eapply holds_bind; [apply holds_readlink|]. intros existingTarget. cbn beta.
  destruct (streq _ _); [now apply holds_ret | exact Hrm1].
Qed.

Lemma holds_createSymlink (target linkPath : list N) :
  holds (linkFootprint (keyOf linkPath)) anyFs (createSymlink host target linkPath)
    (fun _ _ => True).
Proof.
  unfold createSymlink. apply holds_tryCatch; [|intros e; now apply holds_ret].
  eapply holds_bind.
  - apply holds_tryCatch; [apply holds_inspectLink | intros e; now apply holds_ret].
  - intros [b|]; cbn beta; [now apply holds_ret|].
    eapply holds_bind.
    + apply holds_mkdir. rewrite key_join_dotdot. intros k Hk. exact Hk.
    + intros u. eapply holds_weaken with (P := anyFs) (Q := fun _ _ => True); [|auto|auto].
      eapply holds_bind; [apply holds_symlink; reflexivity|].
      intros u'. now apply holds_ret.
Qed.

Lemma copyFootprint_install_canonical (kc ka : list (list N)) :
  subFootprint (copyFootprint kc) (installFootprint kc ka).
Proof. intros k. cbn [copyFootprint installFootprint written created deleted]. tauto. Qed.

Lemma copyFootprint_install_agent (kc ka : list (list N)) :
  subFootprint (copyFootprint ka) (installFootprint kc ka).
Proof. intros k. cbn [copyFootprint installFootprint written created deleted]. tauto. Qed.

Lemma linkFootprint_install (kc ka : list (list N)) :
  subFootprint (linkFootprint ka) (installFootprint kc ka).
Proof.
  intros k. cbn [linkFootprint installFootprint written created deleted].
  split; [tauto|]. split; [|tauto].
  intros Hp. left. right. etransitivity; [exact Hp | apply parent_prefix].
Qed.

(** [mkdir(dir)] then [copyDirectory(src, dir)], as the installer does
    for the canonical and for the agent directory. *)
Lemma holds_materialize (F : Footprint) (src dir : list N) :
  subFootprint (copyFootprint (keyOf dir)) F ->
  holds F anyFs (mkdir host dir ;;; copyDirectory host src dir) (fun _ _ => True).
Proof.
  intros Hsub. eapply holds_bind.
  - eapply holds_sub; [exact Hsub|]. apply holds_mkdir. intros k Hk. exact Hk.
  - intros u. eapply holds_weaken with (P := anyFs) (Q := fun _ _ => True); [|auto|auto].
    eapply holds_sub; [exact Hsub | apply holds_copyDirectory].
Qed.

Lemma holds_installSteps (skill : Skill.t) (noSymlink : option bool)
  (canonicalDir agentDir : list N) :
  holds (installFootprint (keyOf canonicalDir) (keyOf agentDir)) anyFs
    (installSteps host skill noSymlink canonicalDir agentDir) (fun _ _ => True).
Proof.
  unfold installSteps.
  set (F := installFootprint (keyOf canonicalDir) (keyOf agentDir)).
  assert (forall r : InstallResult,
    holds F anyFs (mkdir host agentDir ;;; copyDirectory host (Skill.path skill) agentDir ;;; ret r)
      (fun _ _ => True)) as Hagent.
  { intros r.
    eapply holds_bind.
    - eapply holds_sub; [apply copyFootprint_install_agent|].
      apply holds_mkdir. intros k Hk. exact Hk.
    - intros u. eapply holds_weaken with (P := anyFs) (Q := fun _ _ => True); [|auto|auto].
      eapply holds_bind.
      + eapply holds_sub; [apply copyFootprint_install_agent | apply holds_copyDirectory].
      + intros u'. now apply holds_ret. }
  eapply holds_bind.
  - eapply holds_sub; [apply copyFootprint_install_canonical|].
    apply holds_mkdir. intros k Hk. exact Hk.
  - intros u. eapply holds_weaken with (P := anyFs) (Q := fun _ _ => True); [|auto|auto].
    eapply holds_bind.
    + eapply holds_sub; [apply copyFootprint_install_canonical | apply holds_copyDirectory].
    + intros u'. cbn beta. destruct (truthy noSymlink); [apply Hagent|].
      eapply holds_bind.
      * eapply holds_sub; [apply linkFootprint_install | apply holds_createSymlink].
      * intros symlinkCreated. cbn beta.
        destruct (negb symlinkCreated); [apply Hagent | now apply holds_ret].
Qed.

Lemma holds_installSkillForAgent (skill : Skill.t) (agentType : AgentType) (options : Options) :
  let cwd := orString (opt_cwd options) (processCwd host) in
  let isGlobal := default false (opt_global options) in
  let skillName := sanitizeName (rawSkillName skill) in
  let canonicalDir := Path.join [getCanonicalSkillsDir host isGlobal (Some cwd); skillName] in
  let agentDir := Path.join [agentBaseOf agents agentType isGlobal cwd; skillName] in
  holds (installFootprint (keyOf canonicalDir) (keyOf agentDir)) anyFs
    (installSkillForAgent host agents skill agentType options) (fun _ _ => True).
Proof.
  intros cwd isGlobal skillName canonicalDir agentDir. unfold installSkillForAgent.
  fold cwd isGlobal skillName. fold canonicalDir agentDir.
  destruct (negb (isPathSafe host _ canonicalDir)); [now apply holds_ret|].
  destruct (negb (isPathSafe host _ agentDir)); [now apply holds_ret|].
  apply holds_tryCatch; [apply holds_installSteps | intros e; now apply holds_ret].
Qed.

End InstallerFacts.

Example join_ex1 :
  Path.join [lit "/root/project"; lit ".agents"; lit "skills"] = lit "/root/project/.agents/skills".
Proof. vm_compute. reflexivity. Qed.
Example join_ex2 : Path.join [lit "/a/b/c"; lit ".."] = lit "/a/b".
Proof. vm_compute. reflexivity. Qed.
Example join_ex3 : Path.join [lit "a/../../b/"; lit "c"] = lit "../b/c".
Proof. vm_compute. reflexivity. Qed.
Example resolve_ex1 : Path.resolve (lit "/p") [lit "../../.agents/skills/foo"] = lit "/.agents/skills/foo".
Proof. vm_compute. reflexivity. Qed.
Example relative_ex1 : Path.relative (lit "/p") (lit "/p/.claude/skills") (lit "/p/.agents/skills/foo") = lit "../../.agents/skills/foo".
Proof. vm_compute. reflexivity. Qed.
Example relative_ex2 : Path.relative (lit "/p") (lit "/p/.agents/skills") (lit "/p/.agents/skills/foo") = lit "foo".
Proof. vm_compute. reflexivity. Qed.
Example dirname_ex : Path.dirname (lit "/a/b/c") = lit "/a/b" /\ Path.dirname (lit "/a") = lit "/" /\ Path.dirname (lit "a/b/") = lit "a" /\ Path.basename (lit "/a/b/") = lit "b".
Proof. vm_compute. auto. Qed.

(** * The claims *)

Section Claims.

Variable host : Host.
Variable agents : AgentType -> AgentConfig.

Abbreviation keyOf := (Fs.key (processCwd host)).

Lemma bind_Ok_inv {A B : Type} (m : M A) (f : A -> M B) (w w' : World) (b : B) :
  bind m f w = (Ok b, w') -> exists a w0, m w = (Ok a, w0) /\ f a w0 = (Ok b, w').
Proof.
  unfold bind. destruct (m w) as [[a|e|] w0]; intros H; [|discriminate H|discriminate H].
  now exists a, w0.
Qed.

Lemma tryCatch_ret_no_throw {A : Type} (m : M A) (h : Exn -> A) (w : World) (e : Exn) :
  fst (tryCatch m (fun e => ret (h e)) w) <> Throw e.
Proof.
  unfold tryCatch. destruct (m w) as [[a|e'|] w0]; cbn; discriminate.
Qed.

Lemma holds_run (F : Footprint) {A : Type} (m : M A) (w w' : World) (o : Outcome A) :
  holds F anyFs m (fun _ _ => True) -> wfFs (fs w) -> m w = (o, w') ->
  wfFs (fs w') /\ effect F (fs w) (fs w') /\ o <> OutOfFuel.
Proof.
  intros Hm Hwf E. specialize (Hm w Hwf I). rewrite E in Hm.
  destruct o; [|split; [tauto|]; split; [tauto|discriminate]|destruct Hm].
  split; [tauto|]. split; [tauto|discriminate].
Qed.

Lemma canonicalBase_key (isGlobal : bool) (cwd : list N) :
  keyOf (getCanonicalSkillsDir host isGlobal (Some cwd)) =
  keyOf (if isGlobal then homedir host else orString (Some cwd) (processCwd host))
  ++ [AGENTS_DIR; SKILLS_SUBDIR].
Proof.
  unfold getCanonicalSkillsDir. apply key_join; [|discriminate].
  constructor; [compute_done|]. constructor; [compute_done | constructor].
Qed.

Lemma ret_Ok_inv {A : Type} (a b : A) (w w' : World) : ret a w = (Ok b, w') -> a = b /\ w = w'.
Proof. unfold ret. intros H. now injection H. Qed.

Lemma installSteps_result (skill : Skill.t) (noSymlink : option bool)
  (canonicalDir agentDir : list N) (w w' : World) (r : InstallResult) :
  installSteps host skill noSymlink canonicalDir agentDir w = (Ok r, w') ->
  success r = true /\ path r = agentDir /\ canonicalPath r = Some canonicalDir.
Proof.
  unfold installSteps. intros H.
  apply bind_Ok_inv in H as (u1 & w1 & _ & H).
  apply bind_Ok_inv in H as (u2 & w2 & _ & H).
  assert (forall (w0 : World) (r0 : InstallResult),
    (mkdir host agentDir ;;; copyDirectory host (Skill.path skill) agentDir ;;; ret r0) w0
      = (Ok r, w') -> r0 = r) as Hagent.
  { intros w0 r0 H0.
    apply bind_Ok_inv in H0 as (u3 & w3 & _ & H0).
    apply bind_Ok_inv in H0 as (u4 & w4 & _ & H0).
    now apply ret_Ok_inv in H0. }
  destruct (truthy noSymlink).
  - apply Hagent in H. now subst r.
  - apply bind_Ok_inv in H as (b & w3 & _ & H). destruct (negb b).
    + apply Hagent in H. now subst r.
    + apply ret_Ok_inv in H as [<- _]. auto.
Qed.

Lemma default_truthy (b : option bool) : default false b = truthy b.
Proof. now destruct b as [[]|]. Qed.

Lemma rawSkillName_named (skill : Skill.t) :
  Skill.name skill <> [] -> rawSkillName skill = Skill.name skill.
Proof. unfold rawSkillName. destruct (Skill.name skill); [congruence | reflexivity]. Qed.


Lemma installSkillForAgent_eq (skill : Skill.t) (agentType : AgentType) (options : Options) :
  installSkillForAgent host agents skill agentType options =
  if negb (isPathSafe host (canonicalBaseFor host options) (canonicalDirFor host skill options))
  then ret (mkInstallResult false (agentDirFor host agents skill agentType options)
              None None (Some TRAVERSAL_MESSAGE))
  else if negb (isPathSafe host (agentBaseFor host agents agentType options)
                  (agentDirFor host agents skill agentType options))
  then ret (mkInstallResult false (agentDirFor host agents skill agentType options)
              None None (Some TRAVERSAL_MESSAGE))
  else
    tryCatch
      (installSteps host skill (opt_noSymlink options) (canonicalDirFor host skill options)
         (agentDirFor host agents skill agentType options))
      (fun error =>
         ret (mkInstallResult false (agentDirFor host agents skill agentType options)
                None None (Some (message error)))).
Proof. reflexivity. Qed.

Lemma holds_install (skill : Skill.t) (agentType : AgentType) (options : Options) :
  holds (installFootprint (keyOf (canonicalDirFor host skill options))
           (keyOf (agentDirFor host agents skill agentType options)))
    anyFs (installSkillForAgent host agents skill agentType options) (fun _ _ => True).
Proof. apply holds_installSkillForAgent. Qed.



Lemma copy_keeps_dest (kd : list (list N)) (m m' : gmap (list (list N)) Node) :
  effect (copyFootprint kd) m m' -> Fs.nodeAt kd m = Some Dir -> Fs.nodeAt kd m' = Some Dir.
Proof.
  intros He Hd. destruct kd as [|x kd]; [reflexivity|].
  rewrite nodeAt_cons in *. specialize (He (x :: kd)).
  destruct He as [E|[W|[(_ & E & _)|(D & _)]]].
  - now rewrite E.
  - destruct W as (names & Hne & E & _). exfalso.
    rewrite <- (app_nil_r (x :: kd)) in E at 1. apply app_inv_head in E. congruence.
  - exact E.
  - destruct D.
Qed.




(** C10: for a skill with a non-empty name, the [path] of the result of
    [installSkillForAgent] is the string [getInstallPath] returns for the
    same name, agent and options; where [getInstallPath] throws instead,
    the install reports the traversal failure. *)
Theorem install_path_agrees_with_getInstallPath (skill : Skill.t) (agentType : AgentType)
  (options : Options) (w w' : World) (r : InstallResult) :
  Skill.name skill <> [] ->
  installSkillForAgent host agents skill agentType options w = (Ok r, w') ->
  match getInstallPath host agents (Skill.name skill) agentType options with
  | inr p => path r = p
  | inl _ => success r = false /\ error r = Some TRAVERSAL_MESSAGE
  end.
Proof.
  intros Hname H. unfold installSkillForAgent in H. unfold getInstallPath.
  rewrite rawSkillName_named, default_truthy in H by assumption.
  destruct (negb (isPathSafe host (getCanonicalSkillsDir host _ _) _)).
  - apply ret_Ok_inv in H as [<- _]. cbn [path success error].
    now destruct (negb (isPathSafe host (agentBaseOf agents _ _ _) _)).
  - destruct (negb (isPathSafe host (agentBaseOf agents _ _ _) _)).
    + now apply ret_Ok_inv in H as [<- _].
    + unfold tryCatch in H.
      destruct (installSteps host skill _ _ _ w) as [[r0|e|] w0] eqn:E.
      * injection H as <- _. now apply installSteps_result in E.
      * now apply ret_Ok_inv in H as [<- _].
      * discriminate H.
Qed.

End Claims.

Lemma run_split {A : Type} (run : Outcome A * World) (o : Outcome A) :
  fst run = o -> run = (o, snd run).
Proof. intros <-. apply surjective_pairing. Qed.

Lemma demoRun_eq : demoRun = (Ok demoResult, snd demoRun).
Proof. apply run_split. vm_compute. reflexivity. Qed.

Lemma install_path_agrees_with_getInstallPath_witness :
  Skill.name demoSkill <> []
  /\ match getInstallPath sampleHost sampleAgents (Skill.name demoSkill)
            claude_code sampleOptions with
     | inr p => path demoResult = p
     | inl _ => success demoResult = false /\ error demoResult = Some TRAVERSAL_MESSAGE
     end.
Proof.
  split; [discriminate|].
  apply (install_path_agrees_with_getInstallPath sampleHost sampleAgents
           demoSkill claude_code sampleOptions (quiet plainSourceFs)
           (snd demoRun) demoResult); [discriminate | exact demoRun_eq].
Defined.

(** The path [getInstallPath] returns in the scenario. *)
Example getInstallPath_demo :
  getInstallPath sampleHost sampleAgents (lit "demo") claude_code sampleOptions
  = inr (lit "/root/project/.claude/skills/demo").
Proof. vm_compute. reflexivity. Qed.

(** Fallback completeness on a host that refuses [symlink]: the install
    succeeds with [symlinkFailed] and the agent directory holds a copy. *)
Example fallback_copy_populates_agent_dir :
  fst fallbackRun
  = Ok (mkInstallResult true (lit "/root/project/.claude/skills/demo")
          (Some (lit "/root/project/.agents/skills/demo")) (Some true) None)
  /\ fs (snd fallbackRun) !! at_ "/root/project/.claude/skills/demo" = Some Dir
  /\ fs (snd fallbackRun) !! at_ "/root/project/.claude/skills/demo/SKILL.md"
     = Some (File (lit "name: demo")).
Proof. repeat split; vm_compute; reflexivity. Qed.

(** An I/O failure of the canonical copy comes back as a failed result
    that carries the message of the error. *)
Example io_failure_is_returned :
  fst (installSkillForAgent sampleHost sampleAgents demoSkill claude_code sampleOptions
         (mkWorld plainSourceFs [None; None; None; Some ENOSPC] []))
  = Ok (mkInstallResult false (lit "/root/project/.claude/skills/demo") None None
          (Some (message (IOError ENOSPC)))).
Proof. vm_compute. reflexivity. Qed.

(** What [sanitizeName] makes of names that try to leave the base. *)
Example sanitizeName_traversal_names :
  sanitizeName (lit "../../etc") = lit "etc"
  /\ sanitizeName (lit "/etc/passwd") = lit "etcpasswd"
  /\ sanitizeName (lit "a" ++ [CHAR_NUL] ++ lit "b") = lit "ab"
  /\ sanitizeName (lit " .. ") = lit "unnamed-skill".
Proof. repeat split; vm_compute; reflexivity. Qed.

(** C1: when the agent directory is the canonical directory, as for Amp
    in project scope, a symlink-mode install replaces the directory it has
    just filled by a symbolic link to itself, and reports success. *)
Theorem self_loop_install_leaves_a_symlink :
  canonicalDirFor sampleHost (skillNamed (lit "self-loop-skill")) sampleOptions
  = agentDirFor sampleHost sampleAgents (skillNamed (lit "self-loop-skill")) amp sampleOptions
  /\ fst selfLoopRun
     = Ok (mkInstallResult true (lit "/root/project/.agents/skills/self-loop-skill")
             (Some (lit "/root/project/.agents/skills/self-loop-skill")) None None)
  /\ fs (snd selfLoopRun) !! at_ "/root/project/.agents/skills/self-loop-skill"
     = Some (Link (lit "self-loop-skill"))
  /\ Fs.key (processCwd sampleHost)
       (Path.resolve (processCwd sampleHost)
          [Path.dirname (lit "/root/project/.agents/skills/self-loop-skill");
           lit "self-loop-skill"])
     = at_ "/root/project/.agents/skills/self-loop-skill"
  /\ fs (snd selfLoopRun) !! at_ "/root/project/.agents/skills/self-loop-skill/SKILL.md"
     = None.
Proof. repeat split; vm_compute; reflexivity. Qed.

(** C3: [copyDirectory] hands a symbolic link of the source to [cp], which
    makes a symbolic link in the destination: the link [data] of the source
    arrives as a link to the resolved target, not as a directory with the
    files of the target. *)
Theorem copyDirectory_copies_a_symlink_as_a_symlink :
  linkedSourceFs !! at_ "/root/source-skill/data" = Some (Link (lit "../external-data"))
  /\ fst linkedCopyRun = Ok tt
  /\ fs (snd linkedCopyRun) !! at_ "/root/dest/data" = Some (Link (lit "/root/external-data"))
  /\ fs (snd linkedCopyRun) !! at_ "/root/dest/data/config.json" = None.
Proof. repeat split; vm_compute; reflexivity. Qed.

(** C4: the name is cut to 255 code units after the dots and spaces are
    trimmed, so a name of 254 letters followed by [.b] comes out with a
    dot at its end. *)
Theorem sanitizeName_truncation_leaves_a_dot :
  sanitizeName longName = repeat 97 254 ++ lit "."
  /\ List.last (sanitizeName longName) 0 = CHAR_DOT
  /\ length (sanitizeName longName) = 255%nat.
Proof. repeat split; vm_compute; reflexivity. Qed.

(** C5: on the link a first install made, which leads to the canonical
    directory, [createSymlink] compares the relative payload of the link
    resolved from the working directory of the process, finds it
    different, and removes and recreates the link; so does a second
    install of the same skill for the same agent. *)
Theorem createSymlink_recreates_a_correct_link :
  fs installedWorld !! at_ "/root/project/.claude/skills/demo"
  = Some (Link (lit "../../.agents/skills/demo"))
  /\ Fs.key (processCwd sampleHost)
       (Path.resolve (processCwd sampleHost)
          [Path.dirname (lit "/root/project/.claude/skills/demo");
           lit "../../.agents/skills/demo"])
     = at_ "/root/project/.agents/skills/demo"
  /\ Path.resolve (processCwd sampleHost) [lit "../../.agents/skills/demo"]
     = lit "/.agents/skills/demo"
  /\ fst relinkRun = Ok true
  /\ log (snd relinkRun)
     = [SysUnlink (at_ "/root/project/.claude/skills/demo");
        SysSymlink (lit "../../.agents/skills/demo") (at_ "/root/project/.claude/skills/demo")]
  /\ fst secondInstallRun = Ok demoResult
  /\ log (snd secondInstallRun)
     = [SysUnlink (at_ "/root/project/.agents/skills/demo/SKILL.md");
        SysCopyFile (at_ "/root/source-skill/SKILL.md")
          (at_ "/root/project/.agents/skills/demo/SKILL.md");
        SysUnlink (at_ "/root/project/.claude/skills/demo");
        SysSymlink (lit "../../.agents/skills/demo") (at_ "/root/project/.claude/skills/demo")].
Proof. repeat split; vm_compute; reflexivity. Qed.

(** The link is kept only when its payload resolves, from the working
    directory of the process, to the target: an absolute payload does. *)
Example createSymlink_keeps_an_absolute_link :
  let w := quiet (<[at_ "/root/project/link" := Link (lit "/root/source-skill")]> plainSourceFs) in
  let run := createSymlink sampleHost (lit "/root/source-skill") (lit "/root/project/link") w in
  fst run = Ok true /\ log (snd run) = [].
Proof. split; vm_compute; reflexivity. Qed.

(** C7: a broken symbolic link of the source is not detected: [cp] copies
    it, the copy succeeds and the destination holds the dangling link. *)
Theorem copyDirectory_copies_a_broken_symlink :
  brokenSourceFs !! at_ "/root/non-existent-dir" = None
  /\ fst brokenCopyRun = Ok tt
  /\ fs (snd brokenCopyRun) !! at_ "/root/dest/SKILL.md" = Some (File (lit "name: demo"))
  /\ fs (snd brokenCopyRun) !! at_ "/root/dest/broken"
     = Some (Link (lit "/root/non-existent-dir")).
Proof. repeat split; vm_compute; reflexivity. Qed.

(** * Further properties *)

(** ** The path-safety validator, exactly *)

Section PathSafetyExact.

Variable host : Host.

Lemma joinSegs_app (a b : list (list N)) :
  a <> [] -> b <> [] ->
  Path.joinSegs (a ++ b) = Path.joinSegs a ++ CHAR_SLASH :: Path.joinSegs b.
Proof.
  intros Ha Hb. induction a as [|x a IH]; [congruence|].
  destruct a as [|y a].
  - cbn [app]. now apply joinSegs_cons.
  - change ((x :: y :: a) ++ b) with (x :: ((y :: a) ++ b)).
    rewrite joinSegs_cons by discriminate. rewrite IH by discriminate.
    rewrite (joinSegs_cons x (y :: a)) by discriminate.
    now rewrite <- app_assoc.
Qed.

Lemma plain_list_noSlash (ks : list (list N)) : Forall plain ks -> Forall noSlash ks.
Proof. intros H. eapply Forall_weaken; [exact H | apply plain_noSlash]. Qed.

Lemma plain_list_nonempty (ks : list (list N)) :
  Forall plain ks -> Forall (fun seg => seg <> []) ks.
Proof. intros H. eapply Forall_weaken; [exact H | apply plain_nonempty]. Qed.

Lemma joinSegs_inj (a b : list (list N)) :
  Forall plain a -> Forall plain b -> Path.joinSegs a = Path.joinSegs b -> a = b.
Proof.
  intros Ha Hb E.
  destruct a as [|x a].
  - symmetry in E. apply joinSegs_nil in E; [now subst | now apply plain_list_nonempty].
  - destruct b as [|y b].
    + apply joinSegs_nil in E; [discriminate E | now apply plain_list_nonempty].
    + rewrite <- (split_joinSegs (x :: a)), <- (split_joinSegs (y :: b)), E;
        try discriminate; try reflexivity; now apply plain_list_noSlash.
Qed.

Lemma render_inj (a b : list (list N)) :
  Forall plain a -> Forall plain b -> render a = render b -> a = b.
Proof.
  intros Ha Hb E. unfold render in E. apply app_inv_head in E. now apply joinSegs_inj.
Qed.

Lemma render_below (kb kt : list (list N)) :
  Forall plain kb -> Forall plain kt ->
  startsWith (render kt) (render kb ++ Path.sep) = true <-> kb <> [] /\ kb `prefix_of` kt /\ kt <> kb.
Proof.
  intros Hb Ht. split.
  - intros H. apply startsWith_prefix in H as [rest E].
    unfold render in E. rewrite <- !app_assoc in E. apply app_inv_head in E.
    change (Path.sep ++ rest) with (CHAR_SLASH :: rest) in E.
    destruct kb as [|x kb].
    + exfalso. cbn [Path.joinSegs app] in E.
      pose proof (isAbsolute_joinSegs kt (plain_list_nonempty _ Ht) (plain_list_noSlash _ Ht))
        as Habs.
      rewrite E in Habs. discriminate Habs.
    + split; [discriminate|].
      assert (kt <> []) as Hne.
      { intros ->. cbn [Path.joinSegs] in E. exact (app_cons_not_nil _ _ _ E). }
      apply (f_equal Path.split) in E.
      rewrite split_joinSegs in E by (assumption || now apply plain_list_noSlash).
      rewrite split_app_slash, split_joinSegs in E
        by (discriminate || now apply plain_list_noSlash).
      split; [exists (Path.split rest); exact E|].
      intros Eq. rewrite Eq in E. rewrite <- (app_nil_r (x :: kb)) in E at 1.
      apply app_inv_head in E. symmetry in E. now apply split_nonnil in E.
  - intros (Hne & [r ->] & Hneq).
    destruct r as [|y r]; [rewrite app_nil_r in Hneq; congruence|].
    unfold render. rewrite joinSegs_app by (assumption || discriminate).
    change (Path.sep ++ Path.joinSegs kb ++ CHAR_SLASH :: Path.joinSegs (y :: r))
      with (Path.sep ++ Path.joinSegs kb ++ Path.sep ++ Path.joinSegs (y :: r)).
    rewrite !app_assoc. apply startsWith_app.
Qed.

Lemma isPathSafe_false_keys (base target : list N) :
  Path.isAbsolute (processCwd host) = true ->
  Fs.key (processCwd host) target <> Fs.key (processCwd host) base ->
  ~ (Fs.key (processCwd host) base <> []
     /\ Fs.key (processCwd host) base `prefix_of` Fs.key (processCwd host) target) ->
  isPathSafe host base target = false.
Proof.
  intros Habs Hneq Hnp. rewrite isPathSafe_render by now left.
  apply orb_false_intro.
  - apply not_true_is_false. rewrite render_below by apply key_plain.
    intros (Hne & Hp & _). now apply Hnp.
  - unfold streq. rewrite bool_decide_eq_false. intros E. apply Hneq.
    apply render_inj in E; [exact E | apply key_plain | apply key_plain].
Qed.

(** X1: in a process with an absolute working directory, [isPathSafe]
    accepts exactly the targets that resolve to the base or, for a base
    other than the root, to a path below it. *)
Theorem isPathSafe_exact (base target : list N) :
  Path.isAbsolute (processCwd host) = true ->
  isPathSafe host base target = true <->
  Fs.key (processCwd host) target = Fs.key (processCwd host) base
  \/ (Fs.key (processCwd host) base <> []
      /\ Fs.key (processCwd host) base `prefix_of` Fs.key (processCwd host) target).
Proof.
  intros Habs. rewrite isPathSafe_render by now left.
  rewrite orb_true_iff, render_below by apply key_plain.
  unfold streq. rewrite bool_decide_eq_true. split.
  - intros [(Hne & Hp & _)|E]; [now right | left].
    apply render_inj in E; [exact E | apply key_plain | apply key_plain].
  - intros [E|(Hne & Hp)]; [right; now rewrite E|].
    destruct (decide (Fs.key (processCwd host) target = Fs.key (processCwd host) base)) as [E|Hneq].
    + right. now rewrite E.
    + now left.
Qed.

(** X2: the check refuses the parent of a base other than the root:
    [join(base, '..')] is never accepted. *)
Theorem isPathSafe_rejects_parent (base : list N) :
  Path.isAbsolute (processCwd host) = true ->
  Fs.key (processCwd host) base <> [] ->
  isPathSafe host base (Path.join [base; lit ".."]) = false.
Proof.
  intros Habs Hroot.
  assert (Fs.key (processCwd host) (Path.join [base; lit ".."])
          = Fs.parent (Fs.key (processCwd host) base)) as Hkey
    by (change (lit "..") with Path.DOTDOT; apply key_join_dotdot).
  pose proof (parent_prefix (Fs.key (processCwd host) base)) as [r Hr].
  assert (r <> []) as Hrne.
  { intros ->. rewrite app_nil_r in Hr. unfold Fs.parent in Hr.
    destruct (Fs.key (processCwd host) base) as [|x l] using rev_ind; [congruence|].
    rewrite removelast_last in Hr. apply (f_equal (@length _)) in Hr.
    rewrite length_app in Hr. cbn in Hr. lia. }
  assert (length (Fs.parent (Fs.key (processCwd host) base))
          < length (Fs.key (processCwd host) base))%nat as Hlen.
  { rewrite Hr at 2. rewrite length_app. destruct r; [congruence|]. cbn. lia. }
  apply isPathSafe_false_keys; [exact Habs | |]; rewrite Hkey.
  - intros E. rewrite E in Hlen. lia.
  - intros (_ & Hp). apply prefix_length in Hp. lia.
Qed.

End PathSafetyExact.

(** ** The name sanitizer on names that are safe already *)

Section SanitizeMore.

Lemma filter_all (p : N -> bool) (s : list N) :
  (forall c, c ∈ s -> p c = true) -> List.filter p s = s.
Proof.
  induction s as [|c s IH]; intros H; [reflexivity|]. cbn [List.filter].
  rewrite (H c) by constructor. f_equal. apply IH. intros d Hd. apply H. now constructor.
Qed.

Lemma dropWhileEnd_id (p : N -> bool) (s : list N) :
  match rev s with c :: _ => p c = false | [] => True end -> dropWhileEnd p s = s.
Proof. intros H. unfold dropWhileEnd. rewrite dropWhile_id by exact H. apply rev_involutive. Qed.

Lemma stripped_length (name : list N) : (length (stripped name) <= length name)%nat.
Proof.
  rewrite stripped_eq.
  etransitivity; [apply prefix_length, dropWhileEnd_prefix|].
  etransitivity; [apply suffix_length, dropWhile_suffix|].
  apply filter_length_le.
Qed.

Lemma stripped_id (name : list N) :
  (forall c, c ∈ name -> isUnsafeChar c = false) ->
  match name with c :: _ => isDotOrSpace c = false | [] => True end ->
  match rev name with c :: _ => isDotOrSpace c = false | [] => True end ->
  stripped name = name.
Proof.
  intros Hsafe Hhead Hlast. rewrite stripped_eq.
  rewrite filter_all by (intros c Hc; now rewrite (Hsafe c Hc)).
  rewrite dropWhile_id by exact Hhead. now apply dropWhileEnd_id.
Qed.

Lemma sanitizeName_of_stripped (name : list N) :
  stripped name = name -> name <> [] -> (length name <= 255)%nat -> sanitizeName name = name.
Proof.
  intros Hs Hne Hlen. rewrite sanitizeName_eq, Hs. cbv zeta.
  destruct name as [|c name]; [congruence|]. cbn [orFallback].
  now rewrite (proj2 (Nat.ltb_ge _ _) Hlen).
Qed.

(** X3: a name that is not empty, has at most 255 code units, none of
    [/ \ : NUL], and neither starts nor ends with a dot or a whitespace is
    returned as it is. *)
Theorem sanitizeName_keeps_safe_names (name : list N) :
  name <> [] ->
  (length name <= 255)%nat ->
  (forall c, c ∈ name -> isUnsafeChar c = false) ->
  match name with c :: _ => isDotOrSpace c = false | [] => True end ->
  match rev name with c :: _ => isDotOrSpace c = false | [] => True end ->
  sanitizeName name = name.
Proof.
  intros Hne Hlen Hsafe Hhead Hlast.
  apply sanitizeName_of_stripped; [|exact Hne | exact Hlen].
  now apply stripped_id.
Qed.

(** X4: on names of at most 255 code units [sanitizeName] is idempotent:
    looking a skill up under its sanitized name finds the same name. *)
Theorem sanitizeName_idempotent (name : list N) :
  (length name <= 255)%nat -> sanitizeName (sanitizeName name) = sanitizeName name.
Proof.
  intros Hlen. apply sanitizeName_of_stripped.
  - apply stripped_id.
    + apply sanitizeName_safe.
    + apply sanitizeName_head.
    + apply sanitizeName_last. pose proof (stripped_length name). lia.
  - apply sanitizeName_nonempty.
  - apply sanitizeName_length.
Qed.

End SanitizeMore.

Lemma sanitizeName_keeps_safe_names_witness :
  lit "web-design" <> []
  /\ sanitizeName (lit "web-design") = lit "web-design".
Proof.
  split; [discriminate|].
  apply sanitizeName_keeps_safe_names.
  - discriminate.
  - vm_compute. lia.
  - intros c Hc. apply list_elem_of_In in Hc. revert c Hc.
    apply Forall_forall. repeat constructor.
  - reflexivity.
  - reflexivity.
Defined.

Lemma sanitizeName_idempotent_witness :
  (length (lit " ../My Skill. ") <= 255)%nat
  /\ sanitizeName (sanitizeName (lit " ../My Skill. ")) = sanitizeName (lit " ../My Skill. ").
Proof.
  assert (length (lit " ../My Skill. ") <= 255)%nat as H by (vm_compute; lia).
  split; [exact H | exact (sanitizeName_idempotent _ H)].
Defined.

(** Beyond 255 code units the cut can leave a dot that a second pass
    removes. *)
Example sanitizeName_not_idempotent_when_cut :
  sanitizeName (sanitizeName longName) = repeat 97 254.
Proof. vm_compute. reflexivity. Qed.

(** ** The paths the exported functions compute *)

Section ComputedPaths.

Variable host : Host.
Variable agents : AgentType -> AgentConfig.

Lemma getCanonicalSkillsDir_key (isGlobal : bool) (cwd : option (list N)) :
  Fs.key (processCwd host) (getCanonicalSkillsDir host isGlobal cwd) =
  Fs.key (processCwd host) (if isGlobal then homedir host else orString cwd (processCwd host))
  ++ [AGENTS_DIR; SKILLS_SUBDIR].
Proof.
  unfold getCanonicalSkillsDir. apply key_join; [|discriminate].
  constructor; [compute_done|]. constructor; [compute_done | constructor].
Qed.

Lemma orString_twice (s : option (list N)) (d : list N) :
  orString (Some (orString s d)) d = orString s d.
Proof. destruct s as [[|c s]|]; cbn; try reflexivity; now destruct d. Qed.

Lemma getCanonicalSkillsDir_cwd (isGlobal : bool) (cwd : option (list N)) :
  getCanonicalSkillsDir host isGlobal (Some (orString cwd (processCwd host)))
  = getCanonicalSkillsDir host isGlobal cwd.
Proof. unfold getCanonicalSkillsDir. now rewrite orString_twice. Qed.

(** X5: in a process with an absolute working directory [getInstallPath]
    throws the traversal error exactly when the skills directory of the
    agent is the root directory; otherwise it returns the path of the entry
    named by the sanitized name directly below that directory. *)
Theorem getInstallPath_exact (skillName : list N) (agentType : AgentType) (options : Options) :
  Path.isAbsolute (processCwd host) = true ->
  let targetBase :=
    agentBaseOf agents agentType (truthy (opt_global options))
      (orString (opt_cwd options) (processCwd host)) in
  (Fs.key (processCwd host) targetBase = [] ->
     getInstallPath host agents skillName agentType options = inl (JsError TRAVERSAL_MESSAGE))
  /\ (Fs.key (processCwd host) targetBase <> [] ->
      exists p, getInstallPath host agents skillName agentType options = inr p
                /\ Fs.key (processCwd host) p
                   = Fs.key (processCwd host) targetBase ++ [sanitizeName skillName]).
Proof.
  intros Habs targetBase. unfold getInstallPath. fold targetBase.
  assert (Fs.key (processCwd host) (Path.join [targetBase; sanitizeName skillName])
          = Fs.key (processCwd host) targetBase ++ [sanitizeName skillName]) as Hkey
    by (apply key_join; [apply Forall_plain1, sanitizeName_plain | discriminate]).
  split.
  - intros Hroot.
    rewrite (isPathSafe_false_keys host) ; [reflexivity | exact Habs | |].
    + rewrite Hkey, Hroot. discriminate.
    + intros [Hne _]. now apply Hne.
  - intros Hroot. exists (Path.join [targetBase; sanitizeName skillName]).
    split; [|exact Hkey].
    rewrite isPathSafe_join_plain; [reflexivity | now left | exact Hroot|].
    apply sanitizeName_plain.
Qed.

(** X6: in a process with an absolute working directory [getCanonicalPath]
    never throws: it returns the path of the entry named by the sanitized
    name below [.agents/skills] of the home directory (global) or of the
    working directory. *)
Theorem getCanonicalPath_returns (skillName : list N) (options : Options) :
  Path.isAbsolute (processCwd host) = true ->
  exists p,
    getCanonicalPath host skillName options = inr p
    /\ Fs.key (processCwd host) p
       = Fs.key (processCwd host)
           (if default false (opt_global options) then homedir host
            else orString (opt_cwd options) (processCwd host))
         ++ [lit ".agents"; lit "skills"; sanitizeName skillName].
Proof.
  intros Habs. unfold getCanonicalPath.
  set (base := getCanonicalSkillsDir host (default false (opt_global options)) (opt_cwd options)).
  assert (Fs.key (processCwd host) base
          = Fs.key (processCwd host)
              (if default false (opt_global options) then homedir host
               else orString (opt_cwd options) (processCwd host))
            ++ [AGENTS_DIR; SKILLS_SUBDIR]) as Hbase by apply getCanonicalSkillsDir_key.
  exists (Path.join [base; sanitizeName skillName]). split.
  - rewrite isPathSafe_join_plain; [reflexivity | now left | | apply sanitizeName_plain].
    rewrite Hbase. intros E. apply app_eq_nil in E as [_ E]. discriminate E.
  - rewrite key_join by (try apply Forall_plain1; try apply sanitizeName_plain; discriminate).
    rewrite Hbase, <- app_assoc. reflexivity.
Qed.

Lemma installSteps_no_error (skill : Skill.t) (noSymlink : option bool)
  (canonicalDir agentDir : list N) (w w' : World) (r : InstallResult) :
  installSteps host skill noSymlink canonicalDir agentDir w = (Ok r, w') ->
  error r = None /\ (truthy noSymlink = true -> symlinkFailed r = None).
Proof.
  unfold installSteps. intros H.
  apply bind_Ok_inv in H as (u1 & w1 & _ & H).
  apply bind_Ok_inv in H as (u2 & w2 & _ & H).
  assert (forall (w0 : World) (r0 : InstallResult),
    (mkdir host agentDir ;;; copyDirectory host (Skill.path skill) agentDir ;;; ret r0) w0
      = (Ok r, w') -> r0 = r) as Hagent.
  { intros w0 r0 H0.
    apply bind_Ok_inv in H0 as (u3 & w3 & _ & H0).
    apply bind_Ok_inv in H0 as (u4 & w4 & _ & H0).
    now apply ret_Ok_inv in H0. }
  destruct (truthy noSymlink).
  - apply Hagent in H. now subst r.
  - split; [|discriminate].
    apply bind_Ok_inv in H as (b & w3 & _ & H). destruct (negb b).
    + apply Hagent in H. now subst r.
    + now apply ret_Ok_inv in H as [<- _].
Qed.

(** X7: what a result carries.  Its [path] is always the agent
    directory.  A successful result has no [error] and the canonical
    directory as [canonicalPath], and no [symlinkFailed] in [noSymlink]
    mode; a failed result has an [error] and neither [canonicalPath] nor
    [symlinkFailed]. *)
Theorem install_result_shape (skill : Skill.t) (agentType : AgentType) (options : Options)
  (w w' : World) (r : InstallResult) :
  installSkillForAgent host agents skill agentType options w = (Ok r, w') ->
  path r = agentDirFor host agents skill agentType options
  /\ (success r = true ->
      error r = None
      /\ canonicalPath r = Some (canonicalDirFor host skill options)
      /\ (truthy (opt_noSymlink options) = true -> symlinkFailed r = None))
  /\ (success r = false ->
      canonicalPath r = None /\ symlinkFailed r = None /\ exists msg, error r = Some msg).
Proof.
  intros H. rewrite installSkillForAgent_eq in H.
  assert (forall msg, r = mkInstallResult false
                        (agentDirFor host agents skill agentType options) None None (Some msg) ->
          path r = agentDirFor host agents skill agentType options
          /\ (success r = true ->
              error r = None
              /\ canonicalPath r = Some (canonicalDirFor host skill options)
              /\ (truthy (opt_noSymlink options) = true -> symlinkFailed r = None))
          /\ (success r = false ->
              canonicalPath r = None /\ symlinkFailed r = None /\ exists msg, error r = Some msg))
    as Hfail.
  { intros msg ->. cbn. split; [reflexivity|]. split; [discriminate|]. intros _. eauto. }
  destruct (negb (isPathSafe host _ (canonicalDirFor host skill options))).
  { apply ret_Ok_inv in H as [<- _]. now apply (Hfail TRAVERSAL_MESSAGE). }
  destruct (negb (isPathSafe host _ (agentDirFor host agents skill agentType options))).
  { apply ret_Ok_inv in H as [<- _]. now apply (Hfail TRAVERSAL_MESSAGE). }
  unfold tryCatch in H.
  destruct (installSteps host skill _ _ _ w) as [[r0|e|] w0] eqn:E.
  - injection H as <- _.
    destruct (installSteps_result host _ _ _ _ _ _ _ E) as (Hs & Hp & Hc).
    destruct (installSteps_no_error _ _ _ _ _ _ _ E) as (He & Hn).
    split; [exact Hp|]. split; [auto|]. rewrite Hs. discriminate.
  - apply ret_Ok_inv in H as [<- _]. now apply (Hfail (message e)).
  - discriminate H.
Qed.

(** X8: for a skill with a non-empty name, the [canonicalPath] of a
    successful result is the path [getCanonicalPath] returns for the same
    name and options. *)
Theorem install_canonicalPath_agrees (skill : Skill.t) (agentType : AgentType)
  (options : Options) (w w' : World) (r : InstallResult) :
  Skill.name skill <> [] ->
  installSkillForAgent host agents skill agentType options w = (Ok r, w') ->
  success r = true ->
  exists p, getCanonicalPath host (Skill.name skill) options = inr p
            /\ canonicalPath r = Some p.
Proof.
  intros Hname H Hs.
  unfold getCanonicalPath.
  assert (Path.join [getCanonicalSkillsDir host (default false (opt_global options))
                       (opt_cwd options); sanitizeName (Skill.name skill)]
          = canonicalDirFor host skill options) as Hdir.
  { unfold canonicalDirFor, canonicalBaseFor.
    now rewrite getCanonicalSkillsDir_cwd, rawSkillName_named. }
  rewrite Hdir.
  assert (getCanonicalSkillsDir host (default false (opt_global options)) (opt_cwd options)
          = canonicalBaseFor host options) as Hbase
    by (unfold canonicalBaseFor; now rewrite getCanonicalSkillsDir_cwd).
  rewrite Hbase.
  rewrite installSkillForAgent_eq in H.
  destruct (negb (isPathSafe host (canonicalBaseFor host options)
                    (canonicalDirFor host skill options))).
  { apply ret_Ok_inv in H as [<- _]. discriminate Hs. }
  eexists. split; [reflexivity|]. cbn [negb] in H.
  destruct (negb (isPathSafe host _ (agentDirFor host agents skill agentType options))).
  { apply ret_Ok_inv in H as [<- _]. discriminate Hs. }
  unfold tryCatch in H.
  destruct (installSteps host skill _ _ _ w) as [[r0|e|] w0] eqn:E.
  - injection H as <- _. now destruct (installSteps_result host _ _ _ _ _ _ _ E) as (_ & _ & Hc).
  - apply ret_Ok_inv in H as [<- _]. discriminate Hs.
  - discriminate H.
Qed.

End ComputedPaths.

Lemma isPathSafe_exact_witness :
  Path.isAbsolute (processCwd sampleHost) = true
  /\ (isPathSafe sampleHost (lit ".claude/skills") (lit ".claude/skills/demo") = true <->
      Fs.key (processCwd sampleHost) (lit ".claude/skills/demo")
      = Fs.key (processCwd sampleHost) (lit ".claude/skills")
      \/ (Fs.key (processCwd sampleHost) (lit ".claude/skills") <> []
          /\ Fs.key (processCwd sampleHost) (lit ".claude/skills")
             `prefix_of` Fs.key (processCwd sampleHost) (lit ".claude/skills/demo"))).
Proof.
  split; [reflexivity|].
  apply (isPathSafe_exact sampleHost (lit ".claude/skills") (lit ".claude/skills/demo")).
  reflexivity.
Defined.

Lemma isPathSafe_rejects_parent_witness :
  Path.isAbsolute (processCwd sampleHost) = true
  /\ Fs.key (processCwd sampleHost) (lit "/home/u/.claude/skills") <> []
  /\ isPathSafe sampleHost (lit "/home/u/.claude/skills")
       (Path.join [lit "/home/u/.claude/skills"; lit ".."]) = false.
Proof.
  split; [reflexivity|]. split; [vm_compute; discriminate|].
  apply (isPathSafe_rejects_parent sampleHost (lit "/home/u/.claude/skills"));
    [reflexivity | vm_compute; discriminate].
Defined.

Lemma getInstallPath_exact_witness :
  Path.isAbsolute (processCwd sampleHost) = true
  /\ Fs.key (processCwd sampleHost) (lit "/root/project/.claude/skills") <> []
  /\ exists p,
       getInstallPath sampleHost sampleAgents (lit "../demo") claude_code sampleOptions = inr p
       /\ Fs.key (processCwd sampleHost) p = at_ "/root/project/.claude/skills/demo".
Proof.
  split; [reflexivity|]. split; [vm_compute; discriminate|].
  destruct (getInstallPath_exact sampleHost sampleAgents (lit "../demo") claude_code
              sampleOptions eq_refl) as [_ H].
  destruct H as (p & Hp & Hk); [vm_compute; discriminate|].
  exists p. split; [exact Hp|]. rewrite Hk. vm_compute. reflexivity.
Defined.

Lemma getCanonicalPath_returns_witness :
  Path.isAbsolute (processCwd sampleHost) = true
  /\ exists p,
       getCanonicalPath sampleHost (lit "../demo") sampleOptions = inr p
       /\ Fs.key (processCwd sampleHost) p = at_ "/root/project/.agents/skills/demo".
Proof.
  split; [reflexivity|].
  destruct (getCanonicalPath_returns sampleHost (lit "../demo") sampleOptions eq_refl)
    as (p & Hp & Hk).
  exists p. split; [exact Hp|]. rewrite Hk. vm_compute. reflexivity.
Defined.

Lemma install_result_shape_witness :
  demoRun = (Ok demoResult, snd demoRun)
  /\ path demoResult = agentDirFor sampleHost sampleAgents demoSkill claude_code sampleOptions
  /\ error demoResult = None.
Proof.
  split; [exact demoRun_eq|].
  destruct (install_result_shape sampleHost sampleAgents demoSkill claude_code sampleOptions
              (quiet plainSourceFs) (snd demoRun) demoResult demoRun_eq) as (Hp & Hok & _).
  split; [exact Hp|]. now destruct (Hok eq_refl) as (He & _).
Defined.

Lemma install_canonicalPath_agrees_witness :
  Skill.name demoSkill <> []
  /\ demoRun = (Ok demoResult, snd demoRun)
  /\ success demoResult = true
  /\ exists p, getCanonicalPath sampleHost (Skill.name demoSkill) sampleOptions = inr p
               /\ canonicalPath demoResult = Some p.
Proof.
  split; [discriminate|]. split; [exact demoRun_eq|]. split; [reflexivity|].
  apply (install_canonicalPath_agrees sampleHost sampleAgents demoSkill claude_code
           sampleOptions (quiet plainSourceFs) (snd demoRun) demoResult);
    [discriminate | exact demoRun_eq | reflexivity].
Defined.

(** ** What the copier, the symlink manager and the installer leave alone *)

Section Frames.

Variable host : Host.
Variable agents : AgentType -> AgentConfig.

Lemma effect_frame (F : Footprint) (m m' : gmap (list (list N)) Node) (k : list (list N)) :
  effect F m m' -> ~ written F k -> ~ deleted F k ->
  m' !! k = m !! k \/ (created F k /\ m !! k = None /\ m' !! k = Some Dir).
Proof.
  intros He Hw Hd. destruct (He k) as [E|[W|[(C & E & [E0|D])|(D & _)]]];
    [now left | now destruct Hw | now right | now destruct Hd | now destruct Hd].
Qed.

Lemma prefix_app_self (k : list (list N)) (names : list (list N)) : k `prefix_of` k ++ names.
Proof. now exists names. Qed.

Lemma prefix_self_app (k names : list (list N)) : k ++ names `prefix_of` k -> names = [].
Proof.
  intros Hp. apply prefix_length in Hp. rewrite length_app in Hp.
  destruct names; [reflexivity | cbn in Hp; lia].
Qed.

Lemma prefix_comparable (a b k : list (list N)) :
  a `prefix_of` k -> b `prefix_of` k -> a `prefix_of` b \/ b `prefix_of` a.
Proof. apply prefix_weak_total. Qed.

(** X9: on a file system without symbolic links, and for a [dest] in
    normal form, [copyDirectory] ends, and changes nothing outside the tree
    below [dest]: a path that is neither below [dest] nor on the way to it
    is as before, and a path on the way to [dest], [dest] included, is as
    before or was missing and is now a directory.  So the copy never
    replaces [dest] or a parent of it, and never removes or rewrites an
    entry elsewhere. *)
Theorem copyDirectory_frame (src dest : list N) (w w' : World) (o : Outcome unit) :
  wfFs (fs w) ->
  noLinks (fs w) ->
  Path.normalize dest = dest ->
  copyDirectory host src dest w = (o, w') ->
  o <> OutOfFuel
  /\ wfFs (fs w')
  /\ (forall k, k `prefix_of` Fs.key (processCwd host) dest ->
        fs w' !! k = fs w !! k \/ (fs w !! k = None /\ fs w' !! k = Some Dir))
  /\ (forall k, ~ k `prefix_of` Fs.key (processCwd host) dest ->
        ~ Fs.key (processCwd host) dest `prefix_of` k ->
        fs w' !! k = fs w !! k).
Proof.
  intros Hwf _ _ E.
  destruct (holds_run _ _ _ _ _ (holds_copyDirectory host src dest) Hwf E) as (Hwf' & He & Ho).
  split; [exact Ho|]. split; [exact Hwf'|]. split.
  - intros k Hk. destruct (effect_frame _ _ _ k He) as [E1|(_ & E1)]; [| |now left|now right].
    + intros (names & Hne & -> & _). apply prefix_self_app in Hk. congruence.
    + intros [].
  - intros k Hk1 Hk2. destruct (effect_frame _ _ _ k He) as [E1|(C & _)]; [| |exact E1|].
    + intros (names & _ & -> & _). apply Hk2, prefix_app_self.
    + intros [].
    + now destruct Hk1.
Qed.

(** X10: on a file system without symbolic links, and for a [dest] in
    normal form, when neither of [src] and [dest] lies inside the other,
    the copy leaves the whole source tree as it was. *)
Theorem copyDirectory_leaves_the_source (src dest : list N) (w w' : World) (o : Outcome unit) :
  wfFs (fs w) ->
  noLinks (fs w) ->
  Path.normalize dest = dest ->
  ~ Fs.key (processCwd host) src `prefix_of` Fs.key (processCwd host) dest ->
  ~ Fs.key (processCwd host) dest `prefix_of` Fs.key (processCwd host) src ->
  copyDirectory host src dest w = (o, w') ->
  forall k, Fs.key (processCwd host) src `prefix_of` k -> fs w' !! k = fs w !! k.
Proof.
  intros Hwf _ _ Hsd Hds E k Hk.
  destruct (holds_run _ _ _ _ _ (holds_copyDirectory host src dest) Hwf E) as (_ & He & _).
  destruct (effect_frame _ _ _ k He) as [E1|(C & _)]; [| |exact E1|].
  - intros (names & _ & -> & _).
    destruct (prefix_comparable _ _ _ Hk (prefix_app_self _ names)); tauto.
  - intros [].
  - destruct Hsd. etransitivity; [exact Hk | exact C].
Qed.

End Frames.

Lemma copyDirectory_frame_witness :
  wfFs (fs (quiet plainSourceFs))
  /\ noLinks (fs (quiet plainSourceFs))
  /\ Path.normalize (lit "/root/dest") = lit "/root/dest"
  /\ fst (copyDirectory sampleHost (lit "/root/source-skill") (lit "/root/dest")
            (quiet plainSourceFs)) <> OutOfFuel
  /\ fs (snd (copyDirectory sampleHost (lit "/root/source-skill") (lit "/root/dest")
                (quiet plainSourceFs))) !! at_ "/root/source-skill/SKILL.md"
     = fs (quiet plainSourceFs) !! at_ "/root/source-skill/SKILL.md".
Proof.
  assert (wfFs (fs (quiet plainSourceFs))) as Hwf by compute_done.
  assert (noLinks (fs (quiet plainSourceFs))) as Hnl by compute_done.
  assert (Path.normalize (lit "/root/dest") = lit "/root/dest") as Hnorm
    by (vm_compute; reflexivity).
  split; [exact Hwf|]. split; [exact Hnl|]. split; [exact Hnorm|].
  destruct (copyDirectory_frame sampleHost (lit "/root/source-skill") (lit "/root/dest")
              (quiet plainSourceFs) _ _ Hwf Hnl Hnorm (surjective_pairing _))
    as (Hfuel & _ & _ & Hframe).
  split; [exact Hfuel|]. apply Hframe; compute_done.
Defined.

Lemma copyDirectory_leaves_the_source_witness :
  wfFs (fs (quiet plainSourceFs))
  /\ noLinks (fs (quiet plainSourceFs))
  /\ Path.normalize (lit "/root/dest") = lit "/root/dest"
  /\ ~ at_ "/root/source-skill" `prefix_of` at_ "/root/dest"
  /\ ~ at_ "/root/dest" `prefix_of` at_ "/root/source-skill"
  /\ fs (snd (copyDirectory sampleHost (lit "/root/source-skill") (lit "/root/dest")
                (quiet plainSourceFs))) !! at_ "/root/source-skill/SKILL.md"
     = fs (quiet plainSourceFs) !! at_ "/root/source-skill/SKILL.md".
Proof.
  assert (wfFs (fs (quiet plainSourceFs))) as Hwf by compute_done.
  assert (~ at_ "/root/source-skill" `prefix_of` at_ "/root/dest") as H1 by compute_done.
  assert (~ at_ "/root/dest" `prefix_of` at_ "/root/source-skill") as H2 by compute_done.
  assert (noLinks (fs (quiet plainSourceFs))) as Hnl by compute_done.
  assert (Path.normalize (lit "/root/dest") = lit "/root/dest") as Hnorm
    by (vm_compute; reflexivity).
  split; [exact Hwf|]. split; [exact Hnl|]. split; [exact Hnorm|].
  split; [exact H1|]. split; [exact H2|].
  apply (copyDirectory_leaves_the_source sampleHost (lit "/root/source-skill")
           (lit "/root/dest") (quiet plainSourceFs) _ _ Hwf Hnl Hnorm H1 H2
           (surjective_pairing _)).
  compute_done.
Defined.

(** ** The link [createSymlink] leaves *)

Section LinkFacts.

Variable host : Host.

Lemma resolveSegs_render (cwd : list N) (ks : list (list N)) :
  Forall plain ks -> snd (Path.resolveSegs cwd [render ks]) = ks.
Proof.
  intros Hp. unfold Path.resolveSegs. cbn [rev app].
  assert (Path.resolveLoop [render ks; cwd] [] = (true, render ks ++ Path.sep)) as ->
    by (unfold render; cbn [Path.resolveLoop]; now rewrite app_nil_r).
  cbn [snd negb]. unfold render.
  rewrite split_app_sep, split_sep_app, normalizeString_snoc_nil, normalizeString_cons_nil.
  destruct (decide (ks = [])) as [->|Hne]; [reflexivity|].
  rewrite split_joinSegs; [now apply normalizeString_plain | exact Hne|].
  now apply plain_list_noSlash.
Qed.

Lemma stripCommon_spec (from to up down : list (list N)) :
  Path.stripCommon from to = (up, down) ->
  exists common, from = common ++ up /\ to = common ++ down.
Proof.
  revert to. induction from as [|f from IH]; intros to H.
  - injection H as <- <-. now exists [].
  - destruct to as [|t to]; [injection H as <- <-; now exists []|].
    cbn [Path.stripCommon] in H. destruct (decide (f = t)) as [->|Hne].
    + destruct (IH _ H) as (common & -> & ->). now exists (t :: common).
    + injection H as <- <-. now exists [].
Qed.

Lemma fold_pushSegment_pop (s st : list (list N)) :
  Forall plain s ->
  fold_left (Path.pushSegment false) (repeat Path.DOTDOT (length s)) (s ++ st) = st.
Proof.
  induction s as [|x s IH]; intros Hp; [reflexivity|].
  inversion Hp as [|? ? Hx Hs]; subst. cbn [length repeat fold_left app].
  rewrite pushSegment_dotdot. destruct Hx as (_ & _ & Hx & _).
  rewrite decide_False by exact Hx. now apply IH.
Qed.

Lemma map_const_repeat {A B : Type} (b : B) (l : list A) :
  List.map (fun _ => b) l = repeat b (length l).
Proof. induction l as [|a l IH]; [reflexivity|]. cbn. now rewrite IH. Qed.

(** Walking [relative(from, to)] from where [from] leads ends where [to]
    leads. *)
Lemma relative_leads (cwd from to : list N) :
  Path.isAbsolute cwd = true ->
  Path.normalizeString false (Fs.key cwd from ++ Path.split (Path.relative cwd from to))
  = Fs.key cwd to.
Proof.
  intros Habs.
  assert (forall k, Forall plain k -> Path.normalizeString false (k ++ Path.split []) = k) as Hsame.
  { intros k Hk. change (Path.split []) with [@nil N].
    rewrite normalizeString_snoc_nil. now apply normalizeString_plain. }
  pose proof (key_plain cwd from) as Hpf. pose proof (key_plain cwd to) as Hpt.
  unfold Path.relative. unfold streq at 1. case_bool_decide as E1.
  { subst to. now apply Hsame. }
  rewrite !resolve_render by now left.
  unfold streq. case_bool_decide as E2.
  { apply render_inj in E2; [|assumption|assumption]. rewrite <- E2. now apply Hsame. }
  rewrite !resolveSegs_render by assumption.
  destruct (Path.stripCommon (Fs.key cwd from) (Fs.key cwd to)) as [up down] eqn:E.
  apply stripCommon_spec in E as (common & Hf & Ht).
  rewrite Hf in Hpf. rewrite Ht in Hpt. rewrite Hf, Ht.
  apply Forall_app in Hpf as [Hc Hu]. apply Forall_app in Hpt as [_ Hd].
  destruct (decide (List.map (fun _ : list N => Path.DOTDOT) up ++ down = [])) as [E0|Hne].
  { rewrite E0. apply app_eq_nil in E0 as [E0 ->]. destruct up; [|discriminate E0].
    apply Hsame. now rewrite app_nil_r. }
  rewrite split_joinSegs; [|exact Hne|].
  - rewrite map_const_repeat, !app_assoc, normalizeString_app_plain by exact Hd.
    f_equal. rewrite normalizeString_app.
    rewrite (fold_pushSegment_plain false (common ++ up) []) by (apply Forall_app; now split).
    rewrite rev_app_distr, app_nil_r, <- (length_rev up).
    rewrite fold_pushSegment_pop; [apply rev_involutive|].
    apply Forall_rev. exact Hu.
  - apply Forall_app. split; [|now apply plain_list_noSlash].
    rewrite map_const_repeat. apply Forall_forall. intros x Hx.
    apply repeat_spec in Hx. subst x. compute_done.
Qed.

Lemma syscall_Ok_inv {A : Type} (path : list N)
  (call : list (list N) -> gmap (list (list N)) Node -> Fs.Result A) (w w' : World) (a : A) :
  syscall host path call w = (Ok a, w') ->
  exists l, call (Fs.key (processCwd host) path) (fs w) = inr (a, fs w', l).
Proof.
  unfold syscall. intros H.
  destruct (faults w) as [|[e|] rest]; try discriminate H;
  destruct path as [|c path]; try discriminate H;
  destruct (PATH_MAX <=? _)%nat; try discriminate H;
  destruct (call _ (fs w)) as [e|[[a0 m] l]]; try discriminate H;
  injection H as <- <-; now exists l.
Qed.

Lemma syscall_Throw_inv {A : Type} (path : list N)
  (call : list (list N) -> gmap (list (list N)) Node -> Fs.Result A) (w w' : World) (e : Exn) :
  syscall host path call w = (Throw e, w') -> fs w' = fs w /\ log w' = log w.
Proof.
  unfold syscall. intros H.
  destruct (faults w) as [|[e0|] rest];
    try (injection H as _ <-; now split);
    (destruct path as [|c path]; [injection H as _ <-; now split|]);
    (destruct (PATH_MAX <=? _)%nat; [injection H as _ <-; now split|]);
    (destruct (call _ (fs w)) as [e1|[[a0 m] l]]; [injection H as _ <-; now split|]);
    discriminate H.
Qed.

Lemma syscall_not_OutOfFuel {A : Type} (path : list N)
  (call : list (list N) -> gmap (list (list N)) Node -> Fs.Result A) (w : World) :
  fst (syscall host path call w) <> OutOfFuel.
Proof.
  unfold syscall.
  destruct (faults w) as [|[e0|] rest]; try (cbn; discriminate);
    (destruct path as [|c path]; [cbn; discriminate|]);
    (destruct (PATH_MAX <=? _)%nat; [cbn; discriminate|]);
    (destruct (call _ (fs w)) as [e1|[[a0 m] l]]; cbn; discriminate).
Qed.

Lemma syscall_Ok_len {A : Type} (path : list N)
  (call : list (list N) -> gmap (list (list N)) Node -> Fs.Result A) (w w' : World) (a : A) :
  syscall host path call w = (Ok a, w') ->
  path <> [] /\ (Fs.pathLen (Fs.key (processCwd host) path) < PATH_MAX)%nat.
Proof.
  unfold syscall. intros H.
  destruct (faults w) as [|[e|] rest]; try discriminate H;
  destruct path as [|c path]; try discriminate H;
  destruct (PATH_MAX <=? _)%nat eqn:El; try discriminate H;
  apply Nat.leb_gt in El; (split; [discriminate | exact El]).
Qed.

(** A call that no fault of the schedule hits. *)
Lemma syscall_run_Ok {A : Type} (path : list N)
  (call : list (list N) -> gmap (list (list N)) Node -> Fs.Result A) (w : World) (a : A)
  (m : gmap (list (list N)) Node) (l : list Syscall) :
  match faults w with Some _ :: _ => False | _ => True end ->
  path <> [] ->
  (Fs.pathLen (Fs.key (processCwd host) path) < PATH_MAX)%nat ->
  call (Fs.key (processCwd host) path) (fs w) = inr (a, m, l) ->
  syscall host path call w = (Ok a, mkWorld m (tail (faults w)) (log w ++ l)).
Proof.
  intros Hf Hne Hlen Hc. unfold syscall.
  apply Nat.leb_gt in Hlen.
  destruct (faults w) as [|[e|] rest]; [|destruct Hf|];
    (destruct path as [|c path]; [congruence|]); now rewrite Hlen, Hc.
Qed.

Lemma syscall_Ok_log {A : Type} (path : list N)
  (call : list (list N) -> gmap (list (list N)) Node -> Fs.Result A) (w w' : World) (a : A) :
  syscall host path call w = (Ok a, w') ->
  exists l, call (Fs.key (processCwd host) path) (fs w) = inr (a, fs w', l)
            /\ log w' = log w ++ l.
Proof.
  unfold syscall. intros H.
  destruct (faults w) as [|[e|] rest]; try discriminate H;
  destruct path as [|c path]; try discriminate H;
  destruct (PATH_MAX <=? _)%nat; try discriminate H;
  destruct (call _ (fs w)) as [e|[[a0 m] l]]; try discriminate H;
  injection H as <- <-; now exists l.
Qed.

Lemma tryCatch_Ok_inv {A : Type} (m : M A) (h : Exn -> M A) (w w' : World) (a : A) :
  tryCatch m h w = (Ok a, w') ->
  m w = (Ok a, w') \/ exists e w0, m w = (Throw e, w0) /\ h e w0 = (Ok a, w').
Proof.
  unfold tryCatch. destruct (m w) as [[a0|e|] w0]; intros H; [now left | right | discriminate H].
  now exists e, w0.
Qed.

Lemma inspectLink_kept (target linkPath : list N) (w w' : World) (b : bool) :
  inspectLink host target linkPath w = (Ok (Some b), w') ->
  b = true /\ fs w' = fs w
  /\ (linkPath <> [] /\ (Fs.pathLen (Fs.key (processCwd host) linkPath) < PATH_MAX)%nat)
  /\ exists payload,
       fs w !! Fs.key (processCwd host) linkPath = Some (Link payload)
       /\ Path.resolve (processCwd host) [payload] = Path.resolve (processCwd host) [target].
Proof.
  unfold inspectLink. intros H.
  assert (forall recursive w0,
            (rm host linkPath recursive ;;; ret None) w0 <> (Ok (Some b), w')) as Hrm.
  { intros recursive w0 H0. apply bind_Ok_inv in H0 as (u & w1 & _ & H0).
    apply ret_Ok_inv in H0 as [H0 _]. discriminate H0. }
  apply bind_Ok_inv in H as (stats & w1 & Hl & H).
  pose proof (syscall_Ok_len _ _ _ _ _ Hl) as Hlen.
  apply syscall_Ok_inv in Hl as (l1 & Hl). unfold Fs.lstatAt in Hl.
  destruct (Fs.nodeAt _ (fs w)) as [n|] eqn:En; [|discriminate Hl].
  injection Hl as <- E1 _.
  destruct (Fs.isSymbolicLink (Fs.statsOf n)); [|now destruct (Hrm true w1)].
  apply bind_Ok_inv in H as (existingTarget & w2 & Hr & H).
  apply syscall_Ok_inv in Hr as (l2 & Hr). unfold Fs.readlinkAt in Hr.
  destruct (Fs.nodeAt _ (fs w1)) as [[c| |pl]|] eqn:En1; try discriminate Hr.
  injection Hr as <- E2 _.
  unfold streq in H. case_bool_decide as Eres; [|now destruct (Hrm false w2)].
  apply ret_Ok_inv in H as [H <-]. injection H as <-.
  split; [reflexivity|]. split; [congruence|]. split; [exact Hlen|].
  exists pl. split; [|exact Eres].
  rewrite <- E1 in En1. unfold Fs.nodeAt in En1.
  destruct (Fs.key (processCwd host) linkPath); [discriminate En1 | exact En1].
Qed.

Lemma relative_not_absolute (cwd from to : list N) :
  Path.isAbsolute cwd = true -> Path.isAbsolute (Path.relative cwd from to) = false.
Proof.
  intros Habs. unfold Path.relative.
  destruct (streq from to); [reflexivity|].
  rewrite !resolve_render by now left.
  destruct (streq _ _); [reflexivity|].
  rewrite !resolveSegs_render by apply key_plain.
  destruct (Path.stripCommon (Fs.key cwd from) (Fs.key cwd to)) as [up down] eqn:E.
  apply stripCommon_spec in E as (common & Hf & Ht).
  pose proof (key_plain cwd to) as Hpt. rewrite Ht in Hpt.
  apply Forall_app in Hpt as [_ Hd].
  apply isAbsolute_joinSegs.
  - apply Forall_app. split; [|now apply plain_list_nonempty].
    rewrite map_const_repeat. apply Forall_forall. intros x Hx.
    apply repeat_spec in Hx. subst x. discriminate.
  - apply Forall_app. split; [|now apply plain_list_noSlash].
    rewrite map_const_repeat. apply Forall_forall. intros x Hx.
    apply repeat_spec in Hx. subst x. compute_done.
Qed.

Lemma noLinks_lookup (m : gmap (list (list N)) Node) (k : list (list N)) (payload : list N) :
  noLinks m -> m !! k = Some (Link payload) -> False.
Proof. intros H E. specialize (H k _ E). discriminate H. Qed.

Lemma noLinks_nodeAt (m : gmap (list (list N)) Node) (k : list (list N)) (payload : list N) :
  noLinks m -> Fs.nodeAt k m = Some (Link payload) -> False.
Proof.
  intros H E. destruct k as [|x k]; [discriminate E|]. exact (noLinks_lookup _ _ _ H E).
Qed.

Lemma noLinks_noLinksBut (m : gmap (list (list N)) Node) (k : list (list N)) :
  noLinks m -> noLinksBut k m.
Proof. intros H k' node E Hl. specialize (H k' _ E). cbn beta in H. congruence. Qed.

Lemma createSymlink_true_cases (target linkPath : list N) (w w' : World) :
  createSymlink host target linkPath w = (Ok true, w') ->
  (linkPath <> [] /\ (Fs.pathLen (Fs.key (processCwd host) linkPath) < PATH_MAX)%nat)
  /\ ((fs w' = fs w
       /\ exists payload,
            fs w !! Fs.key (processCwd host) linkPath = Some (Link payload)
            /\ Path.resolve (processCwd host) [payload]
               = Path.resolve (processCwd host) [target])
      \/ (Path.relative (processCwd host) (Path.join [linkPath; lit ".."]) target <> []
          /\ fs w' !! Fs.key (processCwd host) linkPath
             = Some (Link (Path.relative (processCwd host) (Path.join [linkPath; lit ".."])
                             target)))).
Proof.
  intros H. unfold createSymlink in H.
  apply tryCatch_Ok_inv in H as [H|(e & w0 & _ & H)];
    [|apply ret_Ok_inv in H as [H _]; discriminate H].
  apply bind_Ok_inv in H as (returned & w1 & Hi & H).
  destruct returned as [b|].
  - apply ret_Ok_inv in H as [-> <-].
    apply tryCatch_Ok_inv in Hi as [Hi|(e & w0 & _ & Hi)];
      [|apply ret_Ok_inv in Hi as [Hi _]; discriminate Hi].
    apply inspectLink_kept in Hi as (_ & Hfs & Hlen & Hl). split; [exact Hlen | now left].
  - apply bind_Ok_inv in H as (u & w2 & _ & H).
    apply bind_Ok_inv in H as (u' & w3 & Hs & H).
    apply ret_Ok_inv in H as [_ <-].
    split; [exact (syscall_Ok_len _ _ _ _ _ Hs)|].
    apply syscall_Ok_inv in Hs as (l & Hs). unfold Fs.symlinkAt in Hs.
    destruct (Path.relative (processCwd host) (Path.join [linkPath; lit ".."]) target)
      as [|c0 rel] eqn:Erel; [discriminate Hs|].
    destruct (Fs.nodeAt _ (fs w2)); [discriminate Hs|].
    destruct (Fs.nodeAt (Fs.parent _) (fs w2)) as [[c| |pl]|]; try discriminate Hs.
    injection Hs as _ Hfs _.
    right. split; [discriminate|]. rewrite <- Hfs. apply lookup_insert_eq.
Qed.

(** X13: on a file system without symbolic links, when [createSymlink]
    returns [true], [linkPath] is a symbolic link whose payload is
    [relative(linkDir, target)]: a relative path, not empty, and walking it
    from the directory of the link ends at [target]. *)
Theorem createSymlink_true_leaves_a_link (target linkPath : list N) (w w' : World) :
  Path.isAbsolute (processCwd host) = true ->
  noLinks (fs w) ->
  createSymlink host target linkPath w = (Ok true, w') ->
  let payload := Path.relative (processCwd host) (Path.join [linkPath; lit ".."]) target in
  fs w' !! Fs.key (processCwd host) linkPath = Some (Link payload)
  /\ payload <> []
  /\ Path.isAbsolute payload = false
  /\ Path.normalizeString false
       (Fs.parent (Fs.key (processCwd host) linkPath) ++ Path.split payload)
     = Fs.key (processCwd host) target.
Proof.
  intros Habs Hnl H payload.
  apply createSymlink_true_cases in H as [_ [(Hfs & pl & Hl & _)|[Hne Hl]]].
  - destruct (noLinks_lookup _ _ _ Hnl Hl).
  - split; [exact Hl|]. split; [exact Hne|].
    split; [now apply relative_not_absolute|].
    rewrite <- (key_join_dotdot (processCwd host) linkPath).
    now apply relative_leads.
Qed.

End LinkFacts.

Lemma createSymlink_true_leaves_a_link_witness :
  Path.isAbsolute (processCwd sampleHost) = true
  /\ noLinks (fs (quiet plainSourceFs))
  /\ exists w',
       createSymlink sampleHost (lit "/root/source-skill")
         (lit "/root/project/.claude/skills/demo") (quiet plainSourceFs) = (Ok true, w')
       /\ fs w' !! Fs.key (processCwd sampleHost) (lit "/root/project/.claude/skills/demo")
          = Some (Link (Path.relative (processCwd sampleHost)
                          (Path.join [lit "/root/project/.claude/skills/demo"; lit ".."])
                          (lit "/root/source-skill"))).
Proof.
  assert (noLinks (fs (quiet plainSourceFs))) as Hnl by compute_done.
  split; [reflexivity|]. split; [exact Hnl|].
  assert (createSymlink sampleHost (lit "/root/source-skill")
            (lit "/root/project/.claude/skills/demo") (quiet plainSourceFs)
          = (Ok true, snd (createSymlink sampleHost (lit "/root/source-skill")
                             (lit "/root/project/.claude/skills/demo") (quiet plainSourceFs))))
    as Hrun by (apply run_split; vm_compute; reflexivity).
  destruct (createSymlink_true_leaves_a_link sampleHost _ _ _ _ eq_refl Hnl Hrun)
    as (Hl & _).
  eexists. split; [exact Hrun | exact Hl].
Defined.

(** ** What the copier copies *)

Section CopyFacts.

Variable host : Host.

Lemma holds_run_Ok (F : Footprint) {A : Type} (m : M A) (w w' : World) (a : A)
  (Q : A -> gmap (list (list N)) Node -> Prop) :
  holds F anyFs m Q -> wfFs (fs w) -> m w = (Ok a, w') ->
  wfFs (fs w') /\ effect F (fs w) (fs w') /\ Q a (fs w').
Proof. intros Hm Hwf E. specialize (Hm w Hwf I). now rewrite E in Hm. Qed.

Lemma childName_snoc (k : list (list N)) (a : list N) : Fs.childName k (k ++ [a]) = Some a.
Proof.
  unfold Fs.childName. rewrite rev_app_distr. cbn [rev app].
  now rewrite decide_True by apply rev_involutive.
Qed.

Lemma childName_Some (k k' : list (list N)) (a : list N) :
  Fs.childName k k' = Some a -> k' = k ++ [a].
Proof.
  unfold Fs.childName. destruct (rev k') as [|x rp] eqn:E; [discriminate|].
  destruct (decide (rev rp = k)) as [<-|]; [|discriminate]. intros H. injection H as <-.
  apply (f_equal (@rev _)) in E. rewrite rev_involutive in E. exact E.
Qed.

(** The entries [readdir] lists are the children of the directory, each
    with the kind of its node. *)
Lemma readdirAt_entries (k : list (list N)) (m m' : gmap (list (list N)) Node)
  (entries : list Fs.Dirent) (l : list Syscall) :
  Fs.readdirAt k m = inr (entries, m', l) ->
  m' = m
  /\ forall e, e ∈ entries <->
       exists node, m !! (k ++ [Fs.name e]) = Some node
                    /\ Fs.isDirectory e = bool_decide (node = Dir).
Proof.
  unfold Fs.readdirAt. intros H.
  destruct (Fs.nodeAt k m) as [[c| |pl]|]; try discriminate H.
  injection H as <- <- _. split; [reflexivity|]. intros e.
  rewrite list_elem_of_omap. split.
  - intros ([k' node] & Hin & Hd). apply elem_of_map_to_list in Hin.
    unfold Fs.direntOf in Hd. cbn [fst snd] in Hd.
    destruct (Fs.childName k k') as [a|] eqn:Ec; [|discriminate Hd].
    injection Hd as <-. cbn [Fs.name Fs.isDirectory].
    apply childName_Some in Ec as ->. now exists node.
  - intros (node & Hn & Hd). exists (k ++ [Fs.name e], node).
    split; [now apply elem_of_map_to_list|].
    unfold Fs.direntOf. cbn [fst snd]. rewrite childName_snoc, <- Hd. now destruct e.
Qed.

Lemma prefix_snoc_inv (k l : list (list N)) (a : list N) :
  k `prefix_of` l ++ [a] -> k `prefix_of` l \/ k = l ++ [a].
Proof.
  intros [r E]. destruct r as [|x r _] using rev_ind.
  - right. now rewrite app_nil_r in E.
  - left. rewrite app_assoc in E. apply app_inj_tail in E as [-> _]. apply prefix_app_self.
Qed.

Lemma entryFootprint_copy (kd : list (list N)) (a : list N) :
  subFootprint (entryFootprint kd a) (copyFootprint kd).
Proof.
  intros k. cbn [entryFootprint copyFootprint written created deleted].
  split; [|tauto]. intros (names & -> & Hall). exists (a :: names).
  split; [discriminate|]. now split.
Qed.

Lemma copyFootprint_entry (kd : list (list N)) (a : list N) :
  isExcluded a = false -> subFootprint (copyFootprint (kd ++ [a])) (entryFootprint kd a).
Proof.
  intros Ha k. cbn [entryFootprint copyFootprint written created deleted].
  split; [|split; [|tauto]].
  - intros (names & _ & -> & Hall). exists names. rewrite <- app_assoc.
    split; [reflexivity|]. now constructor.
  - intros Hk. apply prefix_snoc_inv in Hk as [Hk| ->]; [now left | right].
    exists []. split; [reflexivity|]. constructor; [exact Ha | constructor].
Qed.

Lemma holds_copyEntry (fuel : nat) (src dest : list N) (entry : Fs.Dirent) :
  (1 <= fuel)%nat ->
  (PATH_MAX + 1 <= fuel + Fs.pathLen (Fs.key (processCwd host) dest)
                   + S (length (Fs.name entry)))%nat ->
  plain (Fs.name entry) ->
  holds (entryFootprint (Fs.key (processCwd host) dest) (Fs.name entry)) anyFs
    (copyEntry host fuel src dest entry) (fun _ _ => True).
Proof.
  intros Hf Hlen Hplain. unfold copyEntry.
  destruct (isExcluded (Fs.name entry)) eqn:Hex; [now apply holds_ret|].
  assert (Fs.key (processCwd host) (Path.join [dest; Fs.name entry])
          = Fs.key (processCwd host) dest ++ [Fs.name entry]) as Hkey
    by (apply key_join; [now apply Forall_plain1 | discriminate]).
  destruct (Fs.isDirectory entry).
  - eapply holds_sub; [|apply holds_copyDirectoryFuel].
    + rewrite Hkey. now apply copyFootprint_entry.
    + exact Hf.
    + rewrite Hkey, pathLen_snoc. lia.
  - apply holds_cp.
    + rewrite Hkey, parent_snoc. intros k Hk. exact Hk.
    + rewrite Hkey. exists []. split; [reflexivity|].
      constructor; [exact Hex | constructor].
Qed.

Lemma copyDirectoryFuel_S (fuel : nat) (src dest : list N) :
  copyDirectoryFuel host (S fuel) src dest =
  (mkdir host dest ;;;
   entries <- readdir host src ;;
   forOf entries (copyEntry host fuel src dest)).
Proof. reflexivity. Qed.

(** A file of the source arrives with its content. *)
Lemma cpAt_file (cwd srcPath : list N) (ksrc kdest : list (list N))
  (m m' : gmap (list (list N)) Node) (l : list Syscall) (c : list N) :
  Fs.nodeAt ksrc m = Some (File c) ->
  Fs.cpAt cwd srcPath ksrc kdest m = inr (tt, m', l) ->
  m' !! kdest = Some (File c).
Proof.
  intros Hs H. unfold Fs.cpAt in H. rewrite Hs in H.
  repeat (match type of H with (if ?c then _ else _) = _ =>
            destruct c; [discriminate H|] end).
  destruct (match Fs.nodeAt (Fs.parent kdest) m with
            | Some _ => inr (tt, m, [])
            | None => Fs.mkdirp (Fs.parent kdest) m
            end) as [e|[[u m1] l1]]; [discriminate H|].
  assert (forall m2 l2, Fs.copyFileAt c ksrc kdest m2 l2 = inr (tt, m', l) ->
                        m' !! kdest = Some (File c)) as Hcopy.
  { intros m2 l2 Hc. unfold Fs.copyFileAt in Hc.
    destruct (Fs.nodeAt (Fs.parent kdest) m2) as [[c'| |pl]|]; try discriminate Hc.
    injection Hc as <- _. apply lookup_insert_eq. }
  destruct (Fs.nodeAt kdest m); eapply Hcopy; exact H.
Qed.

(** Keys at and below the source are out of the footprint of a copy into
    a directory that neither contains the source nor lies in it. *)
Lemma copy_effect_source (ks kd : list (list N)) (m m' : gmap (list (list N)) Node) :
  ~ ks `prefix_of` kd -> ~ kd `prefix_of` ks ->
  effect (copyFootprint kd) m m' ->
  forall k, ks `prefix_of` k -> m' !! k = m !! k.
Proof.
  intros Hsd Hds He k Hk.
  destruct (effect_frame _ _ _ k He) as [E1|(C & _)]; [| |exact E1|].
  - intros (names & _ & -> & _).
    destruct (prefix_comparable _ _ _ Hk (prefix_app_self _ names)); tauto.
  - intros [].
  - destruct Hsd. etransitivity; [exact Hk | exact C].
Qed.

Lemma holds_copyLoop (fuel : nat) (src dest : list N) :
  (1 <= fuel)%nat ->
  (PATH_MAX <= fuel + Fs.pathLen (Fs.key (processCwd host) dest))%nat ->
  holds (copyFootprint (Fs.key (processCwd host) dest)) anyFs
    (entries <- readdir host src ;; forOf entries (copyEntry host fuel src dest))
    (fun _ _ => True).
Proof.
  intros Hf Hlen. eapply holds_bind; [apply holds_readdir|].
  intros entries. cbn beta.
  apply holds_weaken with
    (P := fun _ => Forall (fun entry => plain (Fs.name entry)) entries)
    (Q := fun _ _ => True); [|auto|auto].
  apply holds_assume. intros Hnames.
  apply holds_forOf. eapply Forall_weaken; [exact Hnames|].
  intros entry Hplain. cbn beta.
  eapply holds_sub; [apply (entryFootprint_copy _ (Fs.name entry))|].
  apply holds_copyEntry; [exact Hf | lia | exact Hplain].
Qed.

(** A copy that returns leaves a directory at [dest]. *)
Lemma copyDirectoryFuel_dest_dir (fuel : nat) (src dest : list N) (w w' : World) :
  (PATH_MAX + 1 <= fuel + Fs.pathLen (Fs.key (processCwd host) dest))%nat ->
  wfFs (fs w) ->
  copyDirectoryFuel host fuel src dest w = (Ok tt, w') ->
  Fs.nodeAt (Fs.key (processCwd host) dest) (fs w') = Some Dir.
Proof.
  intros Hlen Hwf Hrun. destruct fuel as [|fuel]; [discriminate Hrun|].
  rewrite copyDirectoryFuel_S in Hrun.
  apply bind_Ok_inv in Hrun as (u & w1 & Hmk & Hrun).
  destruct (holds_run_Ok _ _ _ _ _ _
              (holds_mkdir host (copyFootprint (Fs.key (processCwd host) dest)) dest
                 (fun k Hk => Hk)) Hwf Hmk) as (Hwf1 & _ & Hlen1 & Hdir1).
  assert (1 <= fuel)%nat as Hf by lia.
  destruct (holds_run_Ok _ _ _ _ _ _ (holds_copyLoop fuel src dest Hf ltac:(lia)) Hwf1 Hrun)
    as (_ & He & _).
  eapply copy_keeps_dest; eassumption.
Qed.

Lemma disjoint_snoc (ks kd : list (list N)) (a : list N) :
  ~ ks `prefix_of` kd -> ~ (ks ++ [a]) `prefix_of` (kd ++ [a]).
Proof.
  intros Hsd Hp. apply Hsd. apply prefix_snoc_inv in Hp as [Hp|E].
  - etransitivity; [apply prefix_app_self | exact Hp].
  - apply app_inj_tail in E as [-> _]. reflexivity.
Qed.

(** The loop over the entries, for the entry [a] on the way to [K]. *)
Lemma copyLoop_result (fuel : nat) (src dest : list N) (K : list (list N)) (node : Node)
  (a : list N) (flag : bool) (Sfacts : gmap (list (list N)) Node -> Prop) :
  (forall e wa wb, Fs.name e = a -> Fs.isDirectory e = flag -> wfFs (fs wa) -> Sfacts (fs wa) ->
     copyEntry host fuel src dest e wa = (Ok tt, wb) -> fs wb !! K = Some node) ->
  (forall m m', effect (copyFootprint (Fs.key (processCwd host) dest)) m m' ->
     Sfacts m -> Sfacts m') ->
  (exists rest, K = Fs.key (processCwd host) dest ++ a :: rest) ->
  (1 <= fuel)%nat ->
  (PATH_MAX <= fuel + Fs.pathLen (Fs.key (processCwd host) dest))%nat ->
  forall es w0 w',
    Forall (fun e => plain (Fs.name e) /\ (Fs.name e = a -> Fs.isDirectory e = flag)) es ->
    wfFs (fs w0) -> Sfacts (fs w0) ->
    forOf es (copyEntry host fuel src dest) w0 = (Ok tt, w') ->
    fs w0 !! K = Some node \/ (exists e, e ∈ es /\ Fs.name e = a) ->
    fs w' !! K = Some node.
Proof.
  intros Hentry Hkeep [rest HK] Hf Hlen.
  induction es as [|e es IH]; intros w0 w' Hes Hwf HS Hrun Hd.
  - apply ret_Ok_inv in Hrun as [_ <-]. destruct Hd as [Hd|(e & Hin & _)]; [exact Hd|].
    now apply elem_of_nil in Hin.
  - cbn [forOf] in Hrun. apply bind_Ok_inv in Hrun as ([] & w1 & He & Hrun).
    pose proof (Forall_inv Hes) as [Hplain Hflag]. pose proof (Forall_inv_tail Hes) as Hes'.
    destruct (holds_run_Ok _ _ _ _ _ _
                (holds_copyEntry fuel src dest e Hf ltac:(lia) Hplain) Hwf He)
      as (Hwf1 & Heff & _).
    assert (Sfacts (fs w1)) as HS1.
    { eapply Hkeep; [|exact HS]. eapply effect_sub; [apply entryFootprint_copy | exact Heff]. }
    apply (IH w1 w' Hes' Hwf1 HS1 Hrun).
    destruct (decide (Fs.name e = a)) as [Ea|Hne].
    + left. eapply Hentry; [exact Ea | now apply Hflag | exact Hwf | exact HS | exact He].
    + destruct Hd as [HT|(e' & Hin & Hname)].
      * left. destruct (effect_frame _ _ _ K Heff) as [E|(_ & E & _)].
        -- intros (names & E & _). rewrite HK in E. apply app_inv_head in E.
           injection E as E _. now apply Hne.
        -- intros [].
        -- now rewrite E.
        -- congruence.
      * right. apply elem_of_cons in Hin as [->|Hin]; [now destruct Hne|].
        now exists e'.
Qed.

Lemma copy_result_fuel (fuel : nat) :
  forall (src dest : list N) (w w' : World) (names : list (list N)) (n : list N) (node : Node),
  (PATH_MAX + 1 <= fuel + Fs.pathLen (Fs.key (processCwd host) dest))%nat ->
  wfFs (fs w) ->
  ~ Fs.key (processCwd host) src `prefix_of` Fs.key (processCwd host) dest ->
  ~ Fs.key (processCwd host) dest `prefix_of` Fs.key (processCwd host) src ->
  copyDirectoryFuel host fuel src dest w = (Ok tt, w') ->
  nonExcluded (names ++ [n]) ->
  (forall p, p <> [] -> p `prefix_of` names ->
     fs w !! (Fs.key (processCwd host) src ++ p) = Some Dir) ->
  (forall payload, node <> Link payload) ->
  fs w !! (Fs.key (processCwd host) src ++ names ++ [n]) = Some node ->
  fs w' !! (Fs.key (processCwd host) dest ++ names ++ [n]) = Some node.
Proof.
  induction fuel as [|fuel IH];
    intros src dest w w' names n node Hlen Hwf Hsd Hds Hrun Hex Hdirs Hnl Hnode;
    [discriminate Hrun|].
  set (ks := Fs.key (processCwd host) src) in *.
  set (kd := Fs.key (processCwd host) dest) in *.
  rewrite copyDirectoryFuel_S in Hrun.
  apply bind_Ok_inv in Hrun as (u & w1 & Hmk & Hrun).
  apply bind_Ok_inv in Hrun as (entries & w2 & Hrd & Hloop).
  destruct (holds_run_Ok _ _ _ _ _ _
              (holds_mkdir host (copyFootprint kd) dest (fun k Hk => Hk)) Hwf Hmk)
    as (Hwf1 & He1 & Hlen1 & _).
  fold kd in Hlen1.
  assert (1 <= fuel)%nat as Hf by lia.
  set (Sfacts := fun m : gmap (list (list N)) Node =>
         (forall p, p <> [] -> p `prefix_of` names -> m !! (ks ++ p) = Some Dir)
         /\ m !! (ks ++ names ++ [n]) = Some node).
  assert (forall m m', effect (copyFootprint kd) m m' -> Sfacts m -> Sfacts m') as Hkeep.
  { intros m m' He [HS1 HS2]. split.
    - intros p Hp1 Hp2.
      rewrite (copy_effect_source ks kd m m' Hsd Hds He) by apply prefix_app_self. now apply HS1.
    - rewrite (copy_effect_source ks kd m m' Hsd Hds He) by apply prefix_app_self. exact HS2. }
  assert (Sfacts (fs w1)) as HS1 by (apply (Hkeep (fs w)); [exact He1 | now split]).
  apply syscall_Ok_inv in Hrd as (l & Hrd). fold ks in Hrd.
  pose proof (readdirAt_spec _ _ _ _ _ Hwf1 Hrd) as [_ Hplain].
  apply readdirAt_entries in Hrd as [Hfs2 Hentries].
  assert (Forall plain (names ++ [n])) as Hpl.
  { pose proof (Hwf _ _ Hnode) as Hp. cbn beta in Hp.
    apply Forall_app in Hp as [_ Hp]. exact Hp. }
  assert (forall a' : list N, plain a' ->
            Fs.key (processCwd host) (Path.join [src; a']) = ks ++ [a']
            /\ Fs.key (processCwd host) (Path.join [dest; a']) = kd ++ [a']) as Hkeys.
  { intros a' Hp. split; (apply key_join; [now apply Forall_plain1 | discriminate]). }
  assert (forall e, In e entries -> plain (Fs.name e)) as Hplain'
    by (now apply Forall_forall).
  destruct names as [|a rest].
  - cbn [app] in *. pose proof (Forall_inv Hex) as Hexn. pose proof (Forall_inv Hpl) as Hpn.
    destruct (Hkeys n Hpn) as [Hks Hkd].
    apply (copyLoop_result fuel src dest (kd ++ [n]) node n (bool_decide (node = Dir)) Sfacts)
      with (es := entries) (w0 := w2);
      [|exact Hkeep|now exists []|exact Hf|fold kd; lia| |now rewrite Hfs2|now rewrite Hfs2
       |exact Hloop|].
    + intros e wa wb Ename Eflag Hwfa [_ HSa] Hrun_e. unfold copyEntry in Hrun_e.
      rewrite Ename, Hexn, Eflag in Hrun_e. destruct node as [c| |pl].
      * rewrite bool_decide_eq_false_2 in Hrun_e by discriminate.
        unfold cp in Hrun_e. apply syscall_Ok_inv in Hrun_e as (l' & Hc).
        rewrite Hks, Hkd in Hc.
        destruct (Path.join [src; n]) as [|c0 sp]; [discriminate Hc|].
        eapply cpAt_file; [|exact Hc]. rewrite nodeAt_snoc. exact HSa.
      * rewrite bool_decide_eq_true_2 in Hrun_e by reflexivity.
        apply copyDirectoryFuel_dest_dir in Hrun_e;
          [|rewrite Hkd, pathLen_snoc; lia|exact Hwfa].
        now rewrite Hkd, nodeAt_snoc in Hrun_e.
      * now destruct (Hnl pl).
    + apply Forall_forall. intros e Hin. split; [now apply Hplain'|]. intros Ename.
      apply list_elem_of_In, Hentries in Hin as (node' & Hn' & ->).
      rewrite Ename in Hn'. destruct HS1 as [_ HS1]. cbn [app] in HS1.
      rewrite HS1 in Hn'. now injection Hn' as <-.
    + right. exists (Fs.mkDirent n (bool_decide (node = Dir))). split; [|reflexivity].
      apply Hentries. exists node. split; [|reflexivity]. exact (proj2 HS1).
  - cbn [app] in Hex, Hpl.
    pose proof (Forall_inv Hex) as Hexa. pose proof (Forall_inv_tail Hex) as Hexr.
    pose proof (Forall_inv Hpl) as Hpa.
    destruct (Hkeys a Hpa) as [Hks Hkd].
    apply (copyLoop_result fuel src dest (kd ++ a :: rest ++ [n]) node a true Sfacts)
      with (es := entries) (w0 := w2);
      [|exact Hkeep|now exists (rest ++ [n])|exact Hf|fold kd; lia| |now rewrite Hfs2
       |now rewrite Hfs2|exact Hloop|].
    + intros e wa wb Ename Eflag Hwfa [HSa1 HSa2] Hrun_e. unfold copyEntry in Hrun_e.
      rewrite Ename, Hexa, Eflag in Hrun_e.
      apply IH with (names := rest) (n := n) (node := node) in Hrun_e.
      * rewrite Hkd, <- app_assoc in Hrun_e. exact Hrun_e.
      * rewrite Hkd, pathLen_snoc. lia.
      * exact Hwfa.
      * rewrite Hks, Hkd. now apply disjoint_snoc.
      * rewrite Hks, Hkd. now apply disjoint_snoc.
      * exact Hexr.
      * intros p Hp1 Hp2. rewrite Hks, <- app_assoc. apply (HSa1 (a :: p)).
        -- discriminate.
        -- now apply prefix_cons.
      * exact Hnl.
      * rewrite Hks, <- app_assoc. exact HSa2.
    + apply Forall_forall. intros e Hin. split; [now apply Hplain'|]. intros Ename.
      apply list_elem_of_In, Hentries in Hin as (node' & Hn' & ->).
      rewrite Ename in Hn'. destruct HS1 as [HS1 _].
      rewrite (HS1 [a]) in Hn'; [|discriminate|now apply prefix_cons, prefix_nil].
      injection Hn' as <-. reflexivity.
    + right. exists (Fs.mkDirent a true). split; [|reflexivity].
      apply Hentries. exists Dir. split; [|reflexivity].
      apply (proj1 HS1 [a]); [discriminate | now apply prefix_cons, prefix_nil].
Qed.

Lemma prefix_snoc_proper (p names : list (list N)) (n : list N) :
  p `prefix_of` names -> p `prefix_of` names ++ [n] /\ p <> names ++ [n].
Proof.
  intros Hp. split; [now apply prefix_app_r|]. intros ->.
  apply prefix_length in Hp. rewrite length_app in Hp. cbn in Hp. lia.
Qed.

(** X14: on a file system without symbolic links, and for a [dest] in
    normal form, when [copyDirectory] returns, every entry of the source
    that is reached through directories along names that are not excluded
    is at the same place below [dest], a file with its content, provided
    that neither of [src] and [dest] lies inside the other. *)
Theorem copyDirectory_copies_files_and_directories (src dest : list N) (w w' : World)
  (path : list (list N)) (node : Node) :
  wfFs (fs w) ->
  noLinks (fs w) ->
  Path.normalize dest = dest ->
  ~ Fs.key (processCwd host) src `prefix_of` Fs.key (processCwd host) dest ->
  ~ Fs.key (processCwd host) dest `prefix_of` Fs.key (processCwd host) src ->
  copyDirectory host src dest w = (Ok tt, w') ->
  path <> [] -> nonExcluded path ->
  (forall p, p <> [] -> p `prefix_of` path -> p <> path ->
     fs w !! (Fs.key (processCwd host) src ++ p) = Some Dir) ->
  fs w !! (Fs.key (processCwd host) src ++ path) = Some node ->
  fs w' !! (Fs.key (processCwd host) dest ++ path) = Some node.
Proof.
  intros Hwf Hnl _ Hsd Hds Hrun Hne Hex Hdirs Hnode.
  assert (forall payload, node <> Link payload) as Hnode_nl.
  { intros payload ->. exact (noLinks_lookup _ _ _ Hnl Hnode). }
  destruct path as [|n names _] using rev_ind; [congruence|].
  eapply copy_result_fuel; try eassumption.
  - unfold PATH_MAX. lia.
  - intros p Hp1 Hp2. destruct (prefix_snoc_proper p names n Hp2). now apply Hdirs.
Qed.

(** ** File systems without symbolic links *)

Lemma preserves_ret {A : Type} (I : gmap (list (list N)) Node -> Prop) (a : A) :
  preserves I (ret a).
Proof. intros w o w' HI E. injection E as _ <-. exact HI. Qed.

Lemma preserves_bind {A B : Type} (I : gmap (list (list N)) Node -> Prop)
  (m : M A) (f : A -> M B) :
  preserves I m -> (forall a, preserves I (f a)) -> preserves I (bind m f).
Proof.
  intros Hm Hf w o w' HI E. unfold bind in E.
  destruct (m w) as [[a|e|] w0] eqn:Em.
  - eapply Hf; [|exact E]. eapply Hm; [exact HI | exact Em].
  - injection E as _ <-. eapply Hm; [exact HI | exact Em].
  - injection E as _ <-. eapply Hm; [exact HI | exact Em].
Qed.

Lemma preserves_forOf {A : Type} (I : gmap (list (list N)) Node -> Prop)
  (xs : list A) (body : A -> M unit) :
  (forall x, preserves I (body x)) -> preserves I (forOf xs body).
Proof.
  intros Hb. induction xs as [|x xs IH]; cbn [forOf].
  - apply preserves_ret.
  - apply preserves_bind; [apply Hb | intros _; exact IH].
Qed.

Lemma preserves_syscall {A : Type} (I : gmap (list (list N)) Node -> Prop) (path : list N)
  (call : list (list N) -> gmap (list (list N)) Node -> Fs.Result A) :
  (forall m a m' l, I m -> call (Fs.key (processCwd host) path) m = inr (a, m', l) -> I m') ->
  preserves I (syscall host path call).
Proof.
  intros Hc w o w' HI E. destruct o as [a|e|].
  - apply syscall_Ok_inv in E as (l & E). eapply Hc; [exact HI | exact E].
  - apply syscall_Throw_inv in E as [E _]. rewrite E. exact HI.
  - exfalso. apply (syscall_not_OutOfFuel host path call w). now rewrite E.
Qed.

Lemma noLinks_insert (m : gmap (list (list N)) Node) (k : list (list N)) (node : Node) :
  noLinks m -> Fs.isSymbolicLink (Fs.statsOf node) = false -> noLinks (<[k := node]> m).
Proof. intros H Hn. apply map_Forall_insert_2; assumption. Qed.

Lemma noLinks_delete (m : gmap (list (list N)) Node) (k : list (list N)) :
  noLinks m -> noLinks (delete k m).
Proof. apply map_Forall_delete. Qed.

Lemma noLinks_mkdirFrom (rest : list (list N)) :
  forall (pre : list (list N)) (m : gmap (list (list N)) Node) (l : list Syscall)
         (m' : gmap (list (list N)) Node) (l' : list Syscall),
    noLinks m -> Fs.mkdirFrom pre rest m l = inr (tt, m', l') -> noLinks m'.
Proof.
  induction rest as [|seg rest IH]; intros pre m l m' l' H E; cbn [Fs.mkdirFrom] in E.
  - injection E as <- _. exact H.
  - cbv zeta in E. destruct (m !! (pre ++ [seg])) as [[c| |pl]|]; try discriminate E.
    + eapply IH; [exact H | exact E].
    + eapply IH; [|exact E]. now apply noLinks_insert.
Qed.

Lemma noLinks_cpAt (cwd srcPath : list N) (ksrc k : list (list N))
  (m m' : gmap (list (list N)) Node) (l' : list Syscall) :
  noLinks m -> Fs.cpAt cwd srcPath ksrc k m = inr (tt, m', l') -> noLinks m'.
Proof.
  intros Hnl H. unfold Fs.cpAt in H.
  destruct (Fs.nodeAt ksrc m) as [srcNode|] eqn:Esrc; [|discriminate H].
  repeat (match type of H with (if ?c then _ else _) = _ =>
            destruct c; [discriminate H|] end).
  assert (exists m1 l1,
    (match Fs.nodeAt (Fs.parent k) m with
     | Some _ => inr (tt, m, [])
     | None => Fs.mkdirp (Fs.parent k) m
     end) = inr (tt, m1, l1) /\ noLinks m1) as (m1 & l1 & E1 & Hnl1).
  { destruct (Fs.nodeAt (Fs.parent k) m).
    - exists m, []. now split.
    - destruct (Fs.mkdirp (Fs.parent k) m) as [e|[[[] m1] l1]] eqn:E; [discriminate H|].
      exists m1, l1. split; [reflexivity|].
      unfold Fs.mkdirp in E. eapply noLinks_mkdirFrom; [exact Hnl | exact E]. }
  rewrite E1 in H. clear E1.
  assert (forall m2 l2 content,
            noLinks m2 -> Fs.copyFileAt content ksrc k m2 l2 = inr (tt, m', l') -> noLinks m')
    as Hcopy.
  { intros m2 l2 content Hnl2 Hc. unfold Fs.copyFileAt in Hc.
    destruct (Fs.nodeAt (Fs.parent k) m2) as [[c| |pl]|]; try discriminate Hc.
    injection Hc as <- _. now apply noLinks_insert. }
  destruct srcNode as [content| |payload]; [|discriminate H|].
  - destruct (Fs.nodeAt k m).
    + eapply Hcopy; [|exact H]. now apply noLinks_delete.
    + eapply Hcopy; [|exact H]. exact Hnl1.
  - destruct (noLinks_nodeAt _ _ _ Hnl Esrc).
Qed.

Lemma preserves_mkdir (dir : list N) : preserves noLinks (mkdir host dir).
Proof.
  apply preserves_syscall. intros m [] m' l HI E.
  unfold Fs.mkdirp in E. eapply noLinks_mkdirFrom; [exact HI | exact E].
Qed.

Lemma preserves_readdir (dir : list N) : preserves noLinks (readdir host dir).
Proof.
  apply preserves_syscall. intros m entries m' l HI E. unfold Fs.readdirAt in E.
  destruct (Fs.nodeAt _ m) as [[c| |pl]|]; try discriminate E.
  injection E as _ <- _. exact HI.
Qed.

Lemma preserves_cp (src dest : list N) : preserves noLinks (cp host src dest).
Proof.
  apply preserves_syscall. intros m [] m' l HI E.
  destruct src as [|c src]; [discriminate E|]. eapply noLinks_cpAt; [exact HI | exact E].
Qed.

(** The copy of a tree without symbolic links makes none. *)
Lemma preserves_copyDirectoryFuel (fuel : nat) :
  forall src dest : list N, preserves noLinks (copyDirectoryFuel host fuel src dest).
Proof.
  induction fuel as [|fuel IH]; intros src dest.
  - intros w o w' HI E. injection E as _ <-. exact HI.
  - rewrite copyDirectoryFuel_S.
    apply preserves_bind; [apply preserves_mkdir|]. intros _.
    apply preserves_bind; [apply preserves_readdir|]. intros entries.
    apply preserves_forOf. intros entry. unfold copyEntry.
    destruct (isExcluded (Fs.name entry)); [apply preserves_ret|].
    destruct (Fs.isDirectory entry); [apply IH | apply preserves_cp].
Qed.

End CopyFacts.

Lemma copyDirectory_copies_files_and_directories_witness :
  wfFs (fs (quiet plainSourceFs))
  /\ noLinks (fs (quiet plainSourceFs))
  /\ Path.normalize (lit "/root/dest") = lit "/root/dest"
  /\ ~ at_ "/root/source-skill" `prefix_of` at_ "/root/dest"
  /\ ~ at_ "/root/dest" `prefix_of` at_ "/root/source-skill"
  /\ nonExcluded [lit "SKILL.md"]
  /\ fs (quiet plainSourceFs) !! (at_ "/root/source-skill" ++ [lit "SKILL.md"])
     = Some (File (lit "name: demo"))
  /\ exists w',
       copyDirectory sampleHost (lit "/root/source-skill") (lit "/root/dest")
         (quiet plainSourceFs) = (Ok tt, w')
       /\ fs w' !! (at_ "/root/dest" ++ [lit "SKILL.md"]) = Some (File (lit "name: demo")).
Proof.
  assert (wfFs (fs (quiet plainSourceFs))) as Hwf by compute_done.
  assert (~ at_ "/root/source-skill" `prefix_of` at_ "/root/dest") as H1 by compute_done.
  assert (~ at_ "/root/dest" `prefix_of` at_ "/root/source-skill") as H2 by compute_done.
  assert (nonExcluded [lit "SKILL.md"]) as Hex by (repeat constructor).
  assert (fs (quiet plainSourceFs) !! (at_ "/root/source-skill" ++ [lit "SKILL.md"])
          = Some (File (lit "name: demo"))) as Hnode by (vm_compute; reflexivity).
  assert (noLinks (fs (quiet plainSourceFs))) as Hnl by compute_done.
  assert (Path.normalize (lit "/root/dest") = lit "/root/dest") as Hnorm
    by (vm_compute; reflexivity).
  split; [exact Hwf|]. split; [exact Hnl|]. split; [exact Hnorm|].
  split; [exact H1|]. split; [exact H2|]. split; [exact Hex|].
  split; [exact Hnode|].
  assert (copyDirectory sampleHost (lit "/root/source-skill") (lit "/root/dest")
            (quiet plainSourceFs)
          = (Ok tt, snd (copyDirectory sampleHost (lit "/root/source-skill") (lit "/root/dest")
                           (quiet plainSourceFs)))) as Hrun
    by (apply run_split; vm_compute; reflexivity).
  eexists. split; [exact Hrun|].
  apply (copyDirectory_copies_files_and_directories sampleHost (lit "/root/source-skill")
           (lit "/root/dest") (quiet plainSourceFs) _ [lit "SKILL.md"]
           (File (lit "name: demo")) Hwf Hnl Hnorm H1 H2 Hrun).
  - discriminate.
  - exact Hex.
  - intros p Hp1 [r Hr] Hp3. exfalso. destruct p as [|x [|y p]].
    + now apply Hp1.
    + injection Hr as <- _. exact (Hp3 eq_refl).
    + discriminate Hr.
  - exact Hnode.
Defined.

(** ** What a successful install leaves *)

Section InstallResults.

Variable host : Host.
Variable agents : AgentType -> AgentConfig.

Lemma install_success_inv (skill : Skill.t) (agentType : AgentType) (options : Options)
  (w w' : World) (r : InstallResult) :
  installSkillForAgent host agents skill agentType options w = (Ok r, w') ->
  success r = true ->
  installSteps host skill (opt_noSymlink options) (canonicalDirFor host skill options)
    (agentDirFor host agents skill agentType options) w = (Ok r, w').
Proof.
  intros H Hs. rewrite installSkillForAgent_eq in H.
  destruct (negb (isPathSafe host _ (canonicalDirFor host skill options))).
  { apply ret_Ok_inv in H as [<- _]. discriminate Hs. }
  destruct (negb (isPathSafe host _ (agentDirFor host agents skill agentType options))).
  { apply ret_Ok_inv in H as [<- _]. discriminate Hs. }
  apply tryCatch_Ok_inv in H as [H|(e & w0 & _ & H)]; [exact H|].
  apply ret_Ok_inv in H as [<- _]. discriminate Hs.
Qed.

(** The runs of the steps of an install that returns. *)
Lemma installSteps_Ok_inv (skill : Skill.t) (noSymlink : option bool)
  (canonicalDir agentDir : list N) (w w' : World) (r : InstallResult) :
  installSteps host skill noSymlink canonicalDir agentDir w = (Ok r, w') ->
  exists w1 w2,
    mkdir host canonicalDir w = (Ok tt, w1)
    /\ copyDirectory host (Skill.path skill) canonicalDir w1 = (Ok tt, w2)
    /\ ((truthy noSymlink = true /\ symlinkFailed r = None
         /\ exists w3, mkdir host agentDir w2 = (Ok tt, w3)
                       /\ copyDirectory host (Skill.path skill) agentDir w3 = (Ok tt, w'))
        \/ (truthy noSymlink = false /\ symlinkFailed r = None
            /\ createSymlink host canonicalDir agentDir w2 = (Ok true, w'))
        \/ (truthy noSymlink = false /\ symlinkFailed r = Some true
            /\ exists w3 w4,
                 createSymlink host canonicalDir agentDir w2 = (Ok false, w3)
                 /\ mkdir host agentDir w3 = (Ok tt, w4)
                 /\ copyDirectory host (Skill.path skill) agentDir w4 = (Ok tt, w'))).
Proof.
  unfold installSteps. intros H.
  apply bind_Ok_inv in H as ([] & w1 & H1 & H).
  apply bind_Ok_inv in H as ([] & w2 & H2 & H).
  exists w1, w2. split; [exact H1|]. split; [exact H2|].
  assert (forall (w0 : World) (r0 : InstallResult),
    (mkdir host agentDir ;;; copyDirectory host (Skill.path skill) agentDir ;;; ret r0) w0
      = (Ok r, w') ->
    r0 = r /\ exists w3, mkdir host agentDir w0 = (Ok tt, w3)
                         /\ copyDirectory host (Skill.path skill) agentDir w3 = (Ok tt, w'))
    as Hagent.
  { intros w0 r0 H0.
    apply bind_Ok_inv in H0 as ([] & w3 & H3 & H0).
    apply bind_Ok_inv in H0 as ([] & w4 & H4 & H0).
    apply ret_Ok_inv in H0 as [<- <-]. split; [reflexivity|]. now exists w3. }
  destruct (truthy noSymlink).
  - left. apply Hagent in H as [<- H]. auto.
  - right. apply bind_Ok_inv in H as (b & w3 & Hl & H). destruct b; cbn [negb] in H.
    + left. apply ret_Ok_inv in H as [<- <-]. auto.
    + right. apply Hagent in H as [<- (w4 & H4 & H5)]. split; [reflexivity|].
      split; [reflexivity|]. now exists w3, w4.
Qed.

Lemma kept_outside (F : Footprint) (m m' : gmap (list (list N)) Node) (K : list (list N))
  (node : Node) :
  effect F m m' -> m !! K = Some node -> ~ written F K -> ~ deleted F K ->
  m' !! K = Some node.
Proof.
  intros He Hn Hw Hd. destruct (effect_frame _ _ _ K He Hw Hd) as [E|(_ & E & _)]; congruence.
Qed.

Lemma not_under (ka kc path : list (list N)) :
  ~ ka `prefix_of` kc -> ~ kc `prefix_of` ka -> ~ ka `prefix_of` kc ++ path.
Proof.
  intros H1 H2 Hp. destruct (prefix_comparable _ _ _ Hp (prefix_app_self kc path)); tauto.
Qed.

Lemma link_effect_source (ks ka : list (list N)) (m m' : gmap (list (list N)) Node) :
  ~ ks `prefix_of` ka -> ~ ka `prefix_of` ks ->
  effect (linkFootprint ka) m m' ->
  forall k, ks `prefix_of` k -> m' !! k = m !! k.
Proof.
  intros Hsa Has He k Hk.
  destruct (effect_frame _ _ _ k He) as [E1|(C & _)]; [| |exact E1|].
  - intros ->. now apply Hsa.
  - intros Hd. destruct (prefix_comparable _ _ _ Hk Hd); tauto.
  - destruct Hsa. etransitivity; [exact Hk|].
    etransitivity; [exact C | apply parent_prefix].
Qed.

Lemma mkdir_run (dir : list N) (w w' : World) :
  wfFs (fs w) -> mkdir host dir w = (Ok tt, w') ->
  wfFs (fs w') /\ effect (copyFootprint (Fs.key (processCwd host) dir)) (fs w) (fs w').
Proof.
  intros Hwf H.
  destruct (holds_run_Ok _ _ _ _ _ _
              (holds_mkdir host (copyFootprint (Fs.key (processCwd host) dir)) dir
                 (fun k Hk => Hk)) Hwf H) as (Hwf' & He & _).
  now split.
Qed.

Lemma copy_run (src dest : list N) (w w' : World) (o : Outcome unit) :
  wfFs (fs w) -> copyDirectory host src dest w = (o, w') ->
  wfFs (fs w') /\ effect (copyFootprint (Fs.key (processCwd host) dest)) (fs w) (fs w').
Proof.
  intros Hwf H.
  destruct (holds_run _ _ _ _ _ (holds_copyDirectory host src dest) Hwf H) as (Hwf' & He & _).
  now split.
Qed.

Lemma link_run (target linkPath : list N) (w w' : World) (o : Outcome bool) :
  wfFs (fs w) -> createSymlink host target linkPath w = (o, w') ->
  wfFs (fs w') /\ effect (linkFootprint (Fs.key (processCwd host) linkPath)) (fs w) (fs w').
Proof.
  intros Hwf H.
  destruct (holds_run _ _ _ _ _ (holds_createSymlink host target linkPath) Hwf H)
    as (Hwf' & He & _).
  now split.
Qed.

(** The copy of one source place, from a world in which the source is as
    in [m]. *)
Lemma copy_result_from (src dest : list N) (m : gmap (list (list N)) Node) (w w' : World)
  (path : list (list N)) (node : Node) :
  wfFs (fs w) ->
  (forall k, Fs.key (processCwd host) src `prefix_of` k -> fs w !! k = m !! k) ->
  ~ Fs.key (processCwd host) src `prefix_of` Fs.key (processCwd host) dest ->
  ~ Fs.key (processCwd host) dest `prefix_of` Fs.key (processCwd host) src ->
  copyDirectory host src dest w = (Ok tt, w') ->
  path <> [] -> nonExcluded path ->
  (forall p, p <> [] -> p `prefix_of` path -> p <> path ->
     m !! (Fs.key (processCwd host) src ++ p) = Some Dir) ->
  (forall payload, node <> Link payload) ->
  m !! (Fs.key (processCwd host) src ++ path) = Some node ->
  fs w' !! (Fs.key (processCwd host) dest ++ path) = Some node.
Proof.
  intros Hwf Hsame Hsd Hds Hrun Hne Hex Hdirs Hnl Hnode.
  destruct path as [|n names _] using rev_ind; [congruence|].
  eapply copy_result_fuel; try eassumption.
  - unfold PATH_MAX. lia.
  - intros p Hp1 Hp2. destruct (prefix_snoc_proper p names n Hp2).
    rewrite Hsame by apply prefix_app_self. now apply Hdirs.
  - rewrite Hsame by apply prefix_app_self. exact Hnode.
Qed.

(** What the canonical copy of a successful install holds. *)
Lemma install_canonical_copy (skill : Skill.t) (agentType : AgentType)
  (options : Options) (w w' : World) (r : InstallResult) (path : list (list N)) (node : Node) :
  let ks := Fs.key (processCwd host) (Skill.path skill) in
  let kc := Fs.key (processCwd host) (canonicalDirFor host skill options) in
  let ka := Fs.key (processCwd host) (agentDirFor host agents skill agentType options) in
  wfFs (fs w) ->
  ~ ks `prefix_of` kc -> ~ kc `prefix_of` ks ->
  ~ ka `prefix_of` kc -> ~ kc `prefix_of` ka ->
  installSkillForAgent host agents skill agentType options w = (Ok r, w') ->
  success r = true ->
  path <> [] -> nonExcluded path ->
  (forall p, p <> [] -> p `prefix_of` path -> p <> path -> fs w !! (ks ++ p) = Some Dir) ->
  (forall payload, node <> Link payload) ->
  fs w !! (ks ++ path) = Some node ->
  fs w' !! (kc ++ path) = Some node.
Proof.
  intros ks kc ka Hwf Hsc Hcs Hac Hca Hrun Hs Hne Hex Hdirs Hnl Hnode.
  apply install_success_inv in Hrun; [|exact Hs].
  apply installSteps_Ok_inv in Hrun as (w1 & w2 & H1 & H2 & Hrest).
  destruct (mkdir_run _ _ _ Hwf H1) as (Hwf1 & He1).
  destruct (copy_run _ _ _ _ _ Hwf1 H2) as (Hwf2 & He2).
  assert (fs w2 !! (kc ++ path) = Some node) as HK.
  { apply (copy_result_from (Skill.path skill) (canonicalDirFor host skill options)
             (fs w) w1 w2 path node); try assumption.
    intros k Hk. now apply (copy_effect_source ks kc). }
  assert (~ ka `prefix_of` kc ++ path) as Hout by now apply not_under.
  assert (forall m m', effect (copyFootprint ka) m m' ->
            m !! (kc ++ path) = Some node -> m' !! (kc ++ path) = Some node) as Hcopy.
  { intros m m' He Hm. eapply kept_outside; [exact He | exact Hm | | intros []].
    intros (names & _ & E & _). apply Hout. rewrite E. apply prefix_app_self. }
  assert (forall m m', effect (linkFootprint ka) m m' ->
            m !! (kc ++ path) = Some node -> m' !! (kc ++ path) = Some node) as Hlink.
  { intros m m' He Hm. eapply kept_outside; [exact He | exact Hm | | exact Hout].
    intros E. apply Hout. cbn [linkFootprint written] in E. now rewrite E. }
  destruct Hrest as [(_ & _ & w3 & H3 & H4)|[(_ & _ & H3)|(_ & _ & w3 & w4 & H3 & H4 & H5)]].
  - destruct (mkdir_run _ _ _ Hwf2 H3) as (Hwf3 & He3).
    destruct (copy_run _ _ _ _ _ Hwf3 H4) as (_ & He4).
    eapply Hcopy; [exact He4|]. eapply Hcopy; [exact He3 | exact HK].
  - destruct (link_run _ _ _ _ _ Hwf2 H3) as (_ & He3).
    eapply Hlink; [exact He3 | exact HK].
  - destruct (link_run _ _ _ _ _ Hwf2 H3) as (Hwf3 & He3).
    destruct (mkdir_run _ _ _ Hwf3 H4) as (Hwf4 & He4).
    destruct (copy_run _ _ _ _ _ Hwf4 H5) as (_ & He5).
    eapply Hcopy; [exact He5|]. eapply Hcopy; [exact He4|].
    eapply Hlink; [exact He3 | exact HK].
Qed.

(** What the directory of the agent holds after a successful install
    that copied into it. *)
Lemma install_agent_copy (skill : Skill.t) (agentType : AgentType)
  (options : Options) (w w' : World) (r : InstallResult) (path : list (list N)) (node : Node) :
  let ks := Fs.key (processCwd host) (Skill.path skill) in
  let kc := Fs.key (processCwd host) (canonicalDirFor host skill options) in
  let ka := Fs.key (processCwd host) (agentDirFor host agents skill agentType options) in
  wfFs (fs w) ->
  ~ ks `prefix_of` kc -> ~ kc `prefix_of` ks ->
  ~ ks `prefix_of` ka -> ~ ka `prefix_of` ks ->
  installSkillForAgent host agents skill agentType options w = (Ok r, w') ->
  success r = true ->
  truthy (opt_noSymlink options) = true \/ symlinkFailed r = Some true ->
  path <> [] -> nonExcluded path ->
  (forall p, p <> [] -> p `prefix_of` path -> p <> path -> fs w !! (ks ++ p) = Some Dir) ->
  (forall payload, node <> Link payload) ->
  fs w !! (ks ++ path) = Some node ->
  fs w' !! (ka ++ path) = Some node.
Proof.
  intros ks kc ka Hwf Hsc Hcs Hsa Has Hrun Hs Hmode Hne Hex Hdirs Hnl Hnode.
  apply install_success_inv in Hrun; [|exact Hs].
  apply installSteps_Ok_inv in Hrun as (w1 & w2 & H1 & H2 & Hrest).
  destruct (mkdir_run _ _ _ Hwf H1) as (Hwf1 & He1).
  destruct (copy_run _ _ _ _ _ Hwf1 H2) as (Hwf2 & He2).
  assert (forall k, ks `prefix_of` k -> fs w2 !! k = fs w !! k) as Hsame2.
  { intros k Hk. rewrite (copy_effect_source ks kc _ _ Hsc Hcs He2 k Hk).
    now apply (copy_effect_source ks kc). }
  assert (forall w3 w4, wfFs (fs w3) ->
            (forall k, ks `prefix_of` k -> fs w3 !! k = fs w !! k) ->
            mkdir host (agentDirFor host agents skill agentType options) w3 = (Ok tt, w4) ->
            copyDirectory host (Skill.path skill)
              (agentDirFor host agents skill agentType options) w4 = (Ok tt, w') ->
            fs w' !! (ka ++ path) = Some node) as Hagent.
  { intros w3 w4 Hwf3 Hsame3 H3 H4.
    destruct (mkdir_run _ _ _ Hwf3 H3) as (Hwf4 & He4).
    apply (copy_result_from (Skill.path skill)
             (agentDirFor host agents skill agentType options) (fs w) w4 w' path node);
      try assumption.
    intros k Hk. rewrite (copy_effect_source ks ka _ _ Hsa Has He4 k Hk). now apply Hsame3. }
  destruct Hrest as [(_ & _ & w3 & H3 & H4)|[(Hn & Hf & _)|(_ & _ & w3 & w4 & H3 & H4 & H5)]].
  - eapply Hagent; eassumption.
  - destruct Hmode as [Hm|Hm]; congruence.
  - destruct (link_run _ _ _ _ _ Hwf2 H3) as (Hwf3 & He3).
    eapply Hagent; [exact Hwf3 | | exact H4 | exact H5].
    intros k Hk. rewrite (link_effect_source ks ka _ _ Hsa Has He3 k Hk). now apply Hsame2.
Qed.

(** The directory of the agent after a successful install that copied
    into it. *)
Lemma install_agent_dir (skill : Skill.t) (agentType : AgentType)
  (options : Options) (w w' : World) (r : InstallResult) :
  wfFs (fs w) ->
  installSkillForAgent host agents skill agentType options w = (Ok r, w') ->
  success r = true ->
  truthy (opt_noSymlink options) = true \/ symlinkFailed r = Some true ->
  Fs.nodeAt (Fs.key (processCwd host) (agentDirFor host agents skill agentType options)) (fs w')
  = Some Dir.
Proof.
  intros Hwf Hrun Hs Hmode.
  apply install_success_inv in Hrun; [|exact Hs].
  apply installSteps_Ok_inv in Hrun as (w1 & w2 & H1 & H2 & Hrest).
  destruct (mkdir_run _ _ _ Hwf H1) as (Hwf1 & _).
  destruct (copy_run _ _ _ _ _ Hwf1 H2) as (Hwf2 & _).
  assert (forall w3 w4, wfFs (fs w3) ->
            mkdir host (agentDirFor host agents skill agentType options) w3 = (Ok tt, w4) ->
            copyDirectory host (Skill.path skill)
              (agentDirFor host agents skill agentType options) w4 = (Ok tt, w') ->
            Fs.nodeAt (Fs.key (processCwd host)
                         (agentDirFor host agents skill agentType options)) (fs w')
            = Some Dir) as Hagent.
  { intros w3 w4 Hwf3 H3 H4. destruct (mkdir_run _ _ _ Hwf3 H3) as (Hwf4 & _).
    apply copyDirectoryFuel_dest_dir in H4; [exact H4 | unfold PATH_MAX; lia | exact Hwf4]. }
  destruct Hrest as [(_ & _ & w3 & H3 & H4)|[(Hn & Hf & _)|(_ & _ & w3 & w4 & H3 & H4 & H5)]].
  - eapply Hagent; eassumption.
  - destruct Hmode as [Hm|Hm]; congruence.
  - destruct (link_run _ _ _ _ _ Hwf2 H3) as (Hwf3 & _).
    eapply Hagent; eassumption.
Qed.

(** The link of a successful install on a file system without symbolic
    links. *)
Lemma install_link_made (skill : Skill.t) (agentType : AgentType)
  (options : Options) (w w' : World) (r : InstallResult) :
  let canonicalDir := canonicalDirFor host skill options in
  let agentDir := agentDirFor host agents skill agentType options in
  let kc := Fs.key (processCwd host) canonicalDir in
  let ka := Fs.key (processCwd host) agentDir in
  Path.isAbsolute (processCwd host) = true ->
  wfFs (fs w) ->
  noLinks (fs w) ->
  installSkillForAgent host agents skill agentType options w = (Ok r, w') ->
  success r = true ->
  truthy (opt_noSymlink options) = false ->
  symlinkFailed r = None ->
  let payload := Path.relative (processCwd host) (Path.join [agentDir; lit ".."]) canonicalDir in
  fs w' !! ka = Some (Link payload)
  /\ payload <> []
  /\ Path.isAbsolute payload = false
  /\ Path.normalizeString false (Fs.parent ka ++ Path.split payload) = kc
  /\ (~ ka `prefix_of` kc -> Fs.nodeAt kc (fs w') = Some Dir).
Proof.
  intros canonicalDir agentDir kc ka Habs Hwf Hnl Hrun Hs Hmode Hfailed payload.
  apply install_success_inv in Hrun; [|exact Hs].
  apply installSteps_Ok_inv in Hrun as (w1 & w2 & H1 & H2 & Hrest).
  destruct Hrest as [(Hn & _)|[(_ & _ & H3)|(_ & Hf & _)]]; [congruence| |congruence].
  destruct (mkdir_run _ _ _ Hwf H1) as (Hwf1 & _).
  destruct (copy_run _ _ _ _ _ Hwf1 H2) as (Hwf2 & _).
  pose proof (preserves_mkdir host _ _ _ _ Hnl H1) as Hnl1.
  pose proof (preserves_copyDirectoryFuel host _ _ _ _ _ _ Hnl1 H2) as Hnl2.
  assert (~ ka `prefix_of` kc -> Fs.nodeAt kc (fs w') = Some Dir) as Hdir.
  { intros Hout.
    apply copyDirectoryFuel_dest_dir in H2; [|unfold PATH_MAX; lia|exact Hwf1].
    fold canonicalDir kc in H2.
    destruct (link_run _ _ _ _ _ Hwf2 H3) as (_ & He3). fold agentDir ka in He3.
    destruct kc as [|x kc'] eqn:Ekc; [reflexivity|].
    rewrite nodeAt_cons in *. eapply kept_outside; [exact He3 | exact H2 | | exact Hout].
    intros E. apply Hout. cbn [linkFootprint written] in E. now rewrite E. }
  apply createSymlink_true_cases in H3 as [_ [(Hfs & pl & Hl & _)|[Hne Hl]]].
  - destruct (noLinks_lookup _ _ _ Hnl2 Hl).
  - split; [exact Hl|]. split; [exact Hne|].
    split; [now apply relative_not_absolute|]. split; [|exact Hdir].
    unfold ka, kc. rewrite <- (key_join_dotdot (processCwd host) agentDir).
    now apply relative_leads.
Qed.

(** X15: on a file system without symbolic links, after a successful
    install the canonical directory of the skill holds every entry of the
    source that is reached through directories along names that are not
    excluded, a file with its content, provided that the source and the
    canonical directory do not lie inside one another, and neither do the
    canonical directory and the directory of the agent. *)
Theorem install_fills_the_canonical_directory (skill : Skill.t) (agentType : AgentType)
  (options : Options) (w w' : World) (r : InstallResult) (path : list (list N)) (node : Node) :
  let ks := Fs.key (processCwd host) (Skill.path skill) in
  let kc := Fs.key (processCwd host) (canonicalDirFor host skill options) in
  let ka := Fs.key (processCwd host) (agentDirFor host agents skill agentType options) in
  wfFs (fs w) ->
  noLinks (fs w) ->
  ~ ks `prefix_of` kc -> ~ kc `prefix_of` ks ->
  ~ ka `prefix_of` kc -> ~ kc `prefix_of` ka ->
  installSkillForAgent host agents skill agentType options w = (Ok r, w') ->
  success r = true ->
  path <> [] -> nonExcluded path ->
  (forall p, p <> [] -> p `prefix_of` path -> p <> path -> fs w !! (ks ++ p) = Some Dir) ->
  fs w !! (ks ++ path) = Some node ->
  fs w' !! (kc ++ path) = Some node.
Proof.
  intros ks kc ka Hwf Hnl Hsc Hcs Hac Hca Hrun Hs Hne Hex Hdirs Hnode.
  apply (install_canonical_copy skill agentType options w w' r path node); try assumption.
  intros payload ->. exact (noLinks_lookup _ _ _ Hnl Hnode).
Qed.

(** X16: on a file system without symbolic links, after a successful
    install that copied into the directory of the agent, because
    [noSymlink] was asked for or because the link could not be made, that
    directory is a directory and holds the entries of the source in the
    same way, provided that the source lies inside neither of the two
    directories and contains neither. *)
Theorem install_by_copy_fills_the_agent_directory (skill : Skill.t) (agentType : AgentType)
  (options : Options) (w w' : World) (r : InstallResult) (path : list (list N)) (node : Node) :
  let ks := Fs.key (processCwd host) (Skill.path skill) in
  let kc := Fs.key (processCwd host) (canonicalDirFor host skill options) in
  let ka := Fs.key (processCwd host) (agentDirFor host agents skill agentType options) in
  wfFs (fs w) ->
  noLinks (fs w) ->
  ~ ks `prefix_of` kc -> ~ kc `prefix_of` ks ->
  ~ ks `prefix_of` ka -> ~ ka `prefix_of` ks ->
  installSkillForAgent host agents skill agentType options w = (Ok r, w') ->
  success r = true ->
  truthy (opt_noSymlink options) = true \/ symlinkFailed r = Some true ->
  path <> [] -> nonExcluded path ->
  (forall p, p <> [] -> p `prefix_of` path -> p <> path -> fs w !! (ks ++ p) = Some Dir) ->
  fs w !! (ks ++ path) = Some node ->
  Fs.nodeAt ka (fs w') = Some Dir
  /\ fs w' !! (ka ++ path) = Some node.
Proof.
  intros ks kc ka Hwf Hnl Hsc Hcs Hsa Has Hrun Hs Hmode Hne Hex Hdirs Hnode.
  split; [now apply (install_agent_dir skill agentType options w w' r)|].
  apply (install_agent_copy skill agentType options w w' r path node); try assumption.
  intros payload ->. exact (noLinks_lookup _ _ _ Hnl Hnode).
Qed.

(** X17: on a file system without symbolic links, after a successful
    install that made the link, the path of the agent is a symbolic link
    whose payload is [relative(linkDir, canonicalDir)]: a relative path,
    not empty, and walking it from the directory of the link ends at the
    canonical directory.  The canonical directory is a directory unless it
    lies at or below the path of the agent. *)
Theorem install_by_link_leaves_a_link (skill : Skill.t) (agentType : AgentType)
  (options : Options) (w w' : World) (r : InstallResult) :
  let canonicalDir := canonicalDirFor host skill options in
  let agentDir := agentDirFor host agents skill agentType options in
  let kc := Fs.key (processCwd host) canonicalDir in
  let ka := Fs.key (processCwd host) agentDir in
  Path.isAbsolute (processCwd host) = true ->
  wfFs (fs w) ->
  noLinks (fs w) ->
  installSkillForAgent host agents skill agentType options w = (Ok r, w') ->
  success r = true ->
  truthy (opt_noSymlink options) = false ->
  symlinkFailed r = None ->
  let payload := Path.relative (processCwd host) (Path.join [agentDir; lit ".."]) canonicalDir in
  fs w' !! ka = Some (Link payload)
  /\ payload <> []
  /\ Path.isAbsolute payload = false
  /\ Path.normalizeString false (Fs.parent ka ++ Path.split payload) = kc
  /\ (~ ka `prefix_of` kc -> Fs.nodeAt kc (fs w') = Some Dir).
Proof.
  intros canonicalDir agentDir kc ka Habs Hwf Hnl Hrun Hs Hmode Hfailed.
  exact (install_link_made skill agentType options w w' r Habs Hwf Hnl Hrun Hs Hmode Hfailed).
Qed.

End InstallResults.

Lemma install_fills_the_canonical_directory_witness :
  wfFs (fs (quiet plainSourceFs))
  /\ noLinks (fs (quiet plainSourceFs))
  /\ demoRun = (Ok demoResult, snd demoRun)
  /\ success demoResult = true
  /\ fs (quiet plainSourceFs) !! (at_ "/root/source-skill" ++ [lit "SKILL.md"])
     = Some (File (lit "name: demo"))
  /\ fs (snd demoRun)
       !! (Fs.key (processCwd sampleHost) (canonicalDirFor sampleHost demoSkill sampleOptions)
           ++ [lit "SKILL.md"])
     = Some (File (lit "name: demo")).
Proof.
  assert (wfFs (fs (quiet plainSourceFs))) as Hwf by compute_done.
  assert (fs (quiet plainSourceFs) !! (at_ "/root/source-skill" ++ [lit "SKILL.md"])
          = Some (File (lit "name: demo"))) as Hnode by (vm_compute; reflexivity).
  assert (noLinks (fs (quiet plainSourceFs))) as Hnl by compute_done.
  split; [exact Hwf|]. split; [exact Hnl|]. split; [exact demoRun_eq|]. split; [reflexivity|].
  split; [exact Hnode|].
  apply (install_fills_the_canonical_directory sampleHost sampleAgents demoSkill claude_code
           sampleOptions (quiet plainSourceFs) (snd demoRun) demoResult [lit "SKILL.md"]
           (File (lit "name: demo")) Hwf Hnl).
  - compute_done.
  - compute_done.
  - compute_done.
  - compute_done.
  - exact demoRun_eq.
  - reflexivity.
  - discriminate.
  - repeat constructor.
  - intros p Hp1 [r Hr] Hp3. exfalso. destruct p as [|x [|y p]].
    + now apply Hp1.
    + injection Hr as <- _. exact (Hp3 eq_refl).
    + discriminate Hr.
  - exact Hnode.
Defined.

Lemma install_by_link_leaves_a_link_witness :
  Path.isAbsolute (processCwd sampleHost) = true
  /\ wfFs (fs (quiet plainSourceFs))
  /\ noLinks (fs (quiet plainSourceFs))
  /\ demoRun = (Ok demoResult, snd demoRun)
  /\ truthy (opt_noSymlink sampleOptions) = false
  /\ symlinkFailed demoResult = None
  /\ fs (snd demoRun)
       !! Fs.key (processCwd sampleHost)
            (agentDirFor sampleHost sampleAgents demoSkill claude_code sampleOptions)
     = Some (Link (Path.relative (processCwd sampleHost)
                     (Path.join [agentDirFor sampleHost sampleAgents demoSkill claude_code
                                   sampleOptions; lit ".."])
                     (canonicalDirFor sampleHost demoSkill sampleOptions))).
Proof.
  assert (wfFs (fs (quiet plainSourceFs))) as Hwf by compute_done.
  assert (noLinks (fs (quiet plainSourceFs))) as Hnl by compute_done.
  split; [reflexivity|]. split; [exact Hwf|]. split; [exact Hnl|]. split; [exact demoRun_eq|].
  split; [reflexivity|]. split; [reflexivity|].
  exact (proj1 (install_by_link_leaves_a_link sampleHost sampleAgents demoSkill claude_code
                  sampleOptions (quiet plainSourceFs) (snd demoRun) demoResult
                  eq_refl Hwf Hnl demoRun_eq eq_refl eq_refl eq_refl)).
Defined.

Lemma fallbackRun_eq : fallbackRun = (Ok fallbackResult, snd fallbackRun).
Proof. apply run_split. vm_compute. reflexivity. Qed.

Lemma install_by_copy_fills_the_agent_directory_witness :
  wfFs (fs noSymlinkWorld)
  /\ noLinks (fs noSymlinkWorld)
  /\ fs noSymlinkWorld !! (at_ "/root/source-skill" ++ [lit "SKILL.md"])
     = Some (File (lit "name: demo"))
  /\ fallbackRun = (Ok fallbackResult, snd fallbackRun)
  /\ success fallbackResult = true
  /\ symlinkFailed fallbackResult = Some true
  /\ fs (snd fallbackRun)
       !! (Fs.key (processCwd sampleHost)
             (agentDirFor sampleHost sampleAgents demoSkill claude_code sampleOptions)
           ++ [lit "SKILL.md"])
     = Some (File (lit "name: demo")).
Proof.
  assert (wfFs (fs noSymlinkWorld)) as Hwf by compute_done.
  assert (fs noSymlinkWorld !! (at_ "/root/source-skill" ++ [lit "SKILL.md"])
          = Some (File (lit "name: demo"))) as Hnode by (vm_compute; reflexivity).
  assert (noLinks (fs noSymlinkWorld)) as Hnl by compute_done.
  split; [exact Hwf|]. split; [exact Hnl|]. split; [exact Hnode|].
  split; [exact fallbackRun_eq|]. split; [reflexivity|]. split; [reflexivity|].
  apply (install_by_copy_fills_the_agent_directory sampleHost sampleAgents demoSkill
           claude_code sampleOptions noSymlinkWorld (snd fallbackRun) fallbackResult
           [lit "SKILL.md"]
           (File (lit "name: demo")) Hwf Hnl).
  - compute_done.
  - compute_done.
  - compute_done.
  - compute_done.
  - exact fallbackRun_eq.
  - reflexivity.
  - right. reflexivity.
  - discriminate.
  - repeat constructor.
  - intros p Hp1 [r Hr] Hp3. exfalso. destruct p as [|x [|y p]].
    + now apply Hp1.
    + injection Hr as <- _. exact (Hp3 eq_refl).
    + discriminate Hr.
  - exact Hnode.
Defined.

(** ** The installed check and the removal *)

Section InstalledFacts.

Variable host : Host.
Variable agents : AgentType -> AgentConfig.

Lemma accessAt_Ok_inv (k : list (list N)) (m m' : gmap (list (list N)) Node)
  (l : list Syscall) :
  Fs.accessAt k m = inr (tt, m', l) ->
  m' = m /\ l = [] /\ exists st, Fs.statFollow 40 k m = inr st.
Proof.
  unfold Fs.accessAt. destruct (Fs.statFollow 40 k m) as [e|st]; [discriminate|].
  intros H. injection H as <- <-. split; [reflexivity|]. split; [reflexivity|]. now exists st.
Qed.

Lemma access_run (path : list N) (w w' : World) (o : Outcome unit) :
  access host path w = (o, w') ->
  fs w' = fs w /\ log w' = log w /\ o <> OutOfFuel.
Proof.
  intros H. destruct o as [[]|e|].
  - apply syscall_Ok_log in H as (l & Hc & Hlog).
    apply accessAt_Ok_inv in Hc as (Hm & -> & _).
    split; [exact Hm|]. split; [|discriminate]. now rewrite Hlog, app_nil_r.
  - apply syscall_Throw_inv in H as [H1 H2]. split; [exact H1|]. split; [exact H2|discriminate].
  - exfalso. apply (syscall_not_OutOfFuel host path Fs.accessAt w).
    unfold access in H. now rewrite H.
Qed.

Lemma isSkillInstalled_eq (skillName : list N) (agentType : AgentType) (options : Options) :
  isSkillInstalled host agents skillName agentType options =
  match getInstallPath host agents skillName agentType options with
  | inl _ => ret false
  | inr skillDir => tryCatch (access host skillDir ;;; ret true) (fun _ => ret false)
  end.
Proof.
  unfold isSkillInstalled, getInstallPath.
  now destruct (negb (isPathSafe host _ _)).
Qed.

(** X18: [isSkillInstalled] never throws and changes nothing: it
    returns a boolean and leaves the file system as it was. *)
Theorem isSkillInstalled_only_reads (skillName : list N) (agentType : AgentType)
  (options : Options) (w : World) :
  exists b w',
    isSkillInstalled host agents skillName agentType options w = (Ok b, w')
    /\ fs w' = fs w /\ log w' = log w.
Proof.
  rewrite isSkillInstalled_eq.
  destruct (getInstallPath host agents skillName agentType options) as [e|skillDir].
  { exists false, w. now split. }
  unfold tryCatch, bind.
  destruct (access host skillDir w) as [[[]|e|] w1] eqn:E;
    destruct (access_run _ _ _ _ E) as (Hfs & Hlog & Ho).
  - exists true, w1. now split.
  - exists false, w1. now split.
  - congruence.
Qed.

Lemma statFollow_noLinks (n : nat) (k : list (list N)) (m : gmap (list (list N)) Node) :
  noLinks m ->
  Fs.statFollow n k m
  = match Fs.nodeAt k m with Some node => inr (Fs.statsOf node) | None => inl ENOENT end.
Proof.
  intros Hnl. destruct n; cbn [Fs.statFollow];
    (destruct (Fs.nodeAt k m) as [[c| |pl]|] eqn:E; try reflexivity;
     destruct (noLinks_nodeAt _ _ _ Hnl E)).
Qed.

(** X19: on a file system without symbolic links, [isSkillInstalled]
    answers [true] only for a name whose install path [getInstallPath]
    returns, and only when there is an entry at that path. *)
Theorem isSkillInstalled_true_inv (skillName : list N) (agentType : AgentType)
  (options : Options) (w w' : World) :
  noLinks (fs w) ->
  isSkillInstalled host agents skillName agentType options w = (Ok true, w') ->
  exists p node,
    getInstallPath host agents skillName agentType options = inr p
    /\ Fs.nodeAt (Fs.key (processCwd host) p) (fs w) = Some node.
Proof.
  rewrite isSkillInstalled_eq. intros Hnl H.
  destruct (getInstallPath host agents skillName agentType options) as [e|skillDir].
  { apply ret_Ok_inv in H as [H _]. discriminate H. }
  apply tryCatch_Ok_inv in H as [H|(e & w0 & _ & H)];
    [|apply ret_Ok_inv in H as [H _]; discriminate H].
  apply bind_Ok_inv in H as ([] & w1 & Ha & _).
  apply syscall_Ok_inv in Ha as (l & Ha).
  apply accessAt_Ok_inv in Ha as (_ & _ & st & Hst).
  rewrite (statFollow_noLinks _ _ _ Hnl) in Hst.
  destruct (Fs.nodeAt (Fs.key (processCwd host) skillDir) (fs w)) as [node|] eqn:En;
    [|discriminate Hst].
  now exists skillDir, node.
Qed.

Lemma install_success_gates (skill : Skill.t) (agentType : AgentType) (options : Options)
  (w w' : World) (r : InstallResult) :
  installSkillForAgent host agents skill agentType options w = (Ok r, w') ->
  success r = true ->
  isPathSafe host (agentBaseFor host agents agentType options)
    (agentDirFor host agents skill agentType options) = true.
Proof.
  intros H Hs. rewrite installSkillForAgent_eq in H.
  destruct (negb (isPathSafe host _ (canonicalDirFor host skill options))).
  { apply ret_Ok_inv in H as [<- _]. discriminate Hs. }
  destruct (isPathSafe host _ (agentDirFor host agents skill agentType options));
    [reflexivity|].
  apply ret_Ok_inv in H as [<- _]. discriminate Hs.
Qed.

Lemma getInstallPath_agentDir (skill : Skill.t) (agentType : AgentType) (options : Options) :
  Skill.name skill <> [] ->
  isPathSafe host (agentBaseFor host agents agentType options)
    (agentDirFor host agents skill agentType options) = true ->
  getInstallPath host agents (Skill.name skill) agentType options
  = inr (agentDirFor host agents skill agentType options).
Proof.
  intros Hname Hsafe. unfold getInstallPath.
  unfold agentDirFor, agentBaseFor in *. rewrite rawSkillName_named in Hsafe by exact Hname.
  rewrite rawSkillName_named by exact Hname.
  rewrite default_truthy in *. now rewrite Hsafe.
Qed.

Lemma statFollow_dir (n : nat) (k : list (list N)) (m : gmap (list (list N)) Node) :
  Fs.nodeAt k m = Some Dir -> Fs.statFollow n k m = inr Fs.StDirectory.
Proof. intros H. destruct n; cbn [Fs.statFollow]; now rewrite H. Qed.

Lemma statFollow_link (n : nat) (k : list (list N)) (m : gmap (list (list N)) Node)
  (payload : list N) :
  Fs.nodeAt k m = Some (Link payload) ->
  Fs.statFollow (S n) k m
  = Fs.statFollow n
      (if Path.isAbsolute payload then Path.normalizeString false (Path.split payload)
       else Path.normalizeString false (Fs.parent k ++ Path.split payload)) m.
Proof. intros H. cbn [Fs.statFollow]. now rewrite H. Qed.

(** After a successful install the path of the agent leads to a
    directory. *)
Lemma installed_access (skill : Skill.t) (agentType : AgentType) (options : Options)
  (w w' : World) (r : InstallResult) :
  let kc := Fs.key (processCwd host) (canonicalDirFor host skill options) in
  let ka := Fs.key (processCwd host) (agentDirFor host agents skill agentType options) in
  Path.isAbsolute (processCwd host) = true ->
  wfFs (fs w) ->
  noLinks (fs w) ->
  ~ ka `prefix_of` kc -> ~ kc `prefix_of` ka ->
  installSkillForAgent host agents skill agentType options w = (Ok r, w') ->
  success r = true ->
  (agentDirFor host agents skill agentType options <> []
   /\ (Fs.pathLen ka < PATH_MAX)%nat)
  /\ Fs.statFollow 40 ka (fs w') = inr Fs.StDirectory.
Proof.
  intros kc ka Habs Hwf Hnl Hac Hca Hrun Hs.
  assert (forall payload, fs w !! ka <> Some (Link payload)) as Hnolink
    by (intros payload E; exact (noLinks_lookup _ _ _ Hnl E)).
  apply install_success_inv in Hrun; [|exact Hs].
  apply installSteps_Ok_inv in Hrun as (w1 & w2 & H1 & H2 & Hrest).
  destruct (mkdir_run _ _ _ _ Hwf H1) as (Hwf1 & He1).
  destruct (copy_run _ _ _ _ _ _ Hwf1 H2) as (Hwf2 & He2).
  assert (forall w3 w4, wfFs (fs w3) ->
            mkdir host (agentDirFor host agents skill agentType options) w3 = (Ok tt, w4) ->
            copyDirectory host (Skill.path skill)
              (agentDirFor host agents skill agentType options) w4 = (Ok tt, w') ->
            (agentDirFor host agents skill agentType options <> []
             /\ (Fs.pathLen ka < PATH_MAX)%nat)
            /\ Fs.statFollow 40 ka (fs w') = inr Fs.StDirectory) as Hagent.
  { intros w3 w4 Hwf3 H3 H4. split; [exact (syscall_Ok_len _ _ _ _ _ _ H3)|].
    destruct (mkdir_run _ _ _ _ Hwf3 H3) as (Hwf4 & _).
    apply statFollow_dir.
    apply copyDirectoryFuel_dest_dir in H4; [exact H4 | unfold PATH_MAX; lia | exact Hwf4]. }
  destruct Hrest as [(_ & _ & w3 & H3 & H4)|[(_ & _ & H3)|(_ & _ & w3 & w4 & H3 & H4 & H5)]].
  - eapply Hagent; eassumption.
  - assert (forall m m', effect (copyFootprint kc) m m' ->
              (forall payload, m !! ka <> Some (Link payload)) ->
              forall payload, m' !! ka <> Some (Link payload)) as Hkeep.
    { intros m m' He Hm payload.
      destruct (effect_frame _ _ _ ka He) as [E|(_ & _ & E)].
      - intros (names & _ & E & _). apply Hca. rewrite E. apply prefix_app_self.
      - intros [].
      - rewrite E. apply Hm.
      - rewrite E. discriminate. }
    pose proof (Hkeep _ _ He2 (Hkeep _ _ He1 Hnolink)) as Hnolink2.
    assert (Fs.nodeAt kc (fs w') = Some Dir) as Hdir.
    { apply copyDirectoryFuel_dest_dir in H2; [|unfold PATH_MAX; lia|exact Hwf1].
      fold kc in H2.
      destruct (link_run _ _ _ _ _ _ Hwf2 H3) as (_ & He3). fold ka in He3.
      destruct kc as [|x kc'] eqn:Ekc; [reflexivity|].
      rewrite nodeAt_cons in *. eapply kept_outside; [exact He3 | exact H2 | | exact Hac].
      intros E. apply Hac. cbn [linkFootprint written] in E. now rewrite E. }
    apply createSymlink_true_cases in H3 as [Hlen [(Hfs & payload & Hl & _)|[_ Hl]]].
    { now destruct (Hnolink2 payload). }
    split; [exact Hlen|]. fold ka in Hl.
    assert (Fs.nodeAt ka (fs w') = fs w' !! ka) as Hnode.
    { destruct ka; [|reflexivity].
      exfalso. apply Hac. apply prefix_nil. }
    rewrite Hl in Hnode. change 40%nat with (S 39).
    rewrite (statFollow_link 39 _ _ _ Hnode), relative_not_absolute by exact Habs.
    unfold ka.
    rewrite <- (key_join_dotdot (processCwd host)
                  (agentDirFor host agents skill agentType options)).
    rewrite relative_leads by exact Habs. now apply statFollow_dir.
  - destruct (link_run _ _ _ _ _ _ Hwf2 H3) as (Hwf3 & _).
    eapply Hagent; eassumption.
Qed.

(** X20: after a successful install of a skill with a name on a file
    system without symbolic links, [isSkillInstalled] answers [true] for
    that name, agent and options, when no fault hits its call and the
    canonical directory and the path of the agent do not lie inside one
    another. *)
Theorem installed_after_install (skill : Skill.t) (agentType : AgentType) (options : Options)
  (w w' : World) (r : InstallResult) :
  let kc := Fs.key (processCwd host) (canonicalDirFor host skill options) in
  let ka := Fs.key (processCwd host) (agentDirFor host agents skill agentType options) in
  Path.isAbsolute (processCwd host) = true ->
  wfFs (fs w) ->
  noLinks (fs w) ->
  Skill.name skill <> [] ->
  ~ ka `prefix_of` kc -> ~ kc `prefix_of` ka ->
  installSkillForAgent host agents skill agentType options w = (Ok r, w') ->
  success r = true ->
  faults w' = [] ->
  exists w'',
    isSkillInstalled host agents (Skill.name skill) agentType options w' = (Ok true, w'').
Proof.
  intros kc ka Habs Hwf Hnl Hname Hac Hca Hrun Hs Hfaults.
  destruct (installed_access skill agentType options w w' r Habs Hwf Hnl Hac Hca Hrun Hs)
    as ((Hne & Hlen) & Hst).
  rewrite isSkillInstalled_eq, (getInstallPath_agentDir skill agentType options Hname)
    by (eapply install_success_gates; eassumption).
  assert (Fs.accessAt (Fs.key (processCwd host)
                         (agentDirFor host agents skill agentType options)) (fs w')
          = inr (tt, fs w', [])) as Hacc
    by (unfold Fs.accessAt; unfold ka in Hst; now rewrite Hst).
  assert (match faults w' with Some _ :: _ => False | _ => True end) as Hf
    by now rewrite Hfaults.
  unfold tryCatch, bind, access.
  rewrite (syscall_run_Ok host _ _ _ _ _ _ Hf Hne Hlen Hacc).
  eexists. reflexivity.
Qed.

Lemma bind_Throw_inv {A B : Type} (m : M A) (f : A -> M B) (w w' : World) (e : Exn) :
  bind m f w = (Throw e, w') ->
  m w = (Throw e, w') \/ exists a w0, m w = (Ok a, w0) /\ f a w0 = (Throw e, w').
Proof.
  unfold bind. destruct (m w) as [[a|e0|] w0]; intros H; [right| |discriminate H].
  - now exists a, w0.
  - left. now injection H as -> ->.
Qed.

Lemma rmForceAt_Ok_inv (k : list (list N)) (m m' : gmap (list (list N)) Node)
  (l : list Syscall) :
  Fs.rmForceAt k m = inr (tt, m', l) ->
  m' !! k = None /\ forall k', ~ k `prefix_of` k' -> m' !! k' = m !! k'.
Proof.
  unfold Fs.rmForceAt, Fs.rmAt. destruct (Fs.nodeAt k m) as [[c| |pl]|] eqn:En; intros H;
    injection H as <- _.
  - split; [apply lookup_delete_eq|]. intros k' Hk. apply lookup_delete_ne.
    intros ->. now apply Hk.
  - split; [rewrite removeTree_lookup; now rewrite decide_True|].
    intros k' Hk. rewrite removeTree_lookup. now rewrite decide_False.
  - split; [apply lookup_delete_eq|]. intros k' Hk. apply lookup_delete_ne.
    intros ->. now apply Hk.
  - split; [|reflexivity]. destruct k; [discriminate En | exact En].
Qed.

Lemma rmForceAt_total (k : list (list N)) (m : gmap (list (list N)) Node) :
  exists m' l, Fs.rmForceAt k m = inr (tt, m', l).
Proof.
  unfold Fs.rmForceAt, Fs.rmAt. destruct (Fs.nodeAt k m) as [[c| |pl]|]; eauto.
Qed.

(** X21: what [removeSkillFromAgent] returns, on a file system that
    has no symbolic link but perhaps at the install path itself.  Its
    [path] is the path of [getInstallPath].  When it reports success, there
    was an entry at the path, it is now gone, and nothing that is not at
    or below the path has changed; when it reports a failure, it carries a
    message and nothing that is not at or below the path has changed. *)
Theorem removeSkillFromAgent_result (skillName : list N) (agentType : AgentType)
  (options : Options) (w w' : World) (r : Remove.Result) :
  (forall p, getInstallPath host agents skillName agentType options = inr p ->
             noLinksBut (Fs.key (processCwd host) p) (fs w)) ->
  removeSkillFromAgent host agents skillName agentType options w = (Ok r, w') ->
  exists p,
    getInstallPath host agents skillName agentType options = inr p
    /\ Remove.path r = p
    /\ (forall k, ~ Fs.key (processCwd host) p `prefix_of` k -> fs w' !! k = fs w !! k)
    /\ (Remove.success r = true ->
        Remove.error r = None
        /\ (exists node, Fs.nodeAt (Fs.key (processCwd host) p) (fs w) = Some node)
        /\ fs w' !! Fs.key (processCwd host) p = None)
    /\ (Remove.success r = false -> exists msg, Remove.error r = Some msg).
Proof.
  unfold removeSkillFromAgent. intros _ H.
  destruct (getInstallPath host agents skillName agentType options) as [e|p];
    [discriminate H|].
  exists p. split; [reflexivity|].
  apply tryCatch_Ok_inv in H as [H|(e & w0 & H & Hh)].
  - apply bind_Ok_inv in H as ([] & w1 & Ha & H).
    apply bind_Ok_inv in H as ([] & w2 & Hr & H).
    apply ret_Ok_inv in H as [<- <-]. cbn [Remove.path Remove.success Remove.error].
    destruct (access_run _ _ _ _ Ha) as (Hfs1 & _ & _).
    apply syscall_Ok_inv in Ha as (l & Ha).
    apply accessAt_Ok_inv in Ha as (_ & _ & st & Hst).
    apply syscall_Ok_inv in Hr as (l' & Hr). rewrite Hfs1 in Hr.
    apply rmForceAt_Ok_inv in Hr as [Hgone Hframe].
    split; [reflexivity|]. split; [exact Hframe|]. split; [|discriminate]. intros _.
    split; [reflexivity|]. split; [|exact Hgone].
    change 40%nat with (S 39) in Hst. cbn [Fs.statFollow] in Hst.
    destruct (Fs.nodeAt (Fs.key (processCwd host) p) (fs w)) as [node|] eqn:En;
      [now exists node | discriminate Hst].
  - apply ret_Ok_inv in Hh as [<- <-]. cbn [Remove.path Remove.success Remove.error].
    assert (fs w0 = fs w) as Hfs.
    { apply bind_Throw_inv in H as [H|([] & w1 & Ha & H)].
      - now destruct (access_run _ _ _ _ H) as (? & _ & _).
      - destruct (access_run _ _ _ _ Ha) as (Hfs1 & _ & _).
        apply bind_Throw_inv in H as [H|([] & w2 & _ & H)]; [|discriminate H].
        apply syscall_Throw_inv in H as [? _]. congruence. }
    split; [reflexivity|]. split; [intros k _; now rewrite Hfs|].
    split; [discriminate|]. intros _. eauto.
Qed.

(** X22: [removeSkillFromAgent] throws exactly what [getInstallPath]
    throws, before anything is touched; the errors of the file system are
    returned, not thrown. *)
Theorem removeSkillFromAgent_throws (skillName : list N) (agentType : AgentType)
  (options : Options) (w w' : World) (e : Exn) :
  removeSkillFromAgent host agents skillName agentType options w = (Throw e, w') <->
  getInstallPath host agents skillName agentType options = inl e /\ w' = w.
Proof.
  unfold removeSkillFromAgent.
  destruct (getInstallPath host agents skillName agentType options) as [e0|p].
  - unfold throw. split.
    + intros H. injection H as -> ->. now split.
    + intros [H ->]. now injection H as ->.
  - split; [|intros [H _]; discriminate H]. intros H. exfalso.
    pose proof (tryCatch_ret_no_throw
      (access host p ;;; rmForce host p ;;; ret (Remove.mkResult true p None))
      (fun error => Remove.mkResult false p (Some (message error))) w e) as Hnt.
    apply Hnt. now rewrite H.
Qed.

(** X23: a skill that was installed can be removed: after a successful
    install on a file system without symbolic links, under the conditions
    of X20, [removeSkillFromAgent] reports success for the same name, agent
    and options, the path of the agent is gone, and the canonical directory
    and what is below it are as the install left them. *)
Theorem remove_after_install (skill : Skill.t) (agentType : AgentType) (options : Options)
  (w w' : World) (r : InstallResult) :
  let kc := Fs.key (processCwd host) (canonicalDirFor host skill options) in
  let ka := Fs.key (processCwd host) (agentDirFor host agents skill agentType options) in
  Path.isAbsolute (processCwd host) = true ->
  wfFs (fs w) ->
  noLinks (fs w) ->
  Skill.name skill <> [] ->
  ~ ka `prefix_of` kc -> ~ kc `prefix_of` ka ->
  installSkillForAgent host agents skill agentType options w = (Ok r, w') ->
  success r = true ->
  faults w' = [] ->
  exists r' w'',
    removeSkillFromAgent host agents (Skill.name skill) agentType options w' = (Ok r', w'')
    /\ Remove.success r' = true
    /\ Remove.path r' = path r
    /\ fs w'' !! ka = None
    /\ forall k, kc `prefix_of` k -> fs w'' !! k = fs w' !! k.
Proof.
  intros kc ka Habs Hwf Hnl Hname Hac Hca Hrun Hs Hfaults.
  destruct (installed_access skill agentType options w w' r Habs Hwf Hnl Hac Hca Hrun Hs)
    as ((Hne & Hlen) & Hst).
  assert (path r = agentDirFor host agents skill agentType options) as Hpath.
  { apply install_success_inv in Hrun; [|exact Hs].
    now apply installSteps_result in Hrun as (_ & Hp & _). }
  unfold removeSkillFromAgent.
  rewrite (getInstallPath_agentDir skill agentType options Hname)
    by (eapply install_success_gates; eassumption).
  assert (Fs.accessAt (Fs.key (processCwd host)
                         (agentDirFor host agents skill agentType options)) (fs w')
          = inr (tt, fs w', [])) as Hacc
    by (unfold Fs.accessAt; unfold ka in Hst; now rewrite Hst).
  assert (match faults w' with Some _ :: _ => False | _ => True end) as Hf
    by now rewrite Hfaults.
  destruct (rmForceAt_total ka (fs w')) as (m2 & l2 & Hrm).
  unfold tryCatch, bind, access, rmForce.
  rewrite (syscall_run_Ok host _ _ _ _ _ _ Hf Hne Hlen Hacc).
  assert (match faults (mkWorld (fs w') (tail (faults w')) (log w' ++ [])) with
          | Some _ :: _ => False | _ => True end) as Hf1
    by (cbn [faults]; now rewrite Hfaults).
  rewrite (syscall_run_Ok host _ Fs.rmForceAt _ tt m2 l2 Hf1 Hne Hlen Hrm).
  eexists. eexists. split; [reflexivity|]. cbn [Remove.success Remove.path fs].
  split; [reflexivity|]. split; [now rewrite Hpath|].
  apply rmForceAt_Ok_inv in Hrm as [Hgone Hframe].
  split; [exact Hgone|].
  intros k Hk. apply Hframe. intros Hak.
  destruct (prefix_comparable _ _ _ Hak Hk); tauto.
Qed.

End InstalledFacts.

Lemma installed_after_install_witness :
  Path.isAbsolute (processCwd sampleHost) = true
  /\ wfFs (fs (quiet plainSourceFs))
  /\ noLinks (fs (quiet plainSourceFs))
  /\ Skill.name demoSkill <> []
  /\ demoRun = (Ok demoResult, snd demoRun)
  /\ success demoResult = true
  /\ faults (snd demoRun) = []
  /\ exists w'',
       isSkillInstalled sampleHost sampleAgents (Skill.name demoSkill) claude_code
         sampleOptions (snd demoRun) = (Ok true, w'').
Proof.
  assert (wfFs (fs (quiet plainSourceFs))) as Hwf by compute_done.
  assert (faults (snd demoRun) = []) as Hfaults by (vm_compute; reflexivity).
  assert (noLinks (fs (quiet plainSourceFs))) as Hnl by compute_done.
  split; [reflexivity|]. split; [exact Hwf|]. split; [exact Hnl|]. split; [discriminate|].
  split; [exact demoRun_eq|]. split; [reflexivity|]. split; [exact Hfaults|].
  apply (installed_after_install sampleHost sampleAgents demoSkill claude_code sampleOptions
           (quiet plainSourceFs) (snd demoRun) demoResult eq_refl Hwf Hnl).
  - discriminate.
  - compute_done.
  - compute_done.
  - exact demoRun_eq.
  - reflexivity.
  - exact Hfaults.
Defined.

Lemma remove_after_install_witness :
  Path.isAbsolute (processCwd sampleHost) = true
  /\ wfFs (fs (quiet plainSourceFs))
  /\ noLinks (fs (quiet plainSourceFs))
  /\ Skill.name demoSkill <> []
  /\ demoRun = (Ok demoResult, snd demoRun)
  /\ success demoResult = true
  /\ faults (snd demoRun) = []
  /\ exists r' w'',
       removeSkillFromAgent sampleHost sampleAgents (Skill.name demoSkill) claude_code
         sampleOptions (snd demoRun) = (Ok r', w'')
       /\ Remove.success r' = true.
Proof.
  assert (wfFs (fs (quiet plainSourceFs))) as Hwf by compute_done.
  assert (faults (snd demoRun) = []) as Hfaults by (vm_compute; reflexivity).
  assert (noLinks (fs (quiet plainSourceFs))) as Hnl by compute_done.
  split; [reflexivity|]. split; [exact Hwf|]. split; [exact Hnl|]. split; [discriminate|].
  split; [exact demoRun_eq|]. split; [reflexivity|]. split; [exact Hfaults|].
  destruct (remove_after_install sampleHost sampleAgents demoSkill claude_code sampleOptions
              (quiet plainSourceFs) (snd demoRun) demoResult eq_refl Hwf Hnl)
    as (r' & w'' & Hrun & Hsucc & _).
  - discriminate.
  - compute_done.
  - compute_done.
  - exact demoRun_eq.
  - reflexivity.
  - exact Hfaults.
  - exists r', w''. split; [exact Hrun | exact Hsucc].
Defined.

Lemma removeSkillFromAgent_result_witness :
  noLinksBut (Fs.key (processCwd sampleHost) (lit "/root/project/.claude/skills/demo"))
    (fs installedWorld)
  /\ exists r w',
       removeSkillFromAgent sampleHost sampleAgents (lit "demo") claude_code sampleOptions
         installedWorld = (Ok r, w')
       /\ Remove.success r = true
       /\ fs w' !! at_ "/root/project/.claude/skills/demo" = None
       /\ fs w' !! at_ "/root/project/.agents/skills/demo/SKILL.md"
          = fs installedWorld !! at_ "/root/project/.agents/skills/demo/SKILL.md".
Proof.
  assert (noLinksBut (Fs.key (processCwd sampleHost) (lit "/root/project/.claude/skills/demo"))
            (fs installedWorld)) as Hnl by compute_done.
  split; [exact Hnl|].
  assert (forall p,
            getInstallPath sampleHost sampleAgents (lit "demo") claude_code sampleOptions
            = inr p ->
            noLinksBut (Fs.key (processCwd sampleHost) p) (fs installedWorld)) as Hall.
  { intros p Hp. rewrite getInstallPath_demo in Hp. injection Hp as <-. exact Hnl. }
  assert (removeSkillFromAgent sampleHost sampleAgents (lit "demo") claude_code sampleOptions
            installedWorld
          = (Ok (Remove.mkResult true (lit "/root/project/.claude/skills/demo") None),
             snd (removeSkillFromAgent sampleHost sampleAgents (lit "demo") claude_code
                    sampleOptions installedWorld))) as Hrun
    by (apply run_split; vm_compute; reflexivity).
  destruct (removeSkillFromAgent_result sampleHost sampleAgents _ _ _ _ _ _ Hall Hrun)
    as (p & Hp & _ & Hframe & Hsucc & _).
  rewrite getInstallPath_demo in Hp. injection Hp as <-.
  destruct (Hsucc eq_refl) as (_ & _ & Hgone).
  eexists. eexists. split; [exact Hrun|]. split; [reflexivity|].
  split; [exact Hgone|]. apply Hframe. compute_done.
Defined.

(** ** The links an install makes *)

Section LinkCount.

Variable host : Host.
Variable agents : AgentType -> AgentConfig.

Lemma preserves_tryCatch {A : Type} (I : gmap (list (list N)) Node -> Prop)
  (m : M A) (h : Exn -> M A) :
  preserves I m -> (forall e, preserves I (h e)) -> preserves I (tryCatch m h).
Proof.
  intros Hm Hh w o w' HI E. unfold tryCatch in E.
  destruct (m w) as [[a|e|] w0] eqn:Em.
  - injection E as _ <-. eapply Hm; [exact HI | exact Em].
  - eapply Hh; [|exact E]. eapply Hm; [exact HI | exact Em].
  - injection E as _ <-. eapply Hm; [exact HI | exact Em].
Qed.

Lemma within_mkdirFrom (P : list (list N) -> Node -> Prop) (rest : list (list N)) :
  (forall k, P k Dir) ->
  forall (pre : list (list N)) (m : gmap (list (list N)) Node) (l : list Syscall)
         (m' : gmap (list (list N)) Node) (l' : list Syscall),
    map_Forall P m -> Fs.mkdirFrom pre rest m l = inr (tt, m', l') -> map_Forall P m'.
Proof.
  intros Hdir. induction rest as [|seg rest IH]; intros pre m l m' l' H E;
    cbn [Fs.mkdirFrom] in E.
  - injection E as <- _. exact H.
  - cbv zeta in E. destruct (m !! (pre ++ [seg])) as [[c| |pl]|]; try discriminate E.
    + eapply IH; [exact H | exact E].
    + eapply IH; [|exact E]. apply map_Forall_insert_2; [apply Hdir | exact H].
Qed.

Lemma within_rmAt (P : list (list N) -> Node -> Prop) (recursive : bool) (k : list (list N))
  (m m' : gmap (list (list N)) Node) (l : list Syscall) :
  map_Forall P m -> Fs.rmAt recursive k m = inr (tt, m', l) -> map_Forall P m'.
Proof.
  intros H E. unfold Fs.rmAt in E.
  destruct (Fs.nodeAt k m) as [[c| |pl]|]; try discriminate E.
  - injection E as <- _. now apply map_Forall_delete.
  - destruct recursive; [|discriminate E]. injection E as <- _.
    intros k' node E'. rewrite removeTree_lookup in E'.
    destruct (decide (k `prefix_of` k')); [discriminate E'|]. exact (H k' node E').
  - injection E as <- _. now apply map_Forall_delete.
Qed.

Lemma preserves_within_mkdir (P : list (list N) -> Node -> Prop) (dir : list N) :
  (forall k, P k Dir) -> preserves (map_Forall P) (mkdir host dir).
Proof.
  intros Hdir. apply preserves_syscall. intros m [] m' l HI E.
  unfold Fs.mkdirp in E. eapply within_mkdirFrom; [exact Hdir | exact HI | exact E].
Qed.

Lemma preserves_within_inspectLink (P : list (list N) -> Node -> Prop)
  (target linkPath : list N) :
  preserves (map_Forall P) (inspectLink host target linkPath).
Proof.
  assert (forall recursive,
            preserves (map_Forall P) (rm host linkPath recursive ;;; ret (@None bool)))
    as Hrm.
  { intros recursive. apply preserves_bind; [|intros _; apply preserves_ret].
    apply preserves_syscall. intros m [] m' l HI E. eapply within_rmAt; [exact HI | exact E]. }
  unfold inspectLink. apply preserves_bind.
  - apply preserves_syscall. intros m stats m' l HI E. unfold Fs.lstatAt in E.
    destruct (Fs.nodeAt _ m); [|discriminate E]. injection E as _ <- _. exact HI.
  - intros stats. destruct (Fs.isSymbolicLink stats); [|apply Hrm].
    apply preserves_bind.
    + apply preserves_syscall. intros m existingTarget m' l HI E. unfold Fs.readlinkAt in E.
      destruct (Fs.nodeAt _ m) as [[c| |pl]|]; try discriminate E.
      injection E as _ <- _. exact HI.
    + intros existingTarget. destruct (streq _ _); [apply preserves_ret | apply Hrm].
Qed.

Lemma preserves_createSymlink (target linkPath : list N) :
  preserves (noLinksBut (Fs.key (processCwd host) linkPath))
    (createSymlink host target linkPath).
Proof.
  set (P := fun (k : list (list N)) (node : Node) =>
              Fs.isSymbolicLink (Fs.statsOf node) = true ->
              k = Fs.key (processCwd host) linkPath).
  change (preserves (map_Forall P) (createSymlink host target linkPath)).
  assert (forall k, P k Dir) as Hdir by (intros k H; discriminate H).
  unfold createSymlink. apply preserves_tryCatch; [|intros _; apply preserves_ret].
  apply preserves_bind.
  - apply preserves_tryCatch; [apply preserves_within_inspectLink|].
    intros _. apply preserves_ret.
  - intros [b|]; [apply preserves_ret|].
    apply preserves_bind; [now apply preserves_within_mkdir|]. intros _.
    apply preserves_bind; [|intros _; apply preserves_ret].
    unfold symlink. apply preserves_syscall. intros m [] m' l HI E.
    unfold Fs.symlinkAt in E.
    destruct (Path.relative _ _ _) as [|c0 rel]; [discriminate E|].
    destruct (Fs.nodeAt _ m); [discriminate E|].
    destruct (Fs.nodeAt (Fs.parent _) m) as [[c| |pl]|]; try discriminate E.
    injection E as <- _. apply map_Forall_insert_2; [|exact HI]. intros _. reflexivity.
Qed.

(** A [createSymlink] that returns [false] has made no link. *)
Lemma createSymlink_false_noLinks (target linkPath : list N) (w w' : World) :
  noLinks (fs w) ->
  createSymlink host target linkPath w = (Ok false, w') ->
  noLinks (fs w').
Proof.
  intros Hnl H.
  assert (forall w1 o1 w2,
            noLinks (fs w1) ->
            tryCatch (inspectLink host target linkPath) (fun _ => ret None) w1 = (o1, w2) ->
            noLinks (fs w2)) as Hinspect.
  { apply (preserves_tryCatch noLinks); [|intros _; apply preserves_ret].
    apply (preserves_within_inspectLink
             (fun _ node => Fs.isSymbolicLink (Fs.statsOf node) = false)). }
  unfold createSymlink in H.
  apply tryCatch_Ok_inv in H as [H|(e & w0 & H & Hh)].
  - exfalso. apply bind_Ok_inv in H as (returned & w1 & Hi & H).
    destruct returned as [b|].
    + apply ret_Ok_inv in H as [-> <-].
      apply tryCatch_Ok_inv in Hi as [Hi|(e & w0 & _ & Hi)];
        [|apply ret_Ok_inv in Hi as [Hi _]; discriminate Hi].
      apply inspectLink_kept in Hi as (Hb & _). discriminate Hb.
    + apply bind_Ok_inv in H as (u & w2 & _ & H).
      apply bind_Ok_inv in H as (u' & w3 & _ & H).
      apply ret_Ok_inv in H as [H _]. discriminate H.
  - apply ret_Ok_inv in Hh as [_ <-].
    apply bind_Throw_inv in H as [H|(returned & w1 & Hi & H)].
    + exfalso.
      apply (tryCatch_ret_no_throw (inspectLink host target linkPath) (fun _ => None) w e).
      now rewrite H.
    + pose proof (Hinspect _ _ _ Hnl Hi) as Hnl1.
      destruct returned as [b|]; [discriminate H|].
      apply bind_Throw_inv in H as [H|([] & w2 & Hm & H)].
      * apply syscall_Throw_inv in H as [E _]. rewrite E. exact Hnl1.
      * apply bind_Throw_inv in H as [H|([] & w3 & _ & H)]; [|discriminate H].
        apply syscall_Throw_inv in H as [E _]. rewrite E.
        exact (preserves_mkdir host _ _ _ _ Hnl1 Hm).
Qed.

Lemma bind_run_inv {A B : Type} (m : M A) (f : A -> M B) (w w' : World) (o : Outcome B) :
  bind m f w = (o, w') ->
  (exists a w0, m w = (Ok a, w0) /\ f a w0 = (o, w'))
  \/ exists o0, m w = (o0, w').
Proof.
  unfold bind. destruct (m w) as [[a|e|] w0]; intros H.
  - left. now exists a, w0.
  - right. injection H as _ <-. now exists (Throw e).
  - right. injection H as _ <-. now exists OutOfFuel.
Qed.

(** From a file system without symbolic links an install makes at most
    one, at the path of the agent. *)
Lemma install_links (skill : Skill.t) (agentType : AgentType) (options : Options)
  (w w' : World) (o : Outcome InstallResult) :
  noLinks (fs w) ->
  installSkillForAgent host agents skill agentType options w = (o, w') ->
  noLinksBut (Fs.key (processCwd host) (agentDirFor host agents skill agentType options))
    (fs w').
Proof.
  intros Hnl Hrun. rewrite installSkillForAgent_eq in Hrun.
  set (canonicalDir := canonicalDirFor host skill options) in *.
  set (agentDir := agentDirFor host agents skill agentType options) in *.
  destruct (negb (isPathSafe host _ canonicalDir));
    [injection Hrun as _ <-; now apply noLinks_noLinksBut|].
  destruct (negb (isPathSafe host _ agentDir));
    [injection Hrun as _ <-; now apply noLinks_noLinksBut|].
  assert (forall o1 w1,
            installSteps host skill (opt_noSymlink options) canonicalDir agentDir w = (o1, w1) ->
            noLinksBut (Fs.key (processCwd host) agentDir) (fs w1)) as Hsteps.
  { intros o1 w1 H.
    assert (forall (r0 : InstallResult),
              preserves noLinks
                (mkdir host agentDir ;;; copyDirectory host (Skill.path skill) agentDir ;;;
                 ret r0)) as Hagent.
    { intros r0. apply preserves_bind; [apply preserves_mkdir|]. intros _.
      apply preserves_bind; [apply preserves_copyDirectoryFuel|]. intros _.
      apply preserves_ret. }
    unfold installSteps in H.
    apply bind_run_inv in H as [([] & w2 & H1 & H)|(o0 & H1)];
      [|apply noLinks_noLinksBut; exact (preserves_mkdir host _ _ _ _ Hnl H1)].
    pose proof (preserves_mkdir host _ _ _ _ Hnl H1) as Hnl2.
    apply bind_run_inv in H as [([] & w3 & H2 & H)|(o0 & H2)];
      [|apply noLinks_noLinksBut; exact (preserves_copyDirectoryFuel host _ _ _ _ _ _ Hnl2 H2)].
    pose proof (preserves_copyDirectoryFuel host _ _ _ _ _ _ Hnl2 H2) as Hnl3.
    destruct (truthy (opt_noSymlink options)).
    - apply noLinks_noLinksBut. exact (Hagent _ _ _ _ Hnl3 H).
    - apply bind_run_inv in H as [(b & w4 & H3 & H)|(o0 & H3)].
      + destruct b; cbn [negb] in H.
        * injection H as _ <-.
          exact (preserves_createSymlink _ _ _ _ _ (noLinks_noLinksBut _ _ Hnl3) H3).
        * apply noLinks_noLinksBut.
          exact (Hagent _ _ _ _ (createSymlink_false_noLinks _ _ _ _ Hnl3 H3) H).
      + exact (preserves_createSymlink _ _ _ _ _ (noLinks_noLinksBut _ _ Hnl3) H3). }
  unfold tryCatch in Hrun.
  destruct (installSteps host skill (opt_noSymlink options) canonicalDir agentDir w)
    as [[r|e|] w1] eqn:E.
  - injection Hrun as _ <-. exact (Hsteps _ _ eq_refl).
  - injection Hrun as _ <-. exact (Hsteps _ _ eq_refl).
  - injection Hrun as _ <-. exact (Hsteps _ _ eq_refl).
Qed.

(** X11: on a file system without symbolic links, [createSymlink]
    changes nothing outside the tree at [linkPath] but the missing
    directories above it: a path that is not at or below [linkPath] is as
    before, or is on the way to the parent of [linkPath], was missing and
    is now a directory.  The target of the link is never touched unless it
    lies at or below [linkPath].  Afterwards the file system has no
    symbolic link but perhaps one at [linkPath], and none at all when
    [createSymlink] returns [false]. *)
Theorem createSymlink_frame (target linkPath : list N) (w w' : World) (o : Outcome bool) :
  wfFs (fs w) ->
  noLinks (fs w) ->
  createSymlink host target linkPath w = (o, w') ->
  wfFs (fs w')
  /\ noLinksBut (Fs.key (processCwd host) linkPath) (fs w')
  /\ (o = Ok false -> noLinks (fs w'))
  /\ forall k, ~ Fs.key (processCwd host) linkPath `prefix_of` k ->
       fs w' !! k = fs w !! k
       \/ (k `prefix_of` Fs.parent (Fs.key (processCwd host) linkPath)
           /\ fs w !! k = None /\ fs w' !! k = Some Dir).
Proof.
  intros Hwf Hnl E.
  destruct (holds_run _ _ _ _ _ (holds_createSymlink host target linkPath) Hwf E)
    as (Hwf' & He & _).
  split; [exact Hwf'|].
  split; [exact (preserves_createSymlink _ _ _ _ _ (noLinks_noLinksBut _ _ Hnl) E)|].
  split; [intros ->; exact (createSymlink_false_noLinks _ _ _ _ Hnl E)|].
  intros k Hk.
  apply (effect_frame _ _ _ k He).
  - intros ->. now apply Hk.
  - exact Hk.
Qed.

(** X12: on a file system without symbolic links, an install changes
    nothing outside the canonical directory of the skill and the directory
    of the agent but the missing directories above them, and leaves no
    symbolic link but perhaps one at the path of the agent. *)
Theorem install_frame (skill : Skill.t) (agentType : AgentType) (options : Options)
  (w w' : World) (o : Outcome InstallResult) :
  wfFs (fs w) ->
  noLinks (fs w) ->
  installSkillForAgent host agents skill agentType options w = (o, w') ->
  let kc := Fs.key (processCwd host) (canonicalDirFor host skill options) in
  let ka := Fs.key (processCwd host) (agentDirFor host agents skill agentType options) in
  wfFs (fs w')
  /\ noLinksBut ka (fs w')
  /\ forall k, ~ kc `prefix_of` k -> ~ ka `prefix_of` k ->
       fs w' !! k = fs w !! k
       \/ ((k `prefix_of` kc \/ k `prefix_of` ka)
           /\ fs w !! k = None /\ fs w' !! k = Some Dir).
Proof.
  intros Hwf Hnl E kc ka.
  destruct (holds_run _ _ _ _ _ (holds_install host agents skill agentType options) Hwf E)
    as (Hwf' & He & _).
  split; [exact Hwf'|]. split; [exact (install_links _ _ _ _ _ _ Hnl E)|].
  intros k Hc Ha.
  apply (effect_frame _ _ _ k He).
  - intros [(names & _ & -> & _)|[(names & _ & -> & _)| ->]].
    + apply Hc, prefix_app_self.
    + apply Ha, prefix_app_self.
    + now apply Ha.
  - exact Ha.
Qed.

End LinkCount.

Lemma createSymlink_frame_witness :
  wfFs (fs (quiet plainSourceFs))
  /\ noLinks (fs (quiet plainSourceFs))
  /\ wfFs (fs (snd (createSymlink sampleHost (lit "/root/source-skill")
                      (lit "/root/project/.claude/skills/demo") (quiet plainSourceFs))))
  /\ noLinksBut (Fs.key (processCwd sampleHost) (lit "/root/project/.claude/skills/demo"))
       (fs (snd (createSymlink sampleHost (lit "/root/source-skill")
                   (lit "/root/project/.claude/skills/demo") (quiet plainSourceFs)))).
Proof.
  assert (wfFs (fs (quiet plainSourceFs))) as Hwf by compute_done.
  assert (noLinks (fs (quiet plainSourceFs))) as Hnl by compute_done.
  split; [exact Hwf|]. split; [exact Hnl|].
  destruct (createSymlink_frame sampleHost (lit "/root/source-skill")
              (lit "/root/project/.claude/skills/demo") (quiet plainSourceFs) _ _ Hwf Hnl
              (surjective_pairing _)) as (Hwf' & Hlinks & _).
  split; [exact Hwf' | exact Hlinks].
Defined.

Lemma install_frame_witness :
  wfFs (fs (quiet plainSourceFs))
  /\ noLinks (fs (quiet plainSourceFs))
  /\ wfFs (fs (snd (installSkillForAgent sampleHost sampleAgents demoSkill claude_code
                      sampleOptions (quiet plainSourceFs))))
  /\ fs (snd (installSkillForAgent sampleHost sampleAgents demoSkill claude_code
                sampleOptions (quiet plainSourceFs))) !! at_ "/root/source-skill/SKILL.md"
     = fs (quiet plainSourceFs) !! at_ "/root/source-skill/SKILL.md".
Proof.
  assert (wfFs (fs (quiet plainSourceFs))) as Hwf by compute_done.
  assert (noLinks (fs (quiet plainSourceFs))) as Hnl by compute_done.
  split; [exact Hwf|]. split; [exact Hnl|].
  destruct (install_frame sampleHost sampleAgents demoSkill claude_code sampleOptions
              (quiet plainSourceFs) _ _ Hwf Hnl (surjective_pairing _))
    as (Hwf' & _ & Hframe).
  split; [exact Hwf'|].
  destruct (Hframe (at_ "/root/source-skill/SKILL.md")) as [E|(_ & E & _)].
  - compute_done.
  - compute_done.
  - exact E.
  - exfalso. revert E. vm_compute. discriminate.
Defined.

Section SourceFacts.

Variable host : Host.
Variable agents : AgentType -> AgentConfig.

(** X24: on a file system without symbolic links, an install succeeds
    only if the source of the skill is a directory: it was one before the
    install, or it was missing on the way to the canonical directory and
    the install made it. *)
Theorem install_success_needs_the_source (skill : Skill.t) (agentType : AgentType)
  (options : Options) (w w' : World) (r : InstallResult) :
  let ks := Fs.key (processCwd host) (Skill.path skill) in
  let kc := Fs.key (processCwd host) (canonicalDirFor host skill options) in
  wfFs (fs w) ->
  noLinks (fs w) ->
  installSkillForAgent host agents skill agentType options w = (Ok r, w') ->
  success r = true ->
  Fs.nodeAt ks (fs w) = Some Dir \/ (ks `prefix_of` kc /\ fs w !! ks = None).
Proof.
  intros ks kc Hwf _ Hrun Hs.
  apply install_success_inv in Hrun; [|exact Hs].
  apply installSteps_Ok_inv in Hrun as (w1 & w2 & H1 & H2 & _).
  unfold copyDirectory in H2. rewrite copyDirectoryFuel_S in H2.
  apply bind_Ok_inv in H2 as ([] & w3 & H3 & H2).
  apply bind_Ok_inv in H2 as (entries & w4 & H4 & _).
  set (F := mkFootprint (fun k => k `prefix_of` kc) (fun _ => False) (fun _ => False)).
  destruct (holds_run_Ok _ _ _ _ _ _
              (holds_mkdir host F (canonicalDirFor host skill options) (fun k Hk => Hk))
              Hwf H1) as (Hwf1 & He1 & _).
  destruct (holds_run_Ok _ _ _ _ _ _
              (holds_mkdir host F (canonicalDirFor host skill options) (fun k Hk => Hk))
              Hwf1 H3) as (_ & He3 & _).
  pose proof (effect_trans _ _ _ _ He1 He3) as He.
  apply syscall_Ok_inv in H4 as (l & H4). unfold Fs.readdirAt in H4. fold ks in H4.
  destruct (Fs.nodeAt ks (fs w3)) as [[c| |pl]|] eqn:En; try discriminate H4.
  destruct ks as [|x ks'] eqn:Eks; [now left|].
  rewrite nodeAt_cons in *.
  destruct (effect_frame _ _ _ (x :: ks') He) as [E|(C & E & _)].
  - intros [].
  - intros [].
  - left. now rewrite <- E.
  - right. now split.
Qed.

End SourceFacts.

Lemma install_success_needs_the_source_witness :
  wfFs (fs (quiet plainSourceFs))
  /\ noLinks (fs (quiet plainSourceFs))
  /\ demoRun = (Ok demoResult, snd demoRun)
  /\ success demoResult = true
  /\ (Fs.nodeAt (Fs.key (processCwd sampleHost) (Skill.path demoSkill)) (fs (quiet plainSourceFs))
      = Some Dir
      \/ (Fs.key (processCwd sampleHost) (Skill.path demoSkill)
            `prefix_of` Fs.key (processCwd sampleHost)
                          (canonicalDirFor sampleHost demoSkill sampleOptions)
          /\ fs (quiet plainSourceFs) !! Fs.key (processCwd sampleHost) (Skill.path demoSkill)
             = None)).
Proof.
  assert (wfFs (fs (quiet plainSourceFs))) as Hwf by compute_done.
  assert (noLinks (fs (quiet plainSourceFs))) as Hnl by compute_done.
  split; [exact Hwf|]. split; [exact Hnl|]. split; [exact demoRun_eq|]. split; [reflexivity|].
  exact (install_success_needs_the_source sampleHost sampleAgents demoSkill claude_code
           sampleOptions (quiet plainSourceFs) (snd demoRun) demoResult Hwf Hnl demoRun_eq
           eq_refl).
Defined.

Lemma isSkillInstalled_true_inv_witness :
  noLinks (fs copiedWorld)
  /\ exists w' p node,
       isSkillInstalled sampleHost sampleAgents (lit "demo") claude_code sampleOptions
         copiedWorld = (Ok true, w')
       /\ getInstallPath sampleHost sampleAgents (lit "demo") claude_code sampleOptions = inr p
       /\ Fs.nodeAt (Fs.key (processCwd sampleHost) p) (fs copiedWorld) = Some node.
Proof.
  assert (noLinks (fs copiedWorld)) as Hnl by compute_done.
  split; [exact Hnl|].
  assert (isSkillInstalled sampleHost sampleAgents (lit "demo") claude_code sampleOptions
            copiedWorld
          = (Ok true, snd (isSkillInstalled sampleHost sampleAgents (lit "demo") claude_code
                             sampleOptions copiedWorld))) as Hrun
    by (apply run_split; vm_compute; reflexivity).
  destruct (isSkillInstalled_true_inv sampleHost sampleAgents _ _ _ _ _ Hnl Hrun)
    as (p & node & Hp & Hnode).
  eexists. exists p, node. split; [exact Hrun|]. split; [exact Hp | exact Hnode].
Defined.

(** * The claims about the install *)

Section InstallClaims.

Variable host : Host.
Variable agents : AgentType -> AgentConfig.

Abbreviation keyOf := (Fs.key (processCwd host)).

(** When the checks pass, an install is its [try] block. *)
Lemma install_is_the_try_block (skill : Skill.t) (agentType : AgentType) (options : Options) :
  isPathSafe host (canonicalBaseFor host options) (canonicalDirFor host skill options) = true ->
  isPathSafe host (agentBaseFor host agents agentType options)
    (agentDirFor host agents skill agentType options) = true ->
  installSkillForAgent host agents skill agentType options =
  tryCatch
    (installSteps host skill (opt_noSymlink options) (canonicalDirFor host skill options)
       (agentDirFor host agents skill agentType options))
    (fun error =>
       ret (mkInstallResult false (agentDirFor host agents skill agentType options)
              None None (Some (message error)))).
Proof. intros Hg1 Hg2. rewrite installSkillForAgent_eq, Hg1, Hg2. reflexivity. Qed.

Lemma canonical_gate (skill : Skill.t) (options : Options) :
  Path.isAbsolute (processCwd host) = true ->
  isPathSafe host (canonicalBaseFor host options) (canonicalDirFor host skill options) = true.
Proof.
  intros Habs. apply isPathSafe_join_plain; [now left | | apply sanitizeName_plain].
  unfold canonicalBaseFor. rewrite canonicalBase_key.
  intros E. apply app_eq_nil in E as [_ E]. discriminate E.
Qed.

Lemma agent_gate (skill : Skill.t) (agentType : AgentType) (options : Options) :
  Path.isAbsolute (processCwd host) = true ->
  keyOf (agentBaseFor host agents agentType options) <> [] ->
  isPathSafe host (agentBaseFor host agents agentType options)
    (agentDirFor host agents skill agentType options) = true.
Proof.
  intros Habs Hroot. apply isPathSafe_join_plain; [now left | exact Hroot|].
  apply sanitizeName_plain.
Qed.







(** C9: the sanitized name joined to a base passes [isPathSafe] for
    every name and every absolute base that is not the root directory; in
    a process with an absolute working directory, for every base that is
    not the root directory.  The canonical base ends in [.agents/skills],
    so the first check of [installSkillForAgent] always passes; the second
    passes for every agent whose base is not the root directory, and the
    install is then its [try] block: the result with the traversal message
    is never returned. *)
Theorem sanitized_names_pass_the_path_check (name base : list N) (skill : Skill.t)
  (agentType : AgentType) (options : Options) :
  (Path.isAbsolute base = true \/ Path.isAbsolute (processCwd host) = true ->
   keyOf base <> [] ->
   isPathSafe host base (Path.join [base; sanitizeName name]) = true)
  /\ (Path.isAbsolute (processCwd host) = true ->
      keyOf (canonicalBaseFor host options) <> []
      /\ isPathSafe host (canonicalBaseFor host options) (canonicalDirFor host skill options)
         = true
      /\ (keyOf (agentBaseFor host agents agentType options) <> [] ->
          isPathSafe host (agentBaseFor host agents agentType options)
            (agentDirFor host agents skill agentType options) = true
          /\ installSkillForAgent host agents skill agentType options
             = tryCatch
                 (installSteps host skill (opt_noSymlink options)
                    (canonicalDirFor host skill options)
                    (agentDirFor host agents skill agentType options))
                 (fun error =>
                    ret (mkInstallResult false
                           (agentDirFor host agents skill agentType options)
                           None None (Some (message error)))))).
Proof.
  split.
  - intros Habs Hroot. apply isPathSafe_join_plain; [tauto | exact Hroot|].
    apply sanitizeName_plain.
  - intros Habs. split; [|split].
    + unfold canonicalBaseFor. rewrite canonicalBase_key.
      intros E. apply app_eq_nil in E as [_ E]. discriminate E.
    + now apply canonical_gate.
    + intros Hroot.
      pose proof (canonical_gate skill options Habs) as Hg1.
      pose proof (agent_gate skill agentType options Habs Hroot) as Hg2.
      split; [exact Hg2|]. exact (install_is_the_try_block skill agentType options Hg1 Hg2).
Qed.

End InstallClaims.









Lemma sanitized_names_pass_the_path_check_witness :
  Path.isAbsolute (lit "/root/project/.agents/skills") = true
  /\ Fs.key (processCwd sampleHost) (lit "/root/project/.agents/skills") <> []
  /\ isPathSafe sampleHost (lit "/root/project/.agents/skills")
       (Path.join [lit "/root/project/.agents/skills"; sanitizeName (lit "../../etc")]) = true
  /\ installSkillForAgent sampleHost sampleAgents demoSkill claude_code sampleOptions
     = tryCatch
         (installSteps sampleHost demoSkill (opt_noSymlink sampleOptions)
            (canonicalDirFor sampleHost demoSkill sampleOptions)
            (agentDirFor sampleHost sampleAgents demoSkill claude_code sampleOptions))
         (fun error =>
            ret (mkInstallResult false
                   (agentDirFor sampleHost sampleAgents demoSkill claude_code sampleOptions)
                   None None (Some (message error)))).
Proof.
  assert (Fs.key (processCwd sampleHost) (lit "/root/project/.agents/skills") <> []) as Hroot
    by compute_done.
  destruct (sanitized_names_pass_the_path_check sampleHost sampleAgents
              (lit "../../etc") (lit "/root/project/.agents/skills") demoSkill claude_code
              sampleOptions) as [Hbase Hinstall].
  split; [reflexivity|]. split; [exact Hroot|].
  split; [exact (Hbase (or_introl eq_refl) Hroot)|].
  destruct (Hinstall eq_refl) as (_ & _ & Hagent).
  apply Hagent. compute_done.
Defined.
